(** * Graph construction, analysis and filtering of the data explorer

    A shallow embedding of [GraphBuilderService.buildDataset],
    [AnalysisService.findPaths] / [AnalysisService.analyzeImpact] and of the
    filters of [GraphFilterService], with the properties of the
    specification stated over it.

    Conventions of the embedding.
    - Entity and relationship ids are strings.  A JavaScript [Set<string>]
      is a [gset string] and a [Map<string, _>] a [gmap string _].
    - An object literal used as a dictionary is not a [Map]: a key it does
      not hold itself is looked up in [Object.prototype], and an assignment
      to the key [__proto__] installs a prototype instead of storing a
      property.  The adjacency map, the colour table, the metadata objects
      and the rows are such objects, and each is modelled with exactly the
      lookups and assignments the source performs on it.
    - A method that can throw returns an [option] ([None] is the uncaught
      [TypeError]), or an [Outcome] where state outlives the exception.
    - Arrays are lists; [push] appends at the end, [pop] removes the last
      element.  Mutable arrays and sets that a method shares with the
      methods it calls are fields of an explicit state record that is
      threaded through the calls.
    - The parameters [maxLength] and [maxDepth] are JavaScript numbers
      ([JsNumber]): [NaN], the two infinities, or a finite value, taken as a
      rational.  Array lengths and depth counters are integers ([Z]).
    - The recursive methods take a fuel argument for the termination
      checker; [findAllPaths_unfold], [findIndirectImpacts_unfold] and
      [bfs_run_done] show that the fuel handed out is never exhausted, so
      that the functions satisfy the recursive equations of the source. *)

From Stdlib Require Import ZArith QArith Qround Lia List.
From stdpp Require Import gmap strings list fin_maps.

Set Warnings "-clear-no-such-hyp".

Local Open Scope string_scope.
Local Open Scope list_scope.

(** ** JavaScript values *)

(** A number.  Every finite double is a rational; the model admits all of
    them. *)
Inductive JsNumber : Type :=
  | JsNaN
  | JsPosInf
  | JsNegInf
  | JsFinite (q : Q).

(** The number an integer literal or [parseInt] of a digit string denotes. *)
Definition js_int (z : Z) : JsNumber := JsFinite (inject_Z z).

(** [n >= x] and [n <= x] for an integer [n] (a length or a counter) and a
    number [x]; every comparison with [NaN] is false. *)
Definition js_ge (n : Z) (x : JsNumber) : bool :=
  match x with
  | JsNaN => false
  | JsPosInf => false
  | JsNegInf => true
  | JsFinite q => Qle_bool q (inject_Z n)
  end.

Definition js_le (n : Z) (x : JsNumber) : bool :=
  match x with
  | JsNaN => false
  | JsPosInf => true
  | JsNegInf => false
  | JsFinite q => Qle_bool (inject_Z n) q
  end.

(** A value found in a cell of a parsed row ([Record<string, any>]).  The
    builder reads a cell in three ways only: it compares it with
    [undefined] and with [null], it applies [String] to it, and it copies it
    into a metadata object.  A number is therefore given by the text that
    [String] prints for it (["1.5"], ["1e+21"], ["NaN"]), and an object (an
    array, a date, a function, a nested JSON object) by what [String] makes
    of it: [Some] text, or [None] when the conversion throws a [TypeError]
    (an object whose [toString] and [valueOf] yield no primitive). *)
Inductive JsValue : Type :=
  | JUndefined
  | JNull
  | JBool (b : bool)
  | JNum (text : string)
  | JStr (s : string)
  | JObj (text : option string).

Global Instance JsValue_eq_dec : EqDecision JsValue.
Proof. solve_decision. Defined.

(** [String(v)]; [None] is the [TypeError] of a failed conversion. *)
Definition js_String (v : JsValue) : option string :=
  match v with
  | JUndefined => Some "undefined"
  | JNull => Some "null"
  | JBool true => Some "true"
  | JBool false => Some "false"
  | JNum text => Some text
  | JStr s => Some s
  | JObj text => text
  end.

(** [!s] on a string: only the empty string is falsy. *)
Definition js_falsy (s : string) : bool := bool_decide (s = "").

(** [a.length] as a number. *)
Definition js_length {A} (l : list A) : Z := Z.of_nat (length l).

(** [Math.min(...l)] and [Math.max(...l)]; both call sites guard against the
    empty list, for which the value here is a placeholder. *)
Definition js_min (l : list Z) : Z :=
  match l with
  | [] => 0%Z
  | x :: r => foldl Z.min x r
  end.

Definition js_max (l : list Z) : Z :=
  match l with
  | [] => 0%Z
  | x :: r => foldl Z.max x r
  end.

(** The property names every object inherits from [Object.prototype]
    (ECMA-262, sections 20.1.3 and B.2.2).  All of them are functions but
    [__proto__], an accessor that reads and assigns the prototype. *)
Definition Object_prototype_names : list string :=
  ["constructor"; "hasOwnProperty"; "isPrototypeOf"; "propertyIsEnumerable";
   "toLocaleString"; "toString"; "valueOf";
   "__defineGetter__"; "__defineSetter__"; "__lookupGetter__"; "__lookupSetter__";
   "__proto__"].

(** ** Exceptions *)

(** The result of a statement that can throw while it updates state that
    outlives the exception: the state it ends in, normally or not. *)
Inductive Outcome (A : Type) : Type :=
  | Ok (a : A)
  | Thrown (a : A).
Arguments Ok {A} a.
Arguments Thrown {A} a.

Definition outcome_state {A} (o : Outcome A) : A :=
  match o with Ok a | Thrown a => a end.

(** A loop whose body can throw: the first exception ends it. *)
Fixpoint foldl_try {A B} (f : A → B → Outcome A) (a : A) (l : list B) : Outcome A :=
  match l with
  | [] => Ok a
  | x :: l' =>
      match f a x with
      | Ok a' => foldl_try f a' l'
      | Thrown a' => Thrown a'
      end
  end.

(** The same for a loop whose state is lost with the exception. *)
Fixpoint foldl_opt {A B} (f : A → B → option A) (a : A) (l : list B) : option A :=
  match l with
  | [] => Some a
  | x :: l' =>
      match f a x with
      | Some a' => foldl_opt f a' l'
      | None => None
      end
  end.

(** ** Data model (models/data-types) *)

(** A row: the cells it holds itself, and the properties it inherits
    through its prototype chain.  [row[column]] finds either. *)
Record Row : Type := mkRow {
  row_own : gmap string JsValue;
  row_inherited : gmap string JsValue }.

Definition js_get (row : Row) (column : string) : JsValue :=
  match row_own row !! column with
  | Some v => v
  | None => default JUndefined (row_inherited row !! column)
  end.

(** A metadata object, created as [{}]: the properties assigned to it, and
    the prototype installed by an assignment to [__proto__], if any. *)
Record Metadata : Type := mkMeta {
  md_own : gmap string JsValue;
  md_proto : option JsValue }.

Definition md_empty : Metadata := mkMeta ∅ None.

(** [metadata[key] = v].  The key [__proto__] stores nothing: it replaces
    the prototype when [v] is an object or [null], and is ignored
    otherwise. *)
Definition md_set (metadata : Metadata) (key : string) (v : JsValue) : Metadata :=
  if bool_decide (key = "__proto__") then
    match v with
    | JNull | JObj _ => mkMeta (md_own metadata) (Some v)
    | _ => metadata
    end
  else mkMeta (<[key := v]> (md_own metadata)) (md_proto metadata).

Record DataEntity : Type := mkEntity {
  ent_id : string;
  ent_type : string;
  ent_label : string;
  ent_metadata : Metadata }.

Record Relationship : Type := mkRelationship {
  rel_id : string;
  rel_source : string;
  rel_target : string;
  rel_type : string;
  rel_metadata : Metadata }.

Record Dataset : Type := mkDataset {
  entities : list DataEntity;
  relationships : list Relationship }.

Record PathRec : Type := mkPath {
  nodes : list string;
  edges : list string;
  meta_length : Z;
  meta_hops : Z }.

Record PathMetrics : Type := mkPathMetrics {
  totalPaths : Z;
  shortestPathLength : Z;
  longestPathLength : Z }.

Record PathAnalysisResult : Type := mkPathResult {
  paths : list PathRec;
  path_metrics : PathMetrics }.

Record ImpactMetrics : Type := mkImpactMetrics {
  totalImpactedNodes : Z;
  metric_maxDepth : Z;
  metric_criticalPaths : Z }.

Record ImpactAnalysisResult : Type := mkImpactResult {
  directImpact : list string;
  indirectImpact : list string;
  impact_metrics : ImpactMetrics }.

(** ** AnalysisService *)

Record OutEdge : Type := mkOut { out_target : string; out_edgeId : string }.
Record InEdge : Type := mkIn { in_source : string; in_edgeId : string }.
Record AdjEntry : Type := mkAdj {
  outgoing : list OutEdge;
  incoming : list InEdge }.

(** The adjacency map, created as [{}]: the records assigned under ordinary
    keys, and the record installed as prototype by an assignment to the
    key [__proto__], if an entity has that id. *)
Record AdjacencyMap : Type := mkAdjMap {
  adj_own : gmap string AdjEntry;
  adj_proto : option AdjEntry }.

Definition adj_empty : AdjacencyMap := mkAdjMap ∅ None.

(** What [adjacencyMap[key]] evaluates to: a record of the index, another
    value, or [undefined].  The other values are the members of
    [Object.prototype] (functions, and the prototype itself under
    [__proto__]) and, once a record has been installed as prototype, its
    two arrays under [outgoing] and [incoming].  All of them are truthy,
    and none has a property [outgoing] or [incoming]. *)
Inductive Slot : Type :=
  | SlotRecord (a : AdjEntry)
  | SlotOther
  | SlotUndefined.

Definition adj_stored (adjacencyMap : AdjacencyMap) (key : string) : option AdjEntry :=
  if bool_decide (key = "__proto__") then adj_proto adjacencyMap
  else adj_own adjacencyMap !! key.

Definition adj_get (adjacencyMap : AdjacencyMap) (key : string) : Slot :=
  match adj_stored adjacencyMap key with
  | Some a => SlotRecord a
  | None =>
      if bool_decide (key ∈ Object_prototype_names) then SlotOther
      else if bool_decide (is_Some (adj_proto adjacencyMap)
                           ∧ (key = "outgoing" ∨ key = "incoming"))
      then SlotOther
      else SlotUndefined
  end.

(** [adjacencyMap[key] = a] for a record [a]. *)
Definition adj_set (adjacencyMap : AdjacencyMap) (key : string) (a : AdjEntry)
    : AdjacencyMap :=
  if bool_decide (key = "__proto__") then mkAdjMap (adj_own adjacencyMap) (Some a)
  else mkAdjMap (<[key := a]> (adj_own adjacencyMap)) (adj_proto adjacencyMap).

(** [adjacencyMap[id]] as a condition. *)
Definition adj_truthy (adjacencyMap : AdjacencyMap) (id : string) : bool :=
  match adj_get adjacencyMap id with
  | SlotUndefined => false
  | _ => true
  end.

(** [adjacencyMap[id]?.outgoing || []] and its mirror image. *)
Definition outgoing_of (adjacencyMap : AdjacencyMap) (id : string) : list OutEdge :=
  match adj_get adjacencyMap id with
  | SlotRecord a => outgoing a
  | _ => []
  end.

Definition incoming_of (adjacencyMap : AdjacencyMap) (id : string) : list InEdge :=
  match adj_get adjacencyMap id with
  | SlotRecord a => incoming a
  | _ => []
  end.

(** The two loops of [buildAdjacencyMap]. *)
Definition adj_init (m : AdjacencyMap) (entity : DataEntity) : AdjacencyMap :=
  adj_set m (ent_id entity) (mkAdj [] []).

(** [if (adjacencyMap[id]) adjacencyMap[id].outgoing.push(edge)]: on a
    value that is no record, [.outgoing] is [undefined] and [push] throws. *)
Definition adj_push_outgoing (m : AdjacencyMap) (id : string) (edge : OutEdge)
    : option AdjacencyMap :=
  match adj_get m id with
  | SlotRecord a => Some (adj_set m id (mkAdj (outgoing a ++ [edge]) (incoming a)))
  | SlotOther => None
  | SlotUndefined => Some m
  end.

Definition adj_push_incoming (m : AdjacencyMap) (id : string) (edge : InEdge)
    : option AdjacencyMap :=
  match adj_get m id with
  | SlotRecord a => Some (adj_set m id (mkAdj (outgoing a) (incoming a ++ [edge])))
  | SlotOther => None
  | SlotUndefined => Some m
  end.

Definition adj_add (m : AdjacencyMap) (relationship : Relationship)
    : option AdjacencyMap :=
  let sourceId := rel_source relationship in
  let targetId := rel_target relationship in
  if js_falsy sourceId || js_falsy targetId then Some m
  else
    match adj_push_outgoing m sourceId (mkOut targetId (rel_id relationship)) with
    | None => None
    | Some m1 => adj_push_incoming m1 targetId (mkIn sourceId (rel_id relationship))
    end.

Definition buildAdjacencyMap (dataset : Dataset) : option AdjacencyMap :=
  foldl_opt adj_add (foldl adj_init adj_empty (entities dataset))
            (relationships dataset).

(** The records of the map with their keys, the keys alone, and the targets
    of all edges listed; the latter two bound the recursions below. *)
Definition adj_records (adjacencyMap : AdjacencyMap) : list (string * AdjEntry) :=
  map_to_list (adj_own adjacencyMap)
  ++ match adj_proto adjacencyMap with
     | Some a => [("__proto__", a)]
     | None => []
     end.

Definition adj_keys (adjacencyMap : AdjacencyMap) : gset string :=
  list_to_set (adj_records adjacencyMap).*1.

Definition adj_targets (adjacencyMap : AdjacencyMap) : gset string :=
  list_to_set (out_target <$> (adj_records adjacencyMap ≫= (fun p => outgoing p.2))).

(** *** Path enumeration *)

(** The arrays and the set that [findAllPaths] mutates in place. *)
Record DfsState : Type := mkDfs {
  currentPath : list string;
  currentEdges : list string;
  dfs_visited : gset string;
  allPaths : list PathRec }.

Definition dfs_record (st : DfsState) : DfsState :=
  mkDfs (currentPath st) (currentEdges st) (dfs_visited st)
        (allPaths st ++ [mkPath (currentPath st) (currentEdges st)
                                (js_length (currentPath st))
                                (js_length (currentPath st) - 1)]).

Definition dfs_push (st : DfsState) (edge : OutEdge) : DfsState :=
  mkDfs (currentPath st ++ [out_target edge])
        (currentEdges st ++ [out_edgeId edge])
        (dfs_visited st ∪ {[out_target edge]})
        (allPaths st).

Definition dfs_pop (st : DfsState) (edge : OutEdge) : DfsState :=
  mkDfs (removelast (currentPath st))
        (removelast (currentEdges st))
        (dfs_visited st ∖ {[out_target edge]})
        (allPaths st).

(** Body of the loop of [findAllPaths] over the outgoing edges; [rec] is
    the recursive call. *)
Definition dfs_step (rec : string → DfsState → DfsState) (st : DfsState)
    (edge : OutEdge) : DfsState :=
  let nextNode := out_target edge in
  if bool_decide (nextNode ∈ dfs_visited st) then st
  else dfs_pop (rec nextNode (dfs_push st edge)) edge.

(** [findAllPaths]; [fuel] bounds the recursion depth for the termination
    checker only, the two base cases are the ones of the source. *)
Fixpoint findAllPaths_fuel (fuel : nat) (adjacencyMap : AdjacencyMap)
    (currentNode targetNode : string) (maxLength : JsNumber) (st : DfsState)
    : DfsState :=
  if bool_decide (currentNode = targetNode) then dfs_record st
  else if js_ge (js_length (currentPath st)) maxLength then st
  else
    match fuel with
    | O => st
    | S fuel' =>
        foldl (dfs_step (fun nextNode st' =>
                           findAllPaths_fuel fuel' adjacencyMap nextNode targetNode
                             maxLength st'))
              st (outgoing_of adjacencyMap currentNode)
    end.

(** Every recursive call marks a node that was not visited; only a node
    with a record has edges to follow, so one unit of fuel for every
    unvisited key of the map, and one for the call itself, is enough. *)
Definition findAllPaths (adjacencyMap : AdjacencyMap)
    (currentNode targetNode : string) (maxLength : JsNumber) (st : DfsState)
    : DfsState :=
  findAllPaths_fuel (S (size (adj_keys adjacencyMap ∖ dfs_visited st)))
    adjacencyMap currentNode targetNode maxLength st.

Definition findPaths_pair (adjacencyMap : AdjacencyMap) (maxLength : JsNumber)
    (sourceId : string) (paths : list PathRec) (targetId : string) : list PathRec :=
  if bool_decide (sourceId = targetId) then paths
  else if negb (adj_truthy adjacencyMap sourceId) then paths
  else if negb (adj_truthy adjacencyMap targetId) then paths
  else
    allPaths (findAllPaths adjacencyMap sourceId targetId maxLength
                (mkDfs [sourceId] [] {[sourceId]} paths)).

(** The two nested loops of [findPaths] over the sources and the targets. *)
Definition findPaths_loops (adjacencyMap : AdjacencyMap) (maxLength : JsNumber)
    (sourceIds targetIds : list string) : list PathRec :=
  foldl (fun paths sourceId =>
           foldl (findPaths_pair adjacencyMap maxLength sourceId) paths targetIds)
        [] sourceIds.

Definition findPaths (dataset : Dataset) (sourceIds targetIds : list string)
    (maxLength : JsNumber) : option PathAnalysisResult :=
  match buildAdjacencyMap dataset with
  | None => None
  | Some adjacencyMap =>
      let paths := findPaths_loops adjacencyMap maxLength sourceIds targetIds in
      let pathLengths := (fun path => js_length (nodes path)) <$> paths in
      Some (mkPathResult paths
              (mkPathMetrics (js_length paths)
                 (if (0 <? js_length paths)%Z then js_min pathLengths else 0%Z)
                 (if (0 <? js_length paths)%Z then js_max pathLengths else 0%Z)))
  end.

(** *** Impact analysis *)

(** The arrays and the set shared by [analyzeImpact] and
    [findIndirectImpacts]. *)
Record ImpactState : Type := mkImpact {
  st_direct : list string;
  st_indirect : list string;
  st_visited : gset string;
  st_critical : list (list string) }.

(** Body of the inner loop of [findIndirectImpacts] over the outgoing
    edges; the accumulator carries [nextLayer] next to the shared state. *)
Definition indirect_edge (acc : ImpactState * list string) (edge : OutEdge)
    : ImpactState * list string :=
  let '(st, nextLayer) := acc in
  let neighbor := out_target edge in
  if bool_decide (neighbor ∈ st_visited st) then (st, nextLayer)
  else
    (mkImpact (st_direct st) (st_indirect st ++ [neighbor])
              (st_visited st ∪ {[neighbor]}) (st_critical st),
     nextLayer ++ [neighbor]).

(** Body of the outer loop over the nodes of the current layer. *)
Definition indirect_node (adjacencyMap : AdjacencyMap) (currentPath : list string)
    (acc : ImpactState * list string) (nodeId : string) : ImpactState * list string :=
  let '(st, nextLayer) := acc in
  if negb (adj_truthy adjacencyMap nodeId) then acc
  else
    let outgoingEdges := outgoing_of adjacencyMap nodeId in
    let st1 :=
      if (5 <? js_length outgoingEdges)%Z
      then mkImpact (st_direct st) (st_indirect st) (st_visited st)
                    (st_critical st ++ [currentPath ++ [nodeId]])
      else st in
    foldl indirect_edge (st1, nextLayer) outgoingEdges.

Fixpoint findIndirectImpacts_fuel (fuel : nat) (adjacencyMap : AdjacencyMap)
    (currentLayer : list string) (currentDepth : Z) (maxDepth : JsNumber)
    (currentPath : list string) (st : ImpactState) : ImpactState :=
  if js_ge currentDepth maxDepth then st
  else
    let '(st', nextLayer) :=
      foldl (indirect_node adjacencyMap currentPath) (st, []) currentLayer in
    if (0 <? js_length nextLayer)%Z
    then
      match fuel with
      | O => st'
      | S fuel' =>
          findIndirectImpacts_fuel fuel' adjacencyMap nextLayer
            (currentDepth + 1) maxDepth (currentPath ++ currentLayer) st'
      end
    else st'.

(** A layer that is not empty holds nodes that were not visited, each the
    target of an edge of the map, so one unit of fuel for every unvisited
    target is enough. *)
Definition findIndirectImpacts (adjacencyMap : AdjacencyMap)
    (currentLayer : list string) (currentDepth : Z) (maxDepth : JsNumber)
    (currentPath : list string) (st : ImpactState) : ImpactState :=
  findIndirectImpacts_fuel (size (adj_targets adjacencyMap ∖ st_visited st))
    adjacencyMap currentLayer currentDepth maxDepth currentPath st.

Definition direct_edge (st : ImpactState) (neighbor : OutEdge) : ImpactState :=
  if bool_decide (out_target neighbor ∈ st_visited st) then st
  else mkImpact (st_direct st ++ [out_target neighbor]) (st_indirect st)
                (st_visited st ∪ {[out_target neighbor]}) (st_critical st).

(** Body of the loop of [analyzeImpact] over the sources. *)
Definition impact_source (adjacencyMap : AdjacencyMap) (maxDepth : JsNumber)
    (st : ImpactState) (sourceId : string) : ImpactState :=
  if negb (adj_truthy adjacencyMap sourceId) then st
  else
    let directNeighbors := outgoing_of adjacencyMap sourceId in
    let st1 := foldl direct_edge st directNeighbors in
    findIndirectImpacts adjacencyMap (out_target <$> directNeighbors)
      1 maxDepth [sourceId] st1.

Definition analyzeImpact (dataset : Dataset) (sourceIds : list string)
    (maxDepth : JsNumber) : option ImpactAnalysisResult :=
  let visited := foldl (fun v sourceId => v ∪ {[sourceId]}) ∅ sourceIds in
  match buildAdjacencyMap dataset with
  | None => None
  | Some adjacencyMap =>
      let st :=
        foldl (impact_source adjacencyMap maxDepth)
              (mkImpact [] [] visited []) sourceIds in
      Some (mkImpactResult (st_direct st) (st_indirect st)
              (mkImpactMetrics
                 (js_length (st_direct st) + js_length (st_indirect st))
                 (if (0 <? js_length (st_critical st))%Z
                  then js_max ((fun path => js_length path - 1)%Z <$> st_critical st)
                  else 0%Z)
                 (js_length (st_critical st))))
  end.

(** ** GraphFilterService *)

(** The two sets built from the paths of a [PathAnalysisResult]. *)
Definition nodeIdsInPaths (ps : list PathRec) : gset string :=
  foldl (fun acc path => foldl (fun acc nodeId => acc ∪ {[nodeId]}) acc (nodes path))
        ∅ ps.

Definition edgeIdsInPaths (ps : list PathRec) : gset string :=
  foldl (fun acc path => foldl (fun acc edgeId => acc ∪ {[edgeId]}) acc (edges path))
        ∅ ps.

(** [new Set([...sourceIds, ...directImpact, ...indirectImpact])] *)
Definition impactedNodeIds (sourceIds : list string) (r : ImpactAnalysisResult)
    : gset string :=
  list_to_set (sourceIds ++ directImpact r ++ indirectImpact r).

Definition filterDataset (dataset : Dataset) (sourceIds targetIds : list string)
    (maxDepth : JsNumber) : option Dataset :=
  if (js_length sourceIds =? 0)%Z && (js_length targetIds =? 0)%Z then Some dataset
  else if (0 <? js_length sourceIds)%Z && (0 <? js_length targetIds)%Z then
    match findPaths dataset sourceIds targetIds maxDepth with
    | None => None
    | Some pathResult =>
        let nodeIds := nodeIdsInPaths (paths pathResult) in
        let edgeIds := edgeIdsInPaths (paths pathResult) in
        Some (mkDataset
                (filter (fun entity => ent_id entity ∈ nodeIds) (entities dataset))
                (filter (fun rel => rel_id rel ∈ edgeIds) (relationships dataset)))
    end
  else if (0 <? js_length sourceIds)%Z then
    match analyzeImpact dataset sourceIds maxDepth with
    | None => None
    | Some impactResult =>
        let ids := impactedNodeIds sourceIds impactResult in
        Some (mkDataset
                (filter (fun entity => ent_id entity ∈ ids) (entities dataset))
                (filter (fun rel => rel_source rel ∈ ids ∧ rel_target rel ∈ ids)
                        (relationships dataset)))
    end
  else Some dataset.

(** [GraphFilterService.filterByNodeTypes] *)
Definition filterByNodeTypes (dataset : Dataset) (sourceIds targetTypes : list string)
    (maxDepth : JsNumber) : option Dataset :=
  if (js_length sourceIds =? 0)%Z || (js_length targetTypes =? 0)%Z then Some dataset
  else
    let targetIds :=
      ent_id <$> filter (fun entity => ent_type entity ∈ targetTypes) (entities dataset) in
    filterDataset dataset sourceIds targetIds maxDepth.

(** [GraphFilterService.extractReachableSubgraph].  Its private
    [buildAdjacencyMap] is the one of [AnalysisService] without the
    warnings, so the same function serves here.

    Body of the loop over the outgoing edges of the node taken from the
    queue: the accumulator is the pair of [reachableNodes] and [queue]. *)
Definition bfs_edge (depth : Z) (acc : gset string * list (string * Z))
    (edge : OutEdge) : gset string * list (string * Z) :=
  let '(reachableNodes, queue) := acc in
  if bool_decide (out_target edge ∈ reachableNodes) then acc
  else (reachableNodes ∪ {[out_target edge]}, queue ++ [(out_target edge, depth + 1)%Z]).

(** The [while (queue.length > 0)] loop; it returns the set together with
    the queue it stopped at, which is empty unless the fuel ran out. *)
Fixpoint bfs_loop (fuel : nat) (adjacencyMap : AdjacencyMap) (maxDepth : JsNumber)
    (reachableNodes : gset string) (queue : list (string * Z))
    : gset string * list (string * Z) :=
  match queue with
  | [] => (reachableNodes, [])
  | (nodeId, depth) :: queue' =>
      match fuel with
      | O => (reachableNodes, queue)
      | S fuel' =>
          if js_ge depth maxDepth
          then bfs_loop fuel' adjacencyMap maxDepth reachableNodes queue'
          else
            let '(reachableNodes', queue'') :=
              foldl (bfs_edge depth) (reachableNodes, queue')
                    (outgoing_of adjacencyMap nodeId) in
            bfs_loop fuel' adjacencyMap maxDepth reachableNodes' queue''
      end
  end.

(** The run of the loop from the sources; every iteration takes one entry
    from the queue and every entry but the initial ones is the target of an
    edge entering the set for the first time, which bounds the number of
    iterations. *)
Definition bfs_run (adjacencyMap : AdjacencyMap) (sourceIds : list string)
    (maxDepth : JsNumber) : gset string * list (string * Z) :=
  bfs_loop (length sourceIds + size (adj_targets adjacencyMap))
    adjacencyMap maxDepth
    (list_to_set sourceIds) ((fun id => (id, 0%Z)) <$> sourceIds).

Definition extractReachableSubgraph (dataset : Dataset) (sourceIds : list string)
    (maxDepth : JsNumber) : option Dataset :=
  if (js_length sourceIds =? 0)%Z then Some dataset
  else
    match buildAdjacencyMap dataset with
    | None => None
    | Some adjacencyMap =>
        let reachableNodes := (bfs_run adjacencyMap sourceIds maxDepth).1 in
        Some (mkDataset
                (filter (fun entity => ent_id entity ∈ reachableNodes) (entities dataset))
                (filter (fun rel => rel_source rel ∈ reachableNodes
                                    ∧ rel_target rel ∈ reachableNodes)
                        (relationships dataset)))
    end.

(** ** GraphBuilderService *)

Record ClassDefinition : Type := mkClass {
  cls_id : string;
  cls_name : string;
  cls_sourceColumn : string;
  cls_labelColumn : string;
  cls_metadataColumns : list string;
  cls_color : string }.

Record RelationshipDefinition : Type := mkRelDef {
  rd_id : string;
  rd_name : string;
  rd_sourceClass : string;
  rd_targetClass : string;
  rd_sourceColumn : string;
  rd_targetColumn : string;
  rd_metadataColumns : list string }.

Record MappingConfiguration : Type := mkMapping {
  map_classes : list ClassDefinition;
  map_relationships : list RelationshipDefinition }.

Record RawData : Type := mkRaw {
  columns : list string;
  rows : list Row }.

(** The arrays and the [Map] local to one [buildDataset] call, together
    with the static [typeColorMap] of the class, which outlives the call. *)
Record BuildState : Type := mkBuild {
  b_entities : list DataEntity;
  b_relationships : list Relationship;
  entityMap : gmap string bool;
  typeColorMap : gmap string string }.

(** Initial value of the static [GraphBuilderService.typeColorMap]. *)
Definition typeColorMap0 : gmap string string :=
  <["group" := "#ECF0F1"]> (<["user" := "#9B59B6"]> (<["procedure" := "#3498DB"]>
  (<["view" := "#F39C12"]> (<["column" := "#E74C3C"]> (<["table" := "#2ECC71"]>
  (<["schema" := "#4682B4"]> ∅)))))).

(** [typeColorMap[key] = color] for a string [color]: the colour table is an
    object literal, and its [__proto__] ignores a value that is no
    object. *)
Definition color_set (colors : gmap string string) (key color : string)
    : gmap string string :=
  if bool_decide (key = "__proto__") then colors else <[key := color]> colors.

(** The metadata loop: copy every listed column that does not read as
    [undefined]. *)
Definition extract_metadata (row : Row) (metadataColumns : list string) : Metadata :=
  foldl (fun metadata metadataColumn =>
           match js_get row metadataColumn with
           | JUndefined => metadata
           | v => md_set metadata metadataColumn v
           end) md_empty metadataColumns.

(** The id test shared by both loops:
    [!id || id === 'undefined' || id === 'null']. *)
Definition id_missing (id : string) : bool :=
  js_falsy id || bool_decide (id = "undefined") || bool_decide (id = "null").

(** [row[labelColumn] !== undefined && row[labelColumn] !== null
     ? String(row[labelColumn]) : entityId] *)
Definition read_label (row : Row) (labelColumn entityId : string) : option string :=
  match js_get row labelColumn with
  | JUndefined | JNull => Some entityId
  | v => js_String v
  end.

(** [row[column] !== undefined ? String(row[column]) : ''] *)
Definition read_endpoint (row : Row) (column : string) : option string :=
  match js_get row column with
  | JUndefined => Some ""
  | v => js_String v
  end.

(** Body of the row loop of the entity phase. *)
Definition build_entity (classDefinition : ClassDefinition) (st : BuildState)
    (row : Row) : Outcome BuildState :=
  let classId := cls_id classDefinition in
  match js_String (js_get row (cls_sourceColumn classDefinition)) with
  | None => Thrown st
  | Some entityId =>
      if id_missing entityId then Ok st
      else
        let fullEntityId := classId +:+ ":" +:+ entityId in
        if bool_decide (is_Some (entityMap st !! fullEntityId)) then Ok st
        else
          let metadata := extract_metadata row (cls_metadataColumns classDefinition) in
          match read_label row (cls_labelColumn classDefinition) entityId with
          | None => Thrown st
          | Some label =>
              Ok (mkBuild (b_entities st
                           ++ [mkEntity fullEntityId classId label metadata])
                          (b_relationships st)
                          (<[fullEntityId := true]> (entityMap st))
                          (typeColorMap st))
          end
  end.

Definition build_class (rawData : RawData) (st : BuildState)
    (classDefinition : ClassDefinition) : Outcome BuildState :=
  let st1 :=
    mkBuild (b_entities st) (b_relationships st) (entityMap st)
            (color_set (typeColorMap st) (cls_id classDefinition)
                       (cls_color classDefinition)) in
  foldl_try (build_entity classDefinition) st1 (rows rawData).

(** Body of the row loop of the relationship phase. *)
Definition build_relationship (relationshipDef : RelationshipDefinition)
    (st : BuildState) (row : Row) : Outcome BuildState :=
  let relId := rd_id relationshipDef in
  match read_endpoint row (rd_sourceColumn relationshipDef) with
  | None => Thrown st
  | Some sourceEntityId =>
      match read_endpoint row (rd_targetColumn relationshipDef) with
      | None => Thrown st
      | Some targetEntityId =>
          if js_falsy sourceEntityId || js_falsy targetEntityId
             || bool_decide (sourceEntityId = "undefined")
             || bool_decide (targetEntityId = "undefined")
             || bool_decide (sourceEntityId = "null")
             || bool_decide (targetEntityId = "null")
          then Ok st
          else
            let sourceFullId :=
              rd_sourceClass relationshipDef +:+ ":" +:+ sourceEntityId in
            let targetFullId :=
              rd_targetClass relationshipDef +:+ ":" +:+ targetEntityId in
            if negb (bool_decide (is_Some (entityMap st !! sourceFullId)))
               || negb (bool_decide (is_Some (entityMap st !! targetFullId)))
            then Ok st
            else if bool_decide (sourceFullId = targetFullId) then Ok st
            else
              let metadata :=
                extract_metadata row (rd_metadataColumns relationshipDef) in
              let relationshipId :=
                relId +:+ ":" +:+ sourceEntityId +:+ "-" +:+ targetEntityId in
              if existsb (fun r => bool_decide (rel_id r = relationshipId))
                         (b_relationships st)
              then Ok st
              else
                Ok (mkBuild (b_entities st)
                            (b_relationships st
                             ++ [mkRelationship relationshipId sourceFullId
                                                targetFullId relId metadata])
                            (entityMap st)
                            (typeColorMap st))
      end
  end.

Definition build_relationships (rawData : RawData) (st : BuildState)
    (relationshipDef : RelationshipDefinition) : Outcome BuildState :=
  foldl_try (build_relationship relationshipDef) st (rows rawData).

(** The two phases of [buildDataset], run from a given content of the
    static colour table. *)
Definition buildDataset_state (colors : gmap string string) (rawData : RawData)
    (mapping : MappingConfiguration) : Outcome BuildState :=
  match foldl_try (build_class rawData) (mkBuild [] [] ∅ colors)
                  (map_classes mapping) with
  | Thrown st => Thrown st
  | Ok st1 => foldl_try (build_relationships rawData) st1 (map_relationships mapping)
  end.

(** [buildDataset] returns the dataset, unless it throws, and leaves the
    colour table behind in either case. *)
Definition buildDataset (colors : gmap string string) (rawData : RawData)
    (mapping : MappingConfiguration) : option Dataset * gmap string string :=
  match buildDataset_state colors rawData mapping with
  | Ok st => (Some (mkDataset (b_entities st) (b_relationships st)), typeColorMap st)
  | Thrown st => (None, typeColorMap st)
  end.

(** [GraphBuilderService.extractUniqueValues]: a [Set] keeps its elements in
    insertion order, which [Array.from] returns. *)
Definition unique_value (column : string) (uniqueValues : list string) (row : Row)
    : option (list string) :=
  match js_get row column with
  | JUndefined | JNull => Some uniqueValues
  | value =>
      match js_String value with
      | None => None
      | Some s =>
          if bool_decide (s ∈ uniqueValues) then Some uniqueValues
          else Some (uniqueValues ++ [s])
      end
  end.

Definition extractUniqueValues (rawData : RawData) (column : string)
    : option (list string) :=
  foldl_opt (unique_value column) [] (rows rawData).

(** ** Scenario data *)

Definition plain_entity (id : string) : DataEntity := mkEntity id "node" id md_empty.
Definition plain_edge (s t : string) : Relationship :=
  mkRelationship (s +:+ "->" +:+ t) s t "edge" md_empty.

(** Scenario A: the chain 1 -> 2 -> 3. *)
Definition chain3 : Dataset :=
  mkDataset (plain_entity <$> ["1"; "2"; "3"])
            [plain_edge "1" "2"; plain_edge "2" "3"].

(** Scenario C: node 1 with six outgoing edges. *)
Definition star7 : Dataset :=
  mkDataset (plain_entity <$> ["1"; "2"; "3"; "4"; "5"; "6"; "7"])
            (plain_edge "1" <$> ["2"; "3"; "4"; "5"; "6"; "7"]).

(** The same star entered from a node 0 in front of it. *)
Definition star8 : Dataset :=
  mkDataset (plain_entity <$> ["0"; "1"; "2"; "3"; "4"; "5"; "6"; "7"])
            (plain_edge "0" "1" :: (plain_edge "1" <$> ["2"; "3"; "4"; "5"; "6"; "7"])).

(** Two sources, the second of which points at a node the first one reaches
    in two hops. *)
Definition two_sources : Dataset :=
  mkDataset (plain_entity <$> ["A"; "B"; "X"; "Y"])
            [plain_edge "A" "X"; plain_edge "X" "Y"; plain_edge "B" "Y"].

(** A diamond: two routes from 1 to 4. *)
Definition diamond : Dataset :=
  mkDataset (plain_entity <$> ["1"; "2"; "3"; "4"])
            [plain_edge "1" "2"; plain_edge "1" "3";
             plain_edge "2" "4"; plain_edge "3" "4"].


Definition shared_id : Dataset :=
  mkDataset (plain_entity <$> ["1"; "2"; "3"; "4"])
            [mkRelationship "e" "1" "2" "edge" md_empty;
             mkRelationship "e" "3" "4" "edge" md_empty].

Definition inherited_target : Dataset :=
  mkDataset [plain_entity "a"] [plain_edge "a" "constructor"].

(** The index of a dataset on which [buildAdjacencyMap] returns. *)
Definition index_of (dataset : Dataset) : AdjacencyMap :=
  default adj_empty (buildAdjacencyMap dataset).

(** What a row created as an object literal inherits; the texts are the
    ones V8 prints for the native functions. *)
Definition native_function (name : string) : JsValue :=
  JObj (Some ("function " +:+ name +:+ "() { [native code] }")).

Definition Object_prototype_cells : gmap string JsValue :=
  list_to_map
    ((fun name =>
        (name,
         if bool_decide (name = "__proto__") then JObj (Some "[object Object]")
         else if bool_decide (name = "constructor") then native_function "Object"
         else native_function name)) <$> Object_prototype_names).

Definition plain_row (cells : list (string * JsValue)) : Row :=
  mkRow (list_to_map cells) Object_prototype_cells.

(** Scenario D: two rows with the same id and different names. *)
Definition rowD1 : Row := plain_row [("id", JStr "e1"); ("name", JStr "Alice")].
Definition rowD2 : Row := plain_row [("id", JStr "e1"); ("name", JStr "Alice2")].
Definition classD : ClassDefinition := mkClass "class" "Class" "id" "name" [] "#000000".
Definition rawD : RawData := mkRaw ["id"; "name"] [rowD1; rowD2].
Definition mappingD : MappingConfiguration := mkMapping [classD] [].

(** A parent/child table: the second row points at itself, and the third
    repeats the first. *)
Definition rowP1 : Row := plain_row [("id", JStr "a"); ("parent", JStr "b")].
Definition rowP2 : Row := plain_row [("id", JStr "b"); ("parent", JStr "b")].
Definition classP : ClassDefinition := mkClass "c" "C" "id" "id" [] "#000000".
Definition relP : RelationshipDefinition := mkRelDef "p" "Parent" "c" "c" "id" "parent" [].
Definition rawP : RawData := mkRaw ["id"; "parent"] [rowP1; rowP2; rowP1].
Definition mappingP : MappingConfiguration := mkMapping [classP] [relP].

(** A row as [JSON.parse] can deliver it, whose [parent] cell is the object
    [{"toString": 1, "valueOf": 1}]: [String] finds neither method
    callable and throws. *)
Definition rowT : Row := plain_row [("id", JStr "a"); ("parent", JObj None)].
Definition rawT : RawData := mkRaw ["id"; "parent"] [rowT].

(** ** Specification predicates *)

(** [edge_between adj a b e]: the index lists [e] as an edge from [a] to [b]. *)
Definition edge_between (adj : AdjacencyMap) (a b e : string) : Prop :=
  mkOut b e ∈ outgoing_of adj a.

(** [out_neighbor adj s n]: [n] is the target of an outgoing edge of [s]. *)
Definition out_neighbor (adj : AdjacencyMap) (s n : string) : Prop :=
  n ∈ out_target <$> outgoing_of adj s.

(** A walk of the index: the node list and the edge list of a path grown
    one hop at a time from a single node. *)
Inductive walk (adj : AdjacencyMap) : list string → list string → Prop :=
  | walk_start a : walk adj [a] []
  | walk_step ns es a b e :
      walk adj ns es → last ns = Some a → edge_between adj a b e →
      walk adj (ns ++ [b]) (es ++ [e]).

(** [hops adj k a b]: [b] is [k] outgoing edges away from [a]. *)
Fixpoint hops (adj : AdjacencyMap) (k : nat) (a b : string) : Prop :=
  match k with
  | O => a = b
  | S k' => ∃ m, hops adj k' a m ∧ out_neighbor adj m b
  end.

(** [route adj cur hs]: the edges [hs] can be followed one after the other
    starting at [cur]. *)
Fixpoint route (adj : AdjacencyMap) (cur : string) (hs : list OutEdge) : Prop :=
  match hs with
  | [] => True
  | e :: hs' => e ∈ outgoing_of adj cur ∧ route adj (out_target e) hs'
  end.

(** The record [findAllPaths] pushes for a node list and an edge list. *)
Definition path_record (ns es : list string) : PathRec :=
  mkPath ns es (js_length ns) (js_length ns - 1).

(** The fields of the DFS state that backtracking has to restore. *)
Definition same_frame (st st' : DfsState) : Prop :=
  currentPath st' = currentPath st
  ∧ currentEdges st' = currentEdges st
  ∧ dfs_visited st' = dfs_visited st.

(** Invariant of the DFS state on entry to [findAllPaths] at [cur]. *)
Definition dfs_ok (adj : AdjacencyMap) (cur : string) (st : DfsState) : Prop :=
  NoDup (currentPath st)
  ∧ (∀ x, x ∈ dfs_visited st ↔ x ∈ currentPath st)
  ∧ walk adj (currentPath st) (currentEdges st)
  ∧ last (currentPath st) = Some cur.

(** A recorded path: simple, a walk of the index, and not cut off by the
    length test, which the path passed with one node fewer. *)
Definition path_ok (adj : AdjacencyMap) (maxLength : JsNumber) (p : PathRec) : Prop :=
  NoDup (nodes p)
  ∧ walk adj (nodes p) (edges p)
  ∧ js_ge (js_length (nodes p) - 1) maxLength = false.

(** What one relationship adds to the outgoing list of [k], and to its
    incoming list. *)
Definition adds_edge (k : string) (r : Relationship) : Prop :=
  rel_source r ≠ "" ∧ rel_target r ≠ "" ∧ rel_source r = k.

Global Instance adds_edge_dec k r : Decision (adds_edge k r).
Proof. unfold adds_edge. apply _. Defined.

Definition takes_edge (k : string) (r : Relationship) : Prop :=
  rel_source r ≠ "" ∧ rel_target r ≠ "" ∧ rel_target r = k.

Global Instance takes_edge_dec k r : Decision (takes_edge k r).
Proof. unfold takes_edge. apply _. Defined.

(** A key that is no entity id and still reads as a value of the adjacency
    map: a member of [Object.prototype], or one of the two arrays of the
    record that an entity with the id [__proto__] installs as prototype. *)
Definition shadowed (dataset : Dataset) (k : string) : Prop :=
  (k ∉ ent_id <$> entities dataset)
  ∧ (k ∈ Object_prototype_names
     ∨ ("__proto__" ∈ ent_id <$> entities dataset ∧ (k = "outgoing" ∨ k = "incoming"))).

(** No relationship that the index takes up has such a key as an end. *)
Definition index_safe (dataset : Dataset) : Prop :=
  ∀ r, r ∈ relationships dataset → rel_source r ≠ "" → rel_target r ≠ "" →
    ¬ shadowed dataset (rel_source r) ∧ ¬ shadowed dataset (rel_target r).

(** A pair is usable when its ends differ and both are entities. *)
Definition usable_pair (dataset : Dataset) (s t : string) : Prop :=
  s ≠ t ∧ s ∈ ent_id <$> entities dataset ∧ t ∈ ent_id <$> entities dataset.

(** Invariant of the shared state of [analyzeImpact]: the two result lists
    are duplicate-free and disjoint, hold no source, and together with the
    sources make up the visited set. *)
Definition imp_ok (srcs : list string) (st : ImpactState) : Prop :=
  NoDup (st_direct st ++ st_indirect st)
  ∧ (∀ x, x ∈ st_visited st ↔ x ∈ srcs ∨ x ∈ st_direct st ∨ x ∈ st_indirect st)
  ∧ (∀ x, x ∈ st_direct st ++ st_indirect st → x ∉ srcs).

(** What every step of the analysis does to the shared state: it keeps the
    invariant and only ever adds to the visited set and to [directImpact]. *)
Definition imp_trans (srcs : list string) (st st' : ImpactState) : Prop :=
  imp_ok srcs st →
  imp_ok srcs st'
  ∧ st_visited st ⊆ st_visited st'
  ∧ (∀ x, x ∈ st_direct st → x ∈ st_direct st').

(** Every impacted node lies downstream of a source: a direct one a single
    edge away, an indirect one [k >= 2] edges away, where the layer at
    depth [k - 1] was still expanded. *)
Definition impact_sound (adj : AdjacencyMap) (srcs : list string) (maxDepth : JsNumber)
    (st : ImpactState) : Prop :=
  (∀ x, x ∈ st_direct st → ∃ s, s ∈ srcs ∧ out_neighbor adj s x)
  ∧ (∀ x, x ∈ st_indirect st →
       ∃ (s : string) (k : nat),
         s ∈ srcs ∧ (2 ≤ k)%nat ∧ js_ge (Z.of_nat k - 1) maxDepth = false
         ∧ hops adj k s x).

(** Every recorded critical path leads from a source to a node with more
    than five outgoing edges, [k >= 1] edges away, whose layer was
    expanded. *)
Definition critical_ok (adj : AdjacencyMap) (srcs : list string) (maxDepth : JsNumber)
    (st : ImpactState) : Prop :=
  ∀ p, p ∈ st_critical st →
    ∃ (s x : string) (k : nat),
      s ∈ srcs ∧ head p = Some s ∧ last p = Some x ∧ (2 ≤ length p)%nat
      ∧ (1 ≤ k)%nat ∧ js_ge (Z.of_nat k) maxDepth = false ∧ hops adj k s x
      ∧ (5 < js_length (outgoing_of adj x))%Z.

(** Every visited node outside the layer has all its neighbours visited. *)
Definition expanded (adj : AdjacencyMap) (V : gset string) (layer : list string) : Prop :=
  ∀ x, x ∈ V → x ∉ layer → ∀ n, out_neighbor adj x n → n ∈ V.

(** The distances the analysis covers once it has reached depth [d]: up to
    [d], and beyond as long as the depth test lets the layers expand. *)
Definition in_depth (d : Z) (maxDepth : JsNumber) (j : nat) : Prop :=
  (Z.of_nat j ≤ d)%Z ∨ js_ge (Z.of_nat j - 1) maxDepth = false.

(** [covered adj s maxDepth d V]: the set [V] holds every node that lies
    within the distances of [in_depth d maxDepth] of [s]. *)
Definition covered (adj : AdjacencyMap) (s : string) (maxDepth : JsNumber) (d : Z)
    (V : gset string) : Prop :=
  ∀ y j, in_depth d maxDepth j → hops adj j s y → y ∈ V.

(** [impact_range adj s maxDepth x]: [x] is the source [s], a direct
    neighbour of it, or lies [k] edges downstream where the layer at depth
    [k - 1] is still expanded. *)
Definition impact_range (adj : AdjacencyMap) (s : string) (maxDepth : JsNumber)
    (x : string) : Prop :=
  ∃ k : nat, hops adj k s x ∧ ((k ≤ 1)%nat ∨ js_ge (Z.of_nat k - 1) maxDepth = false).

(** [simple_route adj maxLength s t hs]: the edges [hs] lead from [s] to a
    different node [t] without visiting a node twice, and the length test
    lets the last of them be taken. *)
Definition simple_route (adj : AdjacencyMap) (maxLength : JsNumber) (s t : string)
    (hs : list OutEdge) : Prop :=
  s ≠ t ∧ route adj s hs ∧ last (s :: (out_target <$> hs)) = Some t
  ∧ NoDup (s :: (out_target <$> hs)) ∧ js_ge (js_length hs) maxLength = false.

(** The simple routes that join a source and a target, both entities of the
    dataset. *)
Definition joining (dataset : Dataset) (adj : AdjacencyMap) (maxLength : JsNumber)
    (sourceIds targetIds : list string) (s t : string) (hs : list OutEdge) : Prop :=
  s ∈ sourceIds ∧ t ∈ targetIds
  ∧ s ∈ ent_id <$> entities dataset ∧ t ∈ ent_id <$> entities dataset
  ∧ simple_route adj maxLength s t hs.

(** Referential integrity of a dataset: every relationship joins two of its
    entities. *)
Definition closed_dataset (dataset : Dataset) : Prop :=
  ∀ r, r ∈ relationships dataset →
    rel_source r ∈ ent_id <$> entities dataset
    ∧ rel_target r ∈ ent_id <$> entities dataset.

Definition unique_relationship_ids (dataset : Dataset) : Prop :=
  NoDup (rel_id <$> relationships dataset).

(** *** The breadth-first search of [extractReachableSubgraph]

    [within adj srcs maxDepth x]: [x] is a source, or lies [k] edges
    downstream of one, where the node before it was still expanded. *)
Definition within (adj : AdjacencyMap) (srcs : list string) (maxDepth : JsNumber)
    (x : string) : Prop :=
  ∃ (s : string) (k : nat),
    s ∈ srcs ∧ hops adj k s x ∧ (k = 0 ∨ js_ge (Z.of_nat k - 1) maxDepth = false).

(** Every entry ever put in the queue records a distance that some walk
    from a source realises. *)
Definition bfs_entries_ok (adj : AdjacencyMap) (srcs : list string)
    (maxDepth : JsNumber) (seen : list (string * Z)) : Prop :=
  ∀ x e, (x, e) ∈ seen →
    (0 ≤ e)%Z ∧ (e = 0%Z ∨ js_ge (e - 1) maxDepth = false)
    ∧ ∃ s, s ∈ srcs ∧ hops adj (Z.to_nat e) s x.

(** The set and the queue against the list [pre] of the entries already
    taken from the queue: the set holds the nodes of all entries, the queue
    holds depth [d] followed by depth [d + 1], and no entry lies deeper. *)
Definition bfs_frame (adj : AdjacencyMap) (srcs : list string) (maxDepth : JsNumber)
    (pre : list (string * Z)) (R : gset string) (Q : list (string * Z)) (d : Z) : Prop :=
  (∀ x, x ∈ R ↔ x ∈ (pre ++ Q).*1)
  ∧ bfs_entries_ok adj srcs maxDepth (pre ++ Q)
  ∧ (∃ Q1 Q2, Q = Q1 ++ Q2
       ∧ (∀ x e, (x, e) ∈ Q1 → e = d)
       ∧ (∀ x e, (x, e) ∈ Q2 → e = (d + 1)%Z))
  ∧ (∀ x e, (x, e) ∈ pre ++ Q → (e ≤ d + 1)%Z)
  ∧ (∀ s, s ∈ srcs → (s, 0%Z) ∈ pre ++ Q).

(** The neighbours of every entry taken from the queue and expanded have an
    entry at most one level deeper. *)
Definition bfs_expanded (adj : AdjacencyMap) (maxDepth : JsNumber)
    (taken seen : list (string * Z)) : Prop :=
  ∀ x e, (x, e) ∈ taken → js_ge e maxDepth = false →
    ∀ n, out_neighbor adj x n → ∃ e', (n, e') ∈ seen ∧ (e' ≤ e + 1)%Z.

Definition bfs_inv (adj : AdjacencyMap) (srcs : list string) (maxDepth : JsNumber)
    (taken : list (string * Z)) (R : gset string) (Q : list (string * Z)) : Prop :=
  ∃ d, bfs_frame adj srcs maxDepth taken R Q d
       ∧ bfs_expanded adj maxDepth taken (taken ++ Q).

(** *** The builder *)

(** The full id a row yields for a class, if its source cell can be printed
    and reads as a usable id. *)
Definition entity_id_of (c : ClassDefinition) (row : Row) : option string :=
  match js_String (js_get row (cls_sourceColumn c)) with
  | Some entityId =>
      if id_missing entityId then None else Some (cls_id c +:+ ":" +:+ entityId)
  | None => None
  end.

(** The entity a row yields for a class, if moreover its label can be
    printed. *)
Definition entity_of (c : ClassDefinition) (row : Row) : option DataEntity :=
  match js_String (js_get row (cls_sourceColumn c)) with
  | Some entityId =>
      if id_missing entityId then None
      else
        match read_label row (cls_labelColumn c) entityId with
        | Some label =>
            Some (mkEntity (cls_id c +:+ ":" +:+ entityId) (cls_id c) label
                    (extract_metadata row (cls_metadataColumns c)))
        | None => None
        end
  | None => None
  end.

(** The relationship a row yields for a definition against the ids [known]
    of the entities built: both cells can be printed and read as usable
    ids, both entities exist, and they differ. *)
Definition relationship_of (rd : RelationshipDefinition) (known : list string)
    (row : Row) : option Relationship :=
  match read_endpoint row (rd_sourceColumn rd), read_endpoint row (rd_targetColumn rd) with
  | Some sourceEntityId, Some targetEntityId =>
      if id_missing sourceEntityId || id_missing targetEntityId then None
      else
        let sourceFullId := rd_sourceClass rd +:+ ":" +:+ sourceEntityId in
        let targetFullId := rd_targetClass rd +:+ ":" +:+ targetEntityId in
        if bool_decide (sourceFullId ∈ known ∧ targetFullId ∈ known
                        ∧ sourceFullId ≠ targetFullId)
        then
          Some (mkRelationship
                  (rd_id rd +:+ ":" +:+ sourceEntityId +:+ "-" +:+ targetEntityId)
                  sourceFullId targetFullId (rd_id rd)
                  (extract_metadata row (rd_metadataColumns rd)))
        else None
  | _, _ => None
  end.

(** The pairs of a class and a row, and of a relationship definition and a
    row, in the order in which the two phases of the builder meet them. *)
Definition class_rows (rawData : RawData) (mapping : MappingConfiguration)
    : list (ClassDefinition * Row) :=
  c ← map_classes mapping; (fun row => (c, row)) <$> rows rawData.

Definition definition_rows (rawData : RawData) (mapping : MappingConfiguration)
    : list (RelationshipDefinition * Row) :=
  rd ← map_relationships mapping; (fun row => (rd, row)) <$> rows rawData.

(** [first_with key l x k]: [x] is the first element of [l] with key [k]. *)
Definition first_with {A} (key : A → option string) (l : list A) (x : A) (k : string)
    : Prop :=
  ∃ l1 l2, l = l1 ++ x :: l2 ∧ key x = Some k ∧ ∀ y, y ∈ l1 → key y ≠ Some k.

(** The keys under which the two phases deduplicate: the full id of the
    entity of a class and a row, and the id of the relationship of a
    definition and a row. *)
Definition entity_key (p : ClassDefinition * Row) : option string :=
  entity_id_of p.1 p.2.

Definition relationship_key (known : list string) (p : RelationshipDefinition * Row)
    : option string :=
  rel_id <$> relationship_of p.1 known p.2.

(** Where the entities built so far come from, [pre] being the pairs of a
    class and a row already processed: every entity is the one of the
    first pair with its id, and every pair with an id is represented. *)
Definition entities_from (pre : list (ClassDefinition * Row)) (es : list DataEntity)
    : Prop :=
  (∀ e, e ∈ es →
     ∃ c row, first_with entity_key pre (c, row) (ent_id e) ∧ entity_of c row = Some e)
  ∧ (∀ p k, p ∈ pre → entity_key p = Some k → k ∈ ent_id <$> es).

(** The same for the relationships, against the ids [known] of the
    entities. *)
Definition relationships_from (known : list string)
    (pre : list (RelationshipDefinition * Row)) (rs : list Relationship) : Prop :=
  (∀ r, r ∈ rs →
     ∃ rd row, first_with (relationship_key known) pre (rd, row) (rel_id r)
               ∧ relationship_of rd known row = Some r)
  ∧ (∀ p k, p ∈ pre → relationship_key known p = Some k → k ∈ rel_id <$> rs).

(** Two rows that read the same id for every class of a mapping. *)
Definition same_ids (classes : list ClassDefinition) (r r' : Row) : Prop :=
  ∀ c, c ∈ classes →
    js_String (js_get r' (cls_sourceColumn c)) = js_String (js_get r (cls_sourceColumn c)).

(** Invariant of the builder state. *)
Definition build_ok (st : BuildState) : Prop :=
  NoDup (ent_id <$> b_entities st)
  ∧ (∀ k, is_Some (entityMap st !! k) ↔ k ∈ ent_id <$> b_entities st)
  ∧ NoDup (rel_id <$> b_relationships st)
  ∧ (∀ r, r ∈ b_relationships st →
       rel_source r ∈ ent_id <$> b_entities st
       ∧ rel_target r ∈ ent_id <$> b_entities st
       ∧ rel_source r ≠ rel_target r).

(** Two builder states that differ at most in the colour table, and two
    outcomes that end the same way in such states. *)
Definition same_data (st st' : BuildState) : Prop :=
  b_entities st = b_entities st'
  ∧ b_relationships st = b_relationships st'
  ∧ entityMap st = entityMap st'.

Definition same_outcome (o o' : Outcome BuildState) : Prop :=
  match o, o' with
  | Ok st, Ok st' | Thrown st, Thrown st' => same_data st st'
  | _, _ => False
  end.

(** The cells of a column that [extractUniqueValues] takes into account. *)
Definition defined_cell (row : Row) (column : string) : Prop :=
  js_get row column ≠ JUndefined ∧ js_get row column ≠ JNull.

(** * Proofs *)

(** Membership in a list given in full. *)
Ltac elem_of_concrete :=
  vm_compute; repeat first [apply list_elem_of_here | apply list_elem_of_further].

(** ** Loops as folds *)

Section Folds.
Context {A B : Type}.
Implicit Types (f g : A → B → A) (l : list B).

Lemma foldl_inv (P : A → Prop) f l a :
  P a → (∀ a x, x ∈ l → P a → P (f a x)) → P (foldl f a l).
Proof.
  revert a. induction l as [|y l IH]; intros a Ha Hstep; simpl; [done|].
  apply IH.
  - apply Hstep; [left | done].
  - intros a' x Hx. apply Hstep. by right.
Qed.


Lemma foldl_id f l a : (∀ a x, x ∈ l → f a x = a) → foldl f a l = a.
Proof.
  intros H. apply (foldl_inv (fun b => b = a)); [done|].
  intros b x Hx ->. by apply H.
Qed.

Lemma foldl_reaches (P : A → Prop) f l x a :
  x ∈ l → (∀ a, P (f a x)) → (∀ a y, P a → P (f a y)) → P (foldl f a l).
Proof.
  intros (l1 & l2 & ->)%list_elem_of_split Hx Hkeep.
  rewrite foldl_app. simpl. apply (foldl_inv P); [apply Hx|].
  intros a' y _. apply Hkeep.
Qed.

Lemma foldl_reaches_inv_in (I P : A → Prop) f l x a :
  I a → (∀ a y, y ∈ l → I a → I (f a y)) → x ∈ l →
  (∀ a, I a → P (f a x)) → (∀ a y, I a → P a → P (f a y)) →
  P (foldl f a l).
Proof.
  intros Ha HI Hx HP Hkeep.
  assert (∀ l' a', (∀ y, y ∈ l' → y ∈ l) → I a' → I (foldl f a' l')) as Hfold.
  { intros l'. induction l' as [|y l' IH]; intros a' Hsub Ha'; [done|].
    simpl. apply IH; [intros z Hz; apply Hsub; by right|].
    apply HI; [apply Hsub; left|done]. }
  apply list_elem_of_split in Hx as (l1 & l2 & Hl).
  assert (∀ y, y ∈ l1 ++ x :: l2 → y ∈ l) as Hsub by (intros y; by rewrite Hl).
  rewrite Hl, foldl_app. simpl.
  assert (I (foldl f a l1)) as H1.
  { apply Hfold; [|done]. intros y Hy. apply Hsub, elem_of_app. by left. }
  assert (∀ l' a', (∀ y, y ∈ l' → y ∈ l) → I a' → P a' → P (foldl f a' l')) as Hfold'.
  { intros l'. induction l' as [|y l' IH]; intros a' Hsub' Ha' Hp; [done|].
    simpl. apply IH; [intros z Hz; apply Hsub'; by right| |by apply Hkeep].
    apply HI; [apply Hsub'; left|done]. }
  apply Hfold'.
  - intros y Hy. apply Hsub, elem_of_app. right. by right.
  - apply HI; [|done]. apply Hsub, elem_of_app. right. left.
  - by apply HP.
Qed.

(** *** Loops that can throw *)

Lemma foldl_opt_app (f : A → B → option A) l1 l2 a :
  foldl_opt f a (l1 ++ l2) =
  match foldl_opt f a l1 with
  | Some a' => foldl_opt f a' l2
  | None => None
  end.
Proof.
  revert a. induction l1 as [|x l1 IH]; intros a; simpl; [done|].
  destruct (f a x); [apply IH|done].
Qed.

Lemma foldl_opt_inv (P : A → Prop) (f : A → B → option A) l a b :
  P a → (∀ a x a', x ∈ l → P a → f a x = Some a' → P a') →
  foldl_opt f a l = Some b → P b.
Proof.
  revert a. induction l as [|y l IH]; intros a Ha Hstep; simpl.
  - by intros [= <-].
  - destruct (f a y) as [a'|] eqn:Hy; [|done]. apply IH.
    + apply (Hstep a y); [left|done..].
    + intros a0 x a1 Hx. apply Hstep. by right.
Qed.

(** A loop returns when every step does, from every state the loop can be
    in. *)
Lemma foldl_opt_is_Some (P : A → Prop) (f : A → B → option A) l a :
  P a → (∀ a x, x ∈ l → P a → ∃ a', f a x = Some a' ∧ P a') →
  is_Some (foldl_opt f a l).
Proof.
  revert a. induction l as [|y l IH]; intros a Ha Hstep; simpl; [by eexists|].
  destruct (Hstep a y) as (a' & -> & Ha'); [left|done|].
  apply IH; [done|]. intros a0 x Hx. apply Hstep. by right.
Qed.

(** A loop that returns has taken every step, each from a state the loop
    can be in. *)
Lemma foldl_opt_steps (P : A → Prop) (f : A → B → option A) l a b x :
  P a → (∀ a x a', P a → f a x = Some a' → P a') →
  foldl_opt f a l = Some b → x ∈ l →
  ∃ a0, P a0 ∧ is_Some (f a0 x).
Proof.
  intros Ha Hstep. revert a Ha. induction l as [|y l IH]; intros a Ha; simpl.
  - by intros _ ?%elem_of_nil.
  - destruct (f a y) as [a'|] eqn:Hy; [|done].
    intros Hfold [->|Hx]%elem_of_cons.
    + exists a. rewrite Hy. by eauto.
    + apply (IH a'); [by eapply Hstep|done..].
Qed.

Lemma foldl_try_app (f : A → B → Outcome A) l1 l2 a :
  foldl_try f a (l1 ++ l2) =
  match foldl_try f a l1 with
  | Ok a' => foldl_try f a' l2
  | Thrown a' => Thrown a'
  end.
Proof.
  revert a. induction l1 as [|x l1 IH]; intros a; simpl; [done|].
  destruct (f a x); [apply IH|done].
Qed.

(** What holds of the state after every step, thrown or not, holds of the
    state the loop ends in. *)
Lemma foldl_try_inv (P : A → Prop) (f : A → B → Outcome A) l a :
  P a → (∀ a x, x ∈ l → P a → P (outcome_state (f a x))) →
  P (outcome_state (foldl_try f a l)).
Proof.
  revert a. induction l as [|y l IH]; intros a Ha Hstep; simpl; [done|].
  pose proof (Hstep a y ltac:(left) Ha) as Hy.
  destruct (f a y) as [a'|a']; [|done]. apply IH; [done|].
  intros a0 x Hx. apply Hstep. by right.
Qed.

(** The same along the elements already processed, for a loop that
    returns. *)
Lemma foldl_try_prefix_inv (P : list B → A → Prop) (f : A → B → Outcome A) l a b :
  P [] a → (∀ l1 x a a', P l1 a → f a x = Ok a' → P (l1 ++ [x]) a') →
  foldl_try f a l = Ok b → P l b.
Proof.
  intros Ha Hstep.
  assert (∀ l2 l1 a, P l1 a → foldl_try f a l2 = Ok b → P (l1 ++ l2) b) as Hgen.
  { intros l2. induction l2 as [|y l2 IH]; intros l1 a0 Ha0; simpl.
    - intros [= <-]. by rewrite app_nil_r.
    - destruct (f a0 y) as [a'|a'] eqn:Hy; [|done]. intros Hfold.
      rewrite (cons_middle y), app_assoc. apply (IH _ a'); [|done].
      by eapply Hstep. }
  apply (Hgen l [] a Ha).
Qed.

(** An element that repeats the effect of an earlier one does nothing:
    [D] records that [r] has been seen, is kept by every later step, and
    makes [r'] a no-op. *)
Lemma foldl_try_absorb (D : A → Prop) (f : A → B → Outcome A) (r r' : B) a l1 l2 l3 :
  (∀ a a', f a r = Ok a' → D a') →
  (∀ a x a', D a → f a x = Ok a' → D a') →
  (∀ a, D a → f a r' = Ok a) →
  foldl_try f a (l1 ++ r :: l2 ++ r' :: l3) = foldl_try f a (l1 ++ r :: l2 ++ l3).
Proof.
  intros Hseen Hkeep Hnop.
  rewrite !foldl_try_app. destruct (foldl_try f a l1) as [a1|a1]; [|done].
  simpl. destruct (f a1 r) as [a2|a2] eqn:Hr; [|done].
  rewrite !foldl_try_app.
  destruct (foldl_try f a2 l2) as [a3|a3] eqn:H2; [|done].
  simpl. rewrite Hnop; [done|].
  revert H2. apply (foldl_try_prefix_inv (fun _ a => D a)); [by eapply Hseen|].
  intros _ x a0 a0' Ha0. by apply Hkeep.
Qed.

(** Two runs of a loop from related states end the same way in related
    states. *)
Lemma foldl_try_rel (R : A → A → Prop) (f g : A → B → Outcome A) l a a' :
  R a a' →
  (∀ a a' x, R a a' →
     match f a x, g a' x with
     | Ok b, Ok b' | Thrown b, Thrown b' => R b b'
     | _, _ => False
     end) →
  match foldl_try f a l, foldl_try g a' l with
  | Ok b, Ok b' | Thrown b, Thrown b' => R b b'
  | _, _ => False
  end.
Proof.
  intros Ha Hstep. revert a a' Ha.
  induction l as [|x l IH]; intros a a' Ha; simpl; [done|].
  specialize (Hstep a a' x Ha).
  destruct (f a x), (g a' x); try done. by apply IH.
Qed.
End Folds.

(** ** Comparisons with a JavaScript number *)

Lemma js_ge_int n z : js_ge n (js_int z) = (z <=? n)%Z.
Proof.
  unfold js_ge, js_int, Qle_bool. simpl. by rewrite !Z.mul_1_r.
Qed.

Lemma js_le_int n z : js_le n (js_int z) = (n <=? z)%Z.
Proof.
  unfold js_le, js_int, Qle_bool. simpl. by rewrite !Z.mul_1_r.
Qed.

(** Once the test [n >= x] holds it holds for every larger [n]. *)
Lemma js_ge_mono n m x : (n ≤ m)%Z → js_ge n x = true → js_ge m x = true.
Proof.
  destruct x as [| | |q]; simpl; try done.
  intros Hle H. apply Qle_bool_iff. apply Qle_bool_iff in H.
  eapply Qle_trans; [exact H|]. by rewrite <- Zle_Qle.
Qed.

Lemma js_ge_false_mono n m x : (n ≤ m)%Z → js_ge m x = false → js_ge n x = false.
Proof.
  intros Hle Hm. destruct (js_ge n x) eqn:Hn; [|done].
  by rewrite (js_ge_mono n m x Hle Hn) in Hm.
Qed.

(** Against an integer the failed test is the strict order. *)
Lemma js_ge_int_false n z : js_ge n (js_int z) = false ↔ (n < z)%Z.
Proof. rewrite js_ge_int. by rewrite Z.leb_gt. Qed.

(** ** The adjacency index *)

Lemma adj_stored_set m k a k' :
  adj_stored (adj_set m k a) k' = if decide (k = k') then Some a else adj_stored m k'.
Proof.
  unfold adj_stored, adj_set.
  destruct (decide (k = k')) as [<-|Hne]; repeat case_bool_decide; simplify_eq/=;
    by rewrite ?lookup_insert_eq, ?lookup_insert_ne.
Qed.

Lemma adj_proto_stored m : adj_proto m = adj_stored m "__proto__".
Proof. reflexivity. Qed.

Lemma adj_get_record m k a : adj_get m k = SlotRecord a ↔ adj_stored m k = Some a.
Proof.
  unfold adj_get. destruct (adj_stored m k) as [b|].
  - split; by intros [= ->].
  - split; [|done]. by repeat case_bool_decide.
Qed.

Lemma adj_get_other m k :
  adj_get m k = SlotOther ↔
  adj_stored m k = None
  ∧ (k ∈ Object_prototype_names
     ∨ (is_Some (adj_stored m "__proto__") ∧ (k = "outgoing" ∨ k = "incoming"))).
Proof.
  unfold adj_get. rewrite <- adj_proto_stored. destruct (adj_stored m k) as [b|].
  - split; [done|]. by intros [? _].
  - repeat case_bool_decide; naive_solver.
Qed.

Lemma adj_truthy_iff m k :
  adj_truthy m k = true ↔ is_Some (adj_stored m k) ∨ adj_get m k = SlotOther.
Proof.
  unfold adj_truthy. destruct (adj_get m k) as [a| |] eqn:Hk.
  - apply adj_get_record in Hk. rewrite Hk. split; [by eauto|done].
  - split; [by right|done].
  - split; [done|]. intros [[a Ha]|?]; [|done].
    apply adj_get_record in Ha. congruence.
Qed.

Lemma outgoing_of_stored m k a : adj_stored m k = Some a → outgoing_of m k = outgoing a.
Proof. intros H%adj_get_record. unfold outgoing_of. by rewrite H. Qed.

Lemma outgoing_of_none m k : adj_stored m k = None → outgoing_of m k = [].
Proof.
  intros H. unfold outgoing_of. destruct (adj_get m k) as [a| |] eqn:Hk; [|done..].
  apply adj_get_record in Hk. congruence.
Qed.

Lemma incoming_of_stored m k a : adj_stored m k = Some a → incoming_of m k = incoming a.
Proof. intros H%adj_get_record. unfold incoming_of. by rewrite H. Qed.

Lemma incoming_of_none m k : adj_stored m k = None → incoming_of m k = [].
Proof.
  intros H. unfold incoming_of. destruct (adj_get m k) as [a| |] eqn:Hk; [|done..].
  apply adj_get_record in Hk. congruence.
Qed.

(** A node with an edge to follow has a record. *)
Lemma outgoing_of_elem m k e : e ∈ outgoing_of m k → is_Some (adj_stored m k).
Proof.
  destruct (adj_stored m k) as [a|] eqn:Hk; [by eauto|].
  rewrite outgoing_of_none by done. by intros ?%elem_of_nil.
Qed.

(** *** The loop over the entities *)

Lemma adj_init_stored es m k :
  adj_stored (foldl adj_init m es) k =
  if decide (k ∈ ent_id <$> es) then Some (mkAdj [] []) else adj_stored m k.
Proof.
  revert m. induction es as [|e es IH]; intros m.
  - rewrite decide_False; [done|]. apply not_elem_of_nil.
  - cbn [foldl]. rewrite IH, fmap_cons. unfold adj_init. rewrite adj_stored_set.
    destruct (decide (k ∈ ent_id <$> es)) as [Hin|Hnin].
    + rewrite decide_True; [done|]. by right.
    + destruct (decide (ent_id e = k)) as [<-|Hne].
      * rewrite decide_True; [done|]. left.
      * rewrite decide_False; [done|]. rewrite elem_of_cons. naive_solver.
Qed.

(** *** The loop over the relationships *)

(** Two maps with records under the same keys. *)
Lemma adj_get_other_dom m m' k :
  (∀ k, is_Some (adj_stored m' k) ↔ is_Some (adj_stored m k)) →
  adj_get m' k = SlotOther ↔ adj_get m k = SlotOther.
Proof.
  intros Hdom. rewrite !adj_get_other, !eq_None_not_Some, !Hdom. done.
Qed.

Lemma adj_push_outgoing_Some m id e m' :
  adj_push_outgoing m id e = Some m' →
  adj_get m id ≠ SlotOther
  ∧ (∀ k, is_Some (adj_stored m' k) ↔ is_Some (adj_stored m k))
  ∧ (∀ k, outgoing_of m' k =
          outgoing_of m k
          ++ (if decide (id = k ∧ is_Some (adj_stored m k)) then [e] else []))
  ∧ (∀ k, incoming_of m' k = incoming_of m k).
Proof.
  unfold adj_push_outgoing. destruct (adj_get m id) as [a| |] eqn:Hid; [|done|].
  - intros [= <-]. apply adj_get_record in Hid. split_and!; [done|..].
    + intros k. rewrite adj_stored_set. destruct (decide (id = k)) as [<-|]; [|done].
      rewrite Hid. split; by eauto.
    + intros k. destruct (decide (id = k)) as [<-|Hne].
      * rewrite (outgoing_of_stored _ _ _ (eq_trans (adj_stored_set _ _ _ _)
                   (decide_True _ _ eq_refl))).
        rewrite (outgoing_of_stored _ _ _ Hid). simpl.
        rewrite decide_True; [done|]. split; [done|]. rewrite Hid. by eauto.
      * rewrite decide_False by naive_solver. rewrite app_nil_r.
        destruct (adj_stored m k) as [b|] eqn:Hk.
        -- rewrite (outgoing_of_stored _ k b), (outgoing_of_stored _ _ _ Hk); [done|].
           by rewrite adj_stored_set, decide_False.
        -- rewrite !outgoing_of_none; [done|done|].
           by rewrite adj_stored_set, decide_False.
    + intros k. destruct (decide (id = k)) as [<-|Hne].
      * rewrite (incoming_of_stored _ _ _ (eq_trans (adj_stored_set _ _ _ _)
                   (decide_True _ _ eq_refl))).
        by rewrite (incoming_of_stored _ _ _ Hid).
      * destruct (adj_stored m k) as [b|] eqn:Hk.
        -- rewrite (incoming_of_stored _ k b), (incoming_of_stored _ _ _ Hk); [done|].
           by rewrite adj_stored_set, decide_False.
        -- rewrite !incoming_of_none; [done|done|].
           by rewrite adj_stored_set, decide_False.
  - intros [= <-]. split_and!; [done|done| |done].
    intros k. destruct (decide _) as [[<- [a Ha]]|]; [|by rewrite app_nil_r].
    apply adj_get_record in Ha. congruence.
Qed.

Lemma adj_push_incoming_Some m id e m' :
  adj_push_incoming m id e = Some m' →
  adj_get m id ≠ SlotOther
  ∧ (∀ k, is_Some (adj_stored m' k) ↔ is_Some (adj_stored m k))
  ∧ (∀ k, outgoing_of m' k = outgoing_of m k)
  ∧ (∀ k, incoming_of m' k =
          incoming_of m k
          ++ (if decide (id = k ∧ is_Some (adj_stored m k)) then [e] else [])).
Proof.
  unfold adj_push_incoming. destruct (adj_get m id) as [a| |] eqn:Hid; [|done|].
  - intros [= <-]. apply adj_get_record in Hid. split_and!; [done|..].
    + intros k. rewrite adj_stored_set. destruct (decide (id = k)) as [<-|]; [|done].
      rewrite Hid. split; by eauto.
    + intros k. destruct (decide (id = k)) as [<-|Hne].
      * rewrite (outgoing_of_stored _ _ _ (eq_trans (adj_stored_set _ _ _ _)
                   (decide_True _ _ eq_refl))).
        by rewrite (outgoing_of_stored _ _ _ Hid).
      * destruct (adj_stored m k) as [b|] eqn:Hk.
        -- rewrite (outgoing_of_stored _ k b), (outgoing_of_stored _ _ _ Hk); [done|].
           by rewrite adj_stored_set, decide_False.
        -- rewrite !outgoing_of_none; [done|done|].
           by rewrite adj_stored_set, decide_False.
    + intros k. destruct (decide (id = k)) as [<-|Hne].
      * rewrite (incoming_of_stored _ _ _ (eq_trans (adj_stored_set _ _ _ _)
                   (decide_True _ _ eq_refl))).
        rewrite (incoming_of_stored _ _ _ Hid). simpl.
        rewrite decide_True; [done|]. split; [done|]. rewrite Hid. by eauto.
      * rewrite decide_False by naive_solver. rewrite app_nil_r.
        destruct (adj_stored m k) as [b|] eqn:Hk.
        -- rewrite (incoming_of_stored _ k b), (incoming_of_stored _ _ _ Hk); [done|].
           by rewrite adj_stored_set, decide_False.
        -- rewrite !incoming_of_none; [done|done|].
           by rewrite adj_stored_set, decide_False.
  - intros [= <-]. split_and!; [done|done|done|].
    intros k. destruct (decide _) as [[<- [a Ha]]|]; [|by rewrite app_nil_r].
    apply adj_get_record in Ha. congruence.
Qed.

Lemma adj_push_outgoing_is_Some m id e :
  adj_get m id ≠ SlotOther → is_Some (adj_push_outgoing m id e).
Proof. unfold adj_push_outgoing. destruct (adj_get m id); by eauto. Qed.

Lemma adj_push_incoming_is_Some m id e :
  adj_get m id ≠ SlotOther → is_Some (adj_push_incoming m id e).
Proof. unfold adj_push_incoming. destruct (adj_get m id); by eauto. Qed.

(** One relationship: what a step that returns has done. *)
Lemma adj_add_Some m r m' :
  adj_add m r = Some m' →
  (∀ k, is_Some (adj_stored m' k) ↔ is_Some (adj_stored m k))
  ∧ (∀ k, is_Some (adj_stored m k) →
          outgoing_of m' k =
          outgoing_of m k
          ++ (if decide (adds_edge k r) then [mkOut (rel_target r) (rel_id r)] else []))
  ∧ (∀ k, is_Some (adj_stored m k) →
          incoming_of m' k =
          incoming_of m k
          ++ (if decide (takes_edge k r) then [mkIn (rel_source r) (rel_id r)] else []))
  ∧ (rel_source r ≠ "" → rel_target r ≠ "" →
     adj_get m (rel_source r) ≠ SlotOther ∧ adj_get m (rel_target r) ≠ SlotOther).
Proof.
  unfold adj_add, js_falsy, adds_edge, takes_edge.
  case_bool_decide as Hs; simpl.
  { intros [= <-]. split_and!; [done|..|done].
    - intros k _. rewrite decide_False by tauto. by rewrite app_nil_r.
    - intros k _. rewrite decide_False by tauto. by rewrite app_nil_r. }
  case_bool_decide as Ht; simpl.
  { intros [= <-]. split_and!; [done|..|done].
    - intros k _. rewrite decide_False by tauto. by rewrite app_nil_r.
    - intros k _. rewrite decide_False by tauto. by rewrite app_nil_r. }
  destruct (adj_push_outgoing m _ _) as [m1|] eqn:H1; [|done].
  intros H2.
  apply adj_push_outgoing_Some in H1 as (Hs1 & Hdom1 & Hout1 & Hin1).
  apply adj_push_incoming_Some in H2 as (Ht2 & Hdom2 & Hout2 & Hin2).
  split_and!.
  - intros k. by rewrite Hdom2, Hdom1.
  - intros k Hk. rewrite Hout2, Hout1.
    destruct (decide (rel_source r = k)) as [Heq|Hne].
    + rewrite !decide_True; done.
    + rewrite !decide_False; [done|tauto..].
  - intros k Hk. rewrite Hin2, Hin1.
    destruct (decide (rel_target r = k)) as [Heq|Hne].
    + rewrite !decide_True; [done|done|]. split; [done|]. by apply Hdom1.
    + rewrite !decide_False; [done|tauto..].
  - intros _ _. split; [done|]. by rewrite <- (adj_get_other_dom m m1).
Qed.

(** ... and when it returns. *)
Lemma adj_add_is_Some m r :
  (rel_source r ≠ "" → rel_target r ≠ "" →
   adj_get m (rel_source r) ≠ SlotOther ∧ adj_get m (rel_target r) ≠ SlotOther) →
  is_Some (adj_add m r).
Proof.
  intros Hsafe. unfold adj_add, js_falsy.
  case_bool_decide as Hs; simpl; [by eauto|].
  case_bool_decide as Ht; simpl; [by eauto|].
  destruct (Hsafe Hs Ht) as [Hs' Ht'].
  destruct (adj_push_outgoing_is_Some m (rel_source r)
              (mkOut (rel_target r) (rel_id r)) Hs') as [m1 H1].
  rewrite H1. apply adj_push_incoming_is_Some.
  apply adj_push_outgoing_Some in H1 as (_ & Hdom1 & _).
  by rewrite (adj_get_other_dom m m1).
Qed.

Lemma adj_fold_Some rs m m' :
  foldl_opt adj_add m rs = Some m' →
  (∀ k, is_Some (adj_stored m' k) ↔ is_Some (adj_stored m k))
  ∧ (∀ k, is_Some (adj_stored m k) →
          outgoing_of m' k =
          outgoing_of m k
          ++ ((fun r => mkOut (rel_target r) (rel_id r)) <$> filter (adds_edge k) rs))
  ∧ (∀ k, is_Some (adj_stored m k) →
          incoming_of m' k =
          incoming_of m k
          ++ ((fun r => mkIn (rel_source r) (rel_id r)) <$> filter (takes_edge k) rs))
  ∧ (∀ r, r ∈ rs → rel_source r ≠ "" → rel_target r ≠ "" →
          adj_get m (rel_source r) ≠ SlotOther ∧ adj_get m (rel_target r) ≠ SlotOther).
Proof.
  revert m. induction rs as [|r rs IH]; intros m; simpl.
  - intros [= <-]. split_and!; [done|..].
    + intros k _. by rewrite app_nil_r.
    + intros k _. by rewrite app_nil_r.
    + by intros r ?%elem_of_nil.
  - destruct (adj_add m r) as [m1|] eqn:H1; [|done]. intros Hfold.
    apply adj_add_Some in H1 as (Hdom1 & Hout1 & Hin1 & Hsafe1).
    apply IH in Hfold as (Hdom & Hout & Hin & Hsafe).
    split_and!.
    + intros k. by rewrite Hdom, Hdom1.
    + intros k Hk. rewrite Hout by by apply Hdom1. rewrite Hout1 by done.
      rewrite filter_cons. destruct (decide (adds_edge k r)); simpl;
        by rewrite <- app_assoc.
    + intros k Hk. rewrite Hin by by apply Hdom1. rewrite Hin1 by done.
      rewrite filter_cons. destruct (decide (takes_edge k r)); simpl;
        by rewrite <- app_assoc.
    + intros r' [->|Hr']%elem_of_cons Hs Ht; [by apply Hsafe1|].
      destruct (Hsafe r' Hr' Hs Ht) as [Hs' Ht'].
      by rewrite <- !(adj_get_other_dom m m1).
Qed.

Lemma adj_fold_is_Some rs m :
  (∀ r, r ∈ rs → rel_source r ≠ "" → rel_target r ≠ "" →
        adj_get m (rel_source r) ≠ SlotOther ∧ adj_get m (rel_target r) ≠ SlotOther) →
  is_Some (foldl_opt adj_add m rs).
Proof.
  intros Hsafe.
  apply (foldl_opt_is_Some
           (fun m' => ∀ k, is_Some (adj_stored m' k) ↔ is_Some (adj_stored m k)));
    [done|].
  intros m1 r Hr Hdom1.
  destruct (adj_add_is_Some m1 r) as [m2 H2].
  { intros Hs Ht. destruct (Hsafe r Hr Hs Ht).
    by rewrite !(adj_get_other_dom m m1). }
  exists m2. split; [done|]. intros k.
  apply adj_add_Some in H2 as (Hdom2 & _). by rewrite Hdom2.
Qed.

(** *** The index of a dataset *)

Lemma adj_stored_empty k : adj_stored adj_empty k = None.
Proof. unfold adj_stored, adj_empty. simpl. by case_bool_decide. Qed.

Lemma adj_init_other dataset k :
  adj_get (foldl adj_init adj_empty (entities dataset)) k = SlotOther
  ↔ shadowed dataset k.
Proof.
  rewrite adj_get_other, !adj_init_stored, !adj_stored_empty. unfold shadowed.
  destruct (decide (k ∈ ent_id <$> entities dataset)) as [Hk|Hk],
    (decide ("__proto__" ∈ ent_id <$> entities dataset)) as [Hp|Hp];
    rewrite ?is_Some_alt; naive_solver.
Qed.

(** [buildAdjacencyMap] returns exactly on the datasets whose relationships
    stay clear of the inherited keys. *)
Lemma buildAdjacencyMap_is_Some dataset :
  is_Some (buildAdjacencyMap dataset) ↔ index_safe dataset.
Proof.
  unfold buildAdjacencyMap, index_safe. split.
  - intros [adj Hadj] r Hr Hs Ht.
    apply adj_fold_Some in Hadj as (_ & _ & _ & Hsafe).
    rewrite <- !adj_init_other. by apply Hsafe.
  - intros Hsafe. apply adj_fold_is_Some. intros r Hr Hs Ht.
    rewrite !adj_init_other. by apply Hsafe.
Qed.

Section Index.
Variable dataset : Dataset.
Variable adj : AdjacencyMap.
Hypothesis built : buildAdjacencyMap dataset = Some adj.

(** The index has one record per entity id ... *)
Lemma index_stored k :
  is_Some (adj_stored adj k) ↔ k ∈ ent_id <$> entities dataset.
Proof.
  apply adj_fold_Some in built as (Hdom & _). rewrite Hdom, adj_init_stored.
  rewrite adj_stored_empty, is_Some_alt. by destruct (decide _).
Qed.

(** ... whose outgoing list holds, in dataset order, the relationships that
    leave the entity and have non-empty endpoints, ... *)
Lemma index_outgoing k :
  outgoing_of adj k =
  if decide (k ∈ ent_id <$> entities dataset)
  then (fun r => mkOut (rel_target r) (rel_id r))
         <$> filter (adds_edge k) (relationships dataset)
  else [].
Proof.
  pose proof (index_stored k) as Hk.
  apply adj_fold_Some in built as (Hdom & Hout & _).
  destruct (decide _) as [Hin|Hnin].
  - rewrite Hout by (apply Hdom; tauto).
    rewrite (outgoing_of_stored _ k (mkAdj [] [])); [done|].
    by rewrite adj_init_stored, decide_True.
  - apply outgoing_of_none. apply eq_None_not_Some. tauto.
Qed.

(** ... and whose incoming list holds those that enter it. *)
Lemma index_incoming k :
  incoming_of adj k =
  if decide (k ∈ ent_id <$> entities dataset)
  then (fun r => mkIn (rel_source r) (rel_id r))
         <$> filter (takes_edge k) (relationships dataset)
  else [].
Proof.
  pose proof (index_stored k) as Hk.
  apply adj_fold_Some in built as (Hdom & _ & Hin' & _).
  destruct (decide _) as [Hin|Hnin].
  - rewrite Hin' by (apply Hdom; tauto).
    rewrite (incoming_of_stored _ k (mkAdj [] [])); [done|].
    by rewrite adj_init_stored, decide_True.
  - apply incoming_of_none. apply eq_None_not_Some. tauto.
Qed.

Lemma index_other k : adj_get adj k = SlotOther ↔ shadowed dataset k.
Proof.
  rewrite <- adj_init_other.
  apply adj_fold_Some in built as (Hdom & _). by apply adj_get_other_dom.
Qed.

Lemma index_truthy k :
  adj_truthy adj k = true ↔ k ∈ ent_id <$> entities dataset ∨ shadowed dataset k.
Proof. by rewrite adj_truthy_iff, index_stored, index_other. Qed.

Lemma index_safe_built : index_safe dataset.
Proof. apply buildAdjacencyMap_is_Some. by eauto. Qed.

Lemma edge_between_relationship a b e :
  edge_between adj a b e →
  a ∈ ent_id <$> entities dataset
  ∧ ∃ r, r ∈ relationships dataset
         ∧ rel_source r = a ∧ rel_target r = b ∧ rel_id r = e
         ∧ rel_source r ≠ "" ∧ rel_target r ≠ "".
Proof.
  unfold edge_between. rewrite index_outgoing.
  destruct (decide _) as [Hin|]; [|by intros ?%elem_of_nil].
  intros (r & [= -> ->] & ((? & ? & <-) & Hr)%list_elem_of_filter)%list_elem_of_fmap.
  eauto 10.
Qed.

(** The target of an edge of the index is an entity or reads as
    [undefined]: it never is an inherited key. *)
Lemma edge_target_clear a b e : edge_between adj a b e → ¬ shadowed dataset b.
Proof.
  intros (_ & r & Hr & _ & <- & _ & Hs & Ht)%edge_between_relationship.
  by apply index_safe_built.
Qed.

(** A node that passes the existence test and is entered by an edge is an
    entity. *)
Lemma edge_target_entity a b e :
  edge_between adj a b e → adj_truthy adj b = true →
  b ∈ ent_id <$> entities dataset.
Proof.
  intros Hab [?|Hsh]%index_truthy; [done|]. by apply edge_target_clear in Hab.
Qed.
End Index.

Lemma closed_dataset_safe dataset : closed_dataset dataset → index_safe dataset.
Proof.
  intros Hclosed r Hr _ _. destruct (Hclosed r Hr) as [Hs Ht].
  unfold shadowed. tauto.
Qed.

Lemma index_of_built dataset adj :
  buildAdjacencyMap dataset = Some adj → index_of dataset = adj.
Proof. unfold index_of. by intros ->. Qed.

(** *** The bounds of the recursions *)

Lemma adj_records_stored m k a : adj_stored m k = Some a → (k, a) ∈ adj_records m.
Proof.
  unfold adj_stored, adj_records. case_bool_decide as Hk.
  - intros ->. subst k. apply elem_of_app. right. left.
  - intros Hown. apply elem_of_app. left. by apply elem_of_map_to_list.
Qed.

Lemma adj_keys_stored m k : is_Some (adj_stored m k) → k ∈ adj_keys m.
Proof.
  intros [a Ha%adj_records_stored]. unfold adj_keys.
  apply elem_of_list_to_set. by apply (list_elem_of_fmap_2 fst _ (k, a)).
Qed.

Lemma adj_targets_edge m k e : e ∈ outgoing_of m k → out_target e ∈ adj_targets m.
Proof.
  intros He. destruct (outgoing_of_elem _ _ _ He) as [a Ha].
  rewrite (outgoing_of_stored _ _ _ Ha) in He.
  unfold adj_targets. apply elem_of_list_to_set, list_elem_of_fmap_2.
  apply list_elem_of_bind. exists (k, a). split; [done|]. by apply adj_records_stored.
Qed.

(** ** Path enumeration *)

Lemma walk_length adj ns es : walk adj ns es → length ns = S (length es).
Proof.
  induction 1 as [|ns es a b e _ IH _ _]; [done|].
  rewrite !length_app, IH. simpl. lia.
Qed.

Lemma walk_edges adj ns es e :
  walk adj ns es → e ∈ es →
  ∃ a b, a ∈ ns ∧ b ∈ ns ∧ edge_between adj a b e.
Proof.
  induction 1 as [|ns es a b e' Hw IH Hlast Hedge]; intros Hin.
  - by apply elem_of_nil in Hin.
  - apply elem_of_app in Hin as [Hin | Hin].
    + destruct (IH Hin) as (x & y & Hx & Hy & Hxy).
      exists x, y. rewrite !elem_of_app. auto.
    + apply list_elem_of_singleton in Hin as ->.
      exists a, b. rewrite !elem_of_app, !list_elem_of_singleton.
      split_and!; [left | by right | done].
      apply last_Some in Hlast as [ns' ->].
      rewrite elem_of_app, list_elem_of_singleton. by right.
Qed.

(** The last node of a walk with an edge is entered by an edge. *)
Lemma walk_last_edge adj ns es t :
  walk adj ns es → last ns = Some t → es ≠ [] →
  ∃ a e, edge_between adj a t e.
Proof.
  destruct 1 as [|ns es a b e _ _ Hedge]; [done|].
  rewrite last_snoc. intros [= <-] _. by eauto.
Qed.

Lemma route_snoc adj s hs a e :
  route adj s hs → last (s :: (out_target <$> hs)) = Some a →
  e ∈ outgoing_of adj a → route adj s (hs ++ [e]).
Proof.
  revert s. induction hs as [|h hs IH]; intros s; simpl.
  - by intros _ [= ->] He.
  - intros [Hh Hroute] Hlast He. split; [done|]. by apply IH.
Qed.

(** A walk follows a route from its first node. *)
Lemma walk_route adj ns es :
  walk adj ns es →
  ∃ s hs, ns = s :: (out_target <$> hs) ∧ es = out_edgeId <$> hs ∧ route adj s hs.
Proof.
  induction 1 as [a|ns es a b e _ (s & hs & -> & -> & Hroute) Hlast Hedge].
  - by exists a, [].
  - exists s, (hs ++ [mkOut b e]). rewrite !fmap_app. split_and!; [done..|].
    by apply (route_snoc _ _ _ a).
Qed.

Section Dfs.
Variable adj : AdjacencyMap.
Variable targetNode : string.
Variable maxLength : JsNumber.

Lemma findAllPaths_fuel_S fuel cur st :
  findAllPaths_fuel (S fuel) adj cur targetNode maxLength st =
  if bool_decide (cur = targetNode) then dfs_record st
  else if js_ge (js_length (currentPath st)) maxLength then st
  else foldl (dfs_step (fun n s => findAllPaths_fuel fuel adj n targetNode maxLength s))
             st (outgoing_of adj cur).
Proof. reflexivity. Qed.

Lemma same_frame_refl st : same_frame st st.
Proof. by unfold same_frame. Qed.

Lemma same_frame_pop_push st st' r edge :
  same_frame st st' → out_target edge ∉ dfs_visited st' →
  same_frame (dfs_push st' edge) r →
  same_frame st (dfs_pop r edge).
Proof.
  intros (Hp & He & Hv) Hfresh (Hp' & He' & Hv').
  unfold same_frame, dfs_pop; simpl. rewrite Hp', He', Hv'; simpl.
  rewrite !removelast_last, Hp, He. split_and!; [done..|].
  rewrite <- Hv. apply set_eq. intros x.
  rewrite elem_of_difference, elem_of_union, elem_of_singleton.
  split; [tauto|]. intros Hx. split; [by left|]. by intros ->.
Qed.

(** Backtracking restores the path, the edge list and the visited set. *)
Lemma findAllPaths_fuel_frame fuel cur st :
  same_frame st (findAllPaths_fuel fuel adj cur targetNode maxLength st).
Proof.
  revert cur st. induction fuel as [|n IH]; intros cur st.
  - simpl. case_bool_decide; [done|].
    destruct (js_ge _ _); apply same_frame_refl.
  - rewrite findAllPaths_fuel_S.
    case_bool_decide; [done|].
    destruct (js_ge _ _); [apply same_frame_refl|].
    apply (foldl_inv (same_frame st)); [apply same_frame_refl|].
    intros st' e _ Hfr. unfold dfs_step. case_bool_decide as Hin; [done|].
    eapply same_frame_pop_push; eauto.
Qed.

Lemma dfs_ok_push cur st edge :
  dfs_ok adj cur st → edge ∈ outgoing_of adj cur →
  out_target edge ∉ dfs_visited st →
  dfs_ok adj (out_target edge) (dfs_push st edge).
Proof.
  intros (Hnd & Hvis & Hwalk & Hlast) Hedge Hfresh.
  unfold dfs_ok, dfs_push; simpl. split_and!.
  - apply NoDup_app. split_and!; [done| |apply NoDup_singleton].
    intros x Hx ->%list_elem_of_singleton. apply Hfresh. by apply Hvis.
  - intros x. rewrite elem_of_union, elem_of_singleton, elem_of_app,
      list_elem_of_singleton. by rewrite Hvis.
  - eapply walk_step; [done..|]. unfold edge_between. by destruct edge.
  - by rewrite last_snoc.
Qed.

Lemma dfs_push_length st e :
  (js_length (currentPath (dfs_push st e)) - 1 = js_length (currentPath st))%Z.
Proof. unfold js_length. simpl. rewrite length_app. simpl. lia. Qed.

(** Every path recorded by the search is simple, is a walk of the index
    and was not cut off by the length test. *)
Lemma findAllPaths_fuel_ok fuel cur st :
  dfs_ok adj cur st →
  cur ≠ targetNode ∨ js_ge (js_length (currentPath st) - 1) maxLength = false →
  Forall (path_ok adj maxLength) (allPaths st) →
  Forall (path_ok adj maxLength)
         (allPaths (findAllPaths_fuel fuel adj cur targetNode maxLength st)).
Proof.
  revert cur st. induction fuel as [|n IH]; intros cur st Hok Hlen Hall.
  - simpl. case_bool_decide as Hcur.
    + simpl. apply Forall_app. split; [done|]. apply Forall_singleton.
      destruct Hok as (Hnd & _ & Hwalk & _), Hlen as [?|?]; [done|].
      by unfold path_ok.
    + by destruct (js_ge (js_length (currentPath st)) maxLength).
  - rewrite findAllPaths_fuel_S. case_bool_decide as Hcur.
    + simpl. apply Forall_app. split; [done|]. apply Forall_singleton.
      destruct Hok as (Hnd & _ & Hwalk & _), Hlen as [?|?]; [done|].
      by unfold path_ok.
    + destruct (js_ge (js_length (currentPath st)) maxLength) eqn:Hge; [done|].
      refine (proj2 (foldl_inv (fun st' => same_frame st st'
               ∧ Forall (path_ok adj maxLength) (allPaths st')) _ _ _ _ _));
        [by split; [apply same_frame_refl|] |].
      intros st' e He [Hfr Hall']. unfold dfs_step.
      case_bool_decide as Hin; [done|].
      pose proof (findAllPaths_fuel_frame n (out_target e) (dfs_push st' e)) as Hfr'.
      split; [by eapply same_frame_pop_push|]. simpl.
      destruct Hfr as (Hp & He' & Hv).
      apply IH; [|right|done].
      * apply (dfs_ok_push cur); [|done..].
        destruct Hok as (? & ? & ? & ?).
        unfold dfs_ok. by rewrite Hp, He', Hv.
      * rewrite dfs_push_length. by rewrite Hp.
Qed.


Lemma unvisited_key_size (K V : gset string) x :
  x ∈ K → x ∉ V → (size (K ∖ (V ∪ {[x]})) < size (K ∖ V))%nat.
Proof.
  intros HK HV. apply subset_size. split.
  - set_solver.
  - intros Hsub. assert (x ∈ K ∖ (V ∪ {[x]})) as Hx by (apply Hsub; set_solver).
    set_solver.
Qed.



Lemma dfs_step_allPaths_mono (rec : string → DfsState → DfsState) st e p :
  (∀ n s, p ∈ allPaths s → p ∈ allPaths (rec n s)) →
  p ∈ allPaths st → p ∈ allPaths (dfs_step rec st e).
Proof.
  intros Hrec Hp. unfold dfs_step. case_bool_decide; [done|].
  simpl. by apply Hrec.
Qed.

(** Paths are only ever added to [allPaths]. *)
Lemma findAllPaths_fuel_mono fuel cur st p :
  p ∈ allPaths st →
  p ∈ allPaths (findAllPaths_fuel fuel adj cur targetNode maxLength st).
Proof.
  revert cur st. induction fuel as [|n IH]; intros cur st Hp.
  - simpl. case_bool_decide; [simpl; apply elem_of_app; by left|].
    by destruct (js_ge _ _).
  - rewrite findAllPaths_fuel_S.
    case_bool_decide; [simpl; apply elem_of_app; by left|].
    destruct (js_ge _ _); [done|].
    apply (foldl_inv (fun st' => p ∈ allPaths st')); [done|].
    intros st' e _ Hp'. apply dfs_step_allPaths_mono; [|done].
    intros n' s. apply IH.
Qed.

(** Every path added by a call extends the current path and ends at the
    target. *)
Lemma findAllPaths_fuel_new fuel cur st p :
  last (currentPath st) = Some cur →
  p ∈ allPaths (findAllPaths_fuel fuel adj cur targetNode maxLength st) →
  p ∈ allPaths st
  ∨ ∃ ns es, p = path_record (currentPath st ++ ns) (currentEdges st ++ es)
             ∧ last (currentPath st ++ ns) = Some targetNode.
Proof.
  revert cur st p. induction fuel as [|n IH]; intros cur st p Hlast.
  - simpl. case_bool_decide as Hcur.
    + simpl. intros [?| ->%list_elem_of_singleton]%elem_of_app; [by left|].
      right. exists [], []. rewrite !app_nil_r. by subst cur.
    + destruct (js_ge _ _); by left.
  - rewrite findAllPaths_fuel_S. case_bool_decide as Hcur.
    + simpl. intros [?| ->%list_elem_of_singleton]%elem_of_app; [by left|].
      right. exists [], []. rewrite !app_nil_r. by subst cur.
    + destruct (js_ge _ _); [by left|].
      revert p.
      refine (proj2 (foldl_inv (fun st' => same_frame st st'
                ∧ ∀ p, p ∈ allPaths st' → p ∈ allPaths st
                  ∨ ∃ ns es,
                      p = path_record (currentPath st ++ ns) (currentEdges st ++ es)
                      ∧ last (currentPath st ++ ns) = Some targetNode) _ _ _ _ _));
        [split; [apply same_frame_refl | by left] |].
      intros st' e _ [Hfr Hold]. unfold dfs_step.
      case_bool_decide as Hin; [done|].
      split.
      { eapply same_frame_pop_push; [done..|]. apply findAllPaths_fuel_frame. }
      simpl. intros p Hp. apply IH in Hp; [|simpl; by rewrite last_snoc].
      destruct Hfr as (Hpath & Hedges & _).
      destruct Hp as [Hp|(ns & es & -> & Hl)]; [by apply Hold|].
      right. exists (out_target e :: ns), (out_edgeId e :: es).
      simpl in *. rewrite Hpath, Hedges in *.
      by rewrite <- !app_assoc in *.
Qed.

Lemma last_cons_elem {A} (x : A) l y : last (x :: l) = Some y → y = x ∨ y ∈ l.
Proof.
  revert x. induction l as [|z l IH]; intros x; simpl.
  - intros [= ->]. by left.
  - intros H. right. destruct (IH z H) as [-> |?]; [left|by right].
Qed.

(** A simple route from the current node to the target that the length
    test does not cut off is recorded, provided there is fuel for the
    unvisited keys. *)
Lemma findAllPaths_fuel_complete hs fuel cur st :
  (hs ≠ [] → size (adj_keys adj ∖ dfs_visited st) < fuel)%nat →
  route adj cur hs →
  last (cur :: (out_target <$> hs)) = Some targetNode →
  cur ∈ currentPath st →
  (∀ x, x ∈ dfs_visited st ↔ x ∈ currentPath st) →
  NoDup (currentPath st ++ (out_target <$> hs)) →
  js_ge (js_length (currentPath st) + js_length hs - 1) maxLength = false →
  path_record (currentPath st ++ (out_target <$> hs))
              (currentEdges st ++ (out_edgeId <$> hs))
  ∈ allPaths (findAllPaths_fuel fuel adj cur targetNode maxLength st).
Proof.
  revert fuel cur st.
  induction hs as [|e hs IH]; intros fuel cur st Hfuel Hroute Hlast Hcur Hvis Hnd Hlen.
  - simpl in Hlast. injection Hlast as ->. rewrite !fmap_nil, !app_nil_r.
    assert (allPaths (findAllPaths_fuel fuel adj targetNode targetNode maxLength st)
            = allPaths (dfs_record st)) as ->.
    { destruct fuel; simpl; by rewrite bool_decide_eq_true_2. }
    simpl. apply elem_of_app. right. by apply list_elem_of_singleton.
  - destruct Hroute as [He Hroute]. rewrite !fmap_cons in *.
    assert (targetNode ∈ out_target e :: (out_target <$> hs)) as Htin.
    { change (last (out_target e :: (out_target <$> hs)) = Some targetNode) in Hlast.
      apply last_cons_elem in Hlast as [Heq|?]; [rewrite Heq; left|by right]. }
    assert (cur ≠ targetNode) as Hne.
    { intros Heq. apply NoDup_app in Hnd as (_ & Hdisj & _).
      apply (Hdisj targetNode); [by rewrite <- Heq | done]. }
    assert (out_target e ∉ currentPath st) as Hfresh.
    { intros Hin. apply NoDup_app in Hnd as (_ & Hdisj & _).
      apply (Hdisj _ Hin). left. }
    specialize (Hfuel ltac:(done)).
    destruct fuel as [|n]; [lia|].
    rewrite findAllPaths_fuel_S, (bool_decide_eq_false_2 _ Hne).
    assert (js_ge (js_length (currentPath st)) maxLength = false) as ->
      by (eapply js_ge_false_mono; [|exact Hlen]; unfold js_length; simpl; lia).
    apply list_elem_of_split in He as (l1 & l2 & Hout).
    rewrite Hout, foldl_app. simpl.
    set (st1 := foldl _ st l1).
    assert (same_frame st st1) as (Hp1 & He1 & Hv1).
    { subst st1. apply (foldl_inv (same_frame st)); [apply same_frame_refl|].
      intros st' e' _ Hfr. unfold dfs_step. case_bool_decide; [done|].
      eapply same_frame_pop_push; [done..|]. apply findAllPaths_fuel_frame. }
    apply (foldl_inv (fun st' => _ ∈ allPaths st')).
    + unfold dfs_step. rewrite bool_decide_eq_false_2
        by (rewrite Hv1, Hvis; exact Hfresh).
      simpl.
      specialize (IH n (out_target e) (dfs_push st1 e)).
      simpl in IH. rewrite Hp1, He1 in IH.
      rewrite (cons_middle (out_target e)), (cons_middle (out_edgeId e)), !app_assoc.
      rewrite (cons_middle (out_target e)), app_assoc in Hnd.
      apply IH.
      * intros Hhs. rewrite Hv1.
        assert (out_target e ∈ adj_keys adj) as HK.
        { destruct hs as [|e' hs']; [done|]. destruct Hroute as [He' _].
          by apply adj_keys_stored, (outgoing_of_elem _ _ e'). }
        assert (out_target e ∉ dfs_visited st) as HV by by rewrite Hvis.
        pose proof (unvisited_key_size _ _ _ HK HV). lia.
      * done.
      * done.
      * apply elem_of_app. right. left.
      * intros x. rewrite elem_of_union, elem_of_singleton, elem_of_app,
          list_elem_of_singleton, Hv1, Hvis. tauto.
      * done.
      * rewrite <- Hlen. f_equal. unfold js_length. rewrite length_app. simpl. lia.
    + intros st' e' _ Hin. apply dfs_step_allPaths_mono; [|done].
      intros n' s. apply findAllPaths_fuel_mono.
Qed.
End Dfs.

(** ** findPaths *)

Lemma findPaths_pair_ok adj maxLength sourceId ps targetId :
  Forall (path_ok adj maxLength) ps →
  Forall (path_ok adj maxLength) (findPaths_pair adj maxLength sourceId ps targetId).
Proof.
  intros Hps. unfold findPaths_pair, findAllPaths.
  case_bool_decide as Hne; [done|].
  destruct (adj_truthy adj sourceId); [|done].
  destruct (adj_truthy adj targetId); [|done]. cbn [negb].
  apply findAllPaths_fuel_ok; [|by left|done].
  unfold dfs_ok; simpl. split_and!.
  - apply NoDup_singleton.
  - intros x. by rewrite elem_of_singleton, list_elem_of_singleton.
  - constructor.
  - done.
Qed.

Lemma findPaths_pair_mono adj maxLength s ps t p :
  p ∈ ps → p ∈ findPaths_pair adj maxLength s ps t.
Proof.
  intros Hp. unfold findPaths_pair. case_bool_decide; [done|].
  destruct (adj_truthy adj s); [|done]. destruct (adj_truthy adj t); [|done].
  by apply findAllPaths_fuel_mono.
Qed.

Lemma findPaths_pair_new adj maxLength s ps t p :
  p ∈ findPaths_pair adj maxLength s ps t →
  p ∈ ps
  ∨ (s ≠ t ∧ adj_truthy adj s = true ∧ adj_truthy adj t = true
     ∧ ∃ ns es, p = path_record (s :: ns) es ∧ last (s :: ns) = Some t).
Proof.
  unfold findPaths_pair. case_bool_decide as Hne; [by left|].
  destruct (adj_truthy adj s) eqn:Hs; [|by left].
  destruct (adj_truthy adj t) eqn:Ht; [|by left]. cbn [negb].
  intros [Hp|(ns & es & -> & Hl)]%findAllPaths_fuel_new; [by left| |done].
  right. split_and!; [done..|]. by exists ns, es.
Qed.

(** The paths collected by the two loops of [findPaths]. *)
Section Collect.
Variable adj : AdjacencyMap.
Variable maxLength : JsNumber.
Variables sourceIds targetIds : list string.

Lemma collected_ok : Forall (path_ok adj maxLength) (findPaths_loops adj maxLength sourceIds targetIds).
Proof.
  apply (foldl_inv (Forall _)); [constructor|].
  intros ps s _ Hps. apply (foldl_inv (Forall _)); [done|].
  intros ps' t _ Hps'. by apply findPaths_pair_ok.
Qed.

(** Where a collected path comes from ... *)
Lemma collected_sound p :
  p ∈ findPaths_loops adj maxLength sourceIds targetIds →
  ∃ s t hs, s ∈ sourceIds ∧ t ∈ targetIds ∧ s ≠ t
    ∧ adj_truthy adj s = true ∧ adj_truthy adj t = true
    ∧ p = path_record (s :: (out_target <$> hs)) (out_edgeId <$> hs)
    ∧ route adj s hs
    ∧ last (s :: (out_target <$> hs)) = Some t
    ∧ NoDup (s :: (out_target <$> hs))
    ∧ js_ge (js_length hs) maxLength = false.
Proof.
  intros Hp.
  pose proof collected_ok as Hall.
  rewrite Forall_forall in Hall. destruct (Hall p Hp) as (Hnd & Hwalk & Hlen).
  assert (∃ s t, s ∈ sourceIds ∧ t ∈ targetIds ∧ s ≠ t
            ∧ adj_truthy adj s = true ∧ adj_truthy adj t = true
            ∧ ∃ ns es, p = path_record (s :: ns) es ∧ last (s :: ns) = Some t)
    as (s & t & Hs & Ht & Hne & Hse & Hte & ns & es & -> & Hlast).
  { clear Hall Hnd Hwalk Hlen. revert p Hp. unfold findPaths_loops.
    apply (foldl_inv (fun ps => ∀ p, p ∈ ps → _)); [by intros p ?%elem_of_nil|].
    intros ps s Hs Hps.
    apply (foldl_inv (fun ps => ∀ p, p ∈ ps → _)); [done|].
    intros ps' t Ht Hps' p
      [Hp|(Hne & Hse & Hte & ns & es & -> & Hl)]%findPaths_pair_new;
      [by apply Hps'|].
    exists s, t. split_and!; [done..|]. by exists ns, es. }
  simpl in *. destruct (walk_route _ _ _ Hwalk) as (s' & hs & [= <- ->] & -> & Hroute).
  exists s, t, hs. split_and!; try done.
  rewrite <- Hlen. f_equal. unfold js_length. simpl. rewrite length_fmap. lia.
Qed.

(** ... and which paths are collected. *)
Lemma collected_complete s t hs :
  s ∈ sourceIds → t ∈ targetIds → s ≠ t →
  adj_truthy adj s = true → adj_truthy adj t = true →
  route adj s hs →
  last (s :: (out_target <$> hs)) = Some t →
  NoDup (s :: (out_target <$> hs)) →
  js_ge (js_length hs) maxLength = false →
  path_record (s :: (out_target <$> hs)) (out_edgeId <$> hs)
  ∈ findPaths_loops adj maxLength sourceIds targetIds.
Proof.
  intros Hs Ht Hne Hse Hte Hroute Hlast Hnd Hlen. unfold findPaths_loops.
  apply (foldl_reaches (fun ps => _ ∈ ps) _ _ s); [done| |].
  - intros ps. apply (foldl_reaches (fun ps => _ ∈ ps) _ _ t); [done| |].
    + intros ps'. unfold findPaths_pair.
      rewrite (bool_decide_eq_false_2 _ Hne), Hse, Hte. cbn [negb].
      unfold findAllPaths.
      apply (findAllPaths_fuel_complete _ _ _ hs _ s
               (mkDfs [s] [] {[s]} ps')); simpl; try done.
      * intros _. lia.
      * left.
      * intros x. by rewrite elem_of_singleton, list_elem_of_singleton.
      * rewrite <- Hlen. f_equal. unfold js_length. simpl. lia.
    + intros ps' t' Hin. by apply findPaths_pair_mono.
  - intros ps s' Hin. apply (foldl_inv (fun ps => _ ∈ ps)); [done|].
    intros ps' t' _ Hin'. by apply findPaths_pair_mono.
Qed.
End Collect.

Lemma findPaths_paths dataset adj sourceIds targetIds maxLength r :
  buildAdjacencyMap dataset = Some adj →
  findPaths dataset sourceIds targetIds maxLength = Some r →
  paths r = findPaths_loops adj maxLength sourceIds targetIds.
Proof. unfold findPaths. intros ->. by intros [= <-]. Qed.

Lemma findPaths_built dataset sourceIds targetIds maxLength r :
  findPaths dataset sourceIds targetIds maxLength = Some r →
  ∃ adj, buildAdjacencyMap dataset = Some adj.
Proof.
  unfold findPaths. destruct (buildAdjacencyMap dataset) as [adj|]; [|done]. by eauto.
Qed.

Lemma findPaths_is_Some dataset sourceIds targetIds maxLength :
  is_Some (findPaths dataset sourceIds targetIds maxLength)
  ↔ is_Some (buildAdjacencyMap dataset).
Proof.
  unfold findPaths. destruct (buildAdjacencyMap dataset); [|done].
  split; by eauto.
Qed.

(** A node that a returned path starts from or ends in is an entity. *)
Lemma route_ends_entities dataset adj s t hs :
  buildAdjacencyMap dataset = Some adj →
  s ≠ t → adj_truthy adj t = true →
  route adj s hs → last (s :: (out_target <$> hs)) = Some t →
  s ∈ ent_id <$> entities dataset ∧ t ∈ ent_id <$> entities dataset.
Proof.
  intros Hadj Hne Ht Hroute Hlast.
  destruct hs as [|e hs]; [simpl in Hlast; by injection Hlast|].
  split.
  - destruct Hroute as [He _].
    by apply (index_stored _ _ Hadj), (outgoing_of_elem _ _ e).
  - assert (∃ a e', edge_between adj a t e') as (a & e' & Hedge).
    { clear Hne Ht. revert s e Hroute Hlast.
      induction hs as [|e2 hs IH]; intros s e [He Hroute] Hlast.
      - simpl in Hlast. injection Hlast as <-. exists s, (out_edgeId e).
        unfold edge_between. by destruct e.
      - apply (IH (out_target e) e2 Hroute).
        by rewrite fmap_cons, last_cons_cons in Hlast. }
    by apply (edge_target_entity dataset adj Hadj a t e').
Qed.

(** C4, as the code has it: every path returned by [findPaths] has pairwise
    distinct nodes and one edge fewer than nodes, and the test
    [nodes.length - 1 >= maxLength] is false of it; for an integer
    [maxLength] this bounds the node count by [maxLength]. *)
Theorem findPaths_well_formed dataset sourceIds targetIds maxLength r p :
  findPaths dataset sourceIds targetIds maxLength = Some r →
  p ∈ paths r →
  NoDup (nodes p)
  ∧ length (edges p) + 1 = length (nodes p)
  ∧ js_ge (js_length (edges p)) maxLength = false
  ∧ (∀ z, maxLength = js_int z → (js_length (nodes p) ≤ z)%Z).
Proof.
  intros Hr Hp. destruct (findPaths_built _ _ _ _ _ Hr) as [adj Hadj].
  rewrite (findPaths_paths _ _ _ _ _ _ Hadj Hr) in Hp.
  pose proof (collected_ok adj maxLength sourceIds targetIds) as Hall.
  rewrite Forall_forall in Hall. destruct (Hall p Hp) as (Hnd & Hwalk & Hlen).
  apply walk_length in Hwalk.
  assert (js_length (edges p) = js_length (nodes p) - 1)%Z as Hedges
    by (unfold js_length; lia).
  split_and!; [done|lia|by rewrite Hedges|].
  intros z ->. apply js_ge_int_false in Hlen. lia.
Qed.

Lemma findPaths_well_formed_witness :
  let p := mkPath ["1"; "2"; "3"] ["1->2"; "2->3"] 3 2 in
  NoDup (nodes p)
  ∧ length (edges p) + 1 = length (nodes p)
  ∧ js_ge (js_length (edges p)) (js_int 10) = false
  ∧ (∀ z, js_int 10 = js_int z → (js_length (nodes p) ≤ z)%Z).
Proof.
  refine (findPaths_well_formed chain3 ["1"] ["3"] (js_int 10) _ _ _ _).
  - vm_compute. reflexivity.
  - left.
Defined.

(** C4 does not hold as stated: with [NaN] as bound, or with 2.5, the path
    of three nodes is returned, and 3 <= NaN and 3 <= 2.5 are false. *)
Lemma findPaths_bound_exceeded :
  findPaths chain3 ["1"] ["3"] JsNaN
  = Some (mkPathResult [mkPath ["1"; "2"; "3"] ["1->2"; "2->3"] 3 2]
                       (mkPathMetrics 1 3 3))
  ∧ js_le 3 JsNaN = false
  ∧ findPaths chain3 ["1"] ["3"] (JsFinite (5 # 2))
    = Some (mkPathResult [mkPath ["1"; "2"; "3"] ["1->2"; "2->3"] 3 2]
                         (mkPathMetrics 1 3 3))
  ∧ js_le 3 (JsFinite (5 # 2)) = false.
Proof. split_and!; by vm_compute. Qed.

(** C5 (Scenario A): on the chain 1 -> 2 -> 3, [findPaths] from 1 to 3 with
    bound 10 returns the single path 1, 2, 3; the metrics count one path
    whose shortest and longest length are both 3 nodes. *)
Theorem scenario_A_chain :
  findPaths chain3 ["1"] ["3"] (js_int 10)
  = Some (mkPathResult [mkPath ["1"; "2"; "3"] ["1->2"; "2->3"] 3 2]
                       (mkPathMetrics 1 3 3)).
Proof. vm_compute. reflexivity. Qed.

(** ** findPaths: what is returned, and what is not missed *)

Lemma findPaths_result dataset adj sourceIds targetIds maxLength r :
  buildAdjacencyMap dataset = Some adj →
  findPaths dataset sourceIds targetIds maxLength = Some r →
  ∃ ps,
    ps = findPaths_loops adj maxLength sourceIds targetIds
    ∧ r = mkPathResult ps
            (mkPathMetrics (js_length ps)
               (if (0 <? js_length ps)%Z
                then js_min ((fun path => js_length (nodes path)) <$> ps) else 0%Z)
               (if (0 <? js_length ps)%Z
                then js_max ((fun path => js_length (nodes path)) <$> ps) else 0%Z)).
Proof. unfold findPaths. intros ->. intros [= <-]. by eexists. Qed.

(** Without a usable pair nothing is collected. *)
Lemma findPaths_no_usable_pair dataset sourceIds targetIds maxLength r :
  (∀ s t, s ∈ sourceIds → t ∈ targetIds → ¬ usable_pair dataset s t) →
  findPaths dataset sourceIds targetIds maxLength = Some r →
  r = mkPathResult [] (mkPathMetrics 0 0 0).
Proof.
  intros Hun Hr. destruct (findPaths_built _ _ _ _ _ Hr) as [adj Hadj].
  destruct (findPaths_result _ _ _ _ _ _ Hadj Hr) as (ps & Hps & ->).
  destruct ps as [|p ps]; [done|]. exfalso.
  destruct (collected_sound adj maxLength sourceIds targetIds p)
    as (s & t & hs & Hs & Ht & Hne & _ & Hte & _ & Hroute & Hlast & _);
    [rewrite <- Hps; left|].
  destruct (route_ends_entities _ _ _ _ _ Hadj Hne Hte Hroute Hlast).
  by apply (Hun s t).
Qed.

(** X3: every path returned by [findPaths] leads from one of the sources to
    a different one of the targets, both entities of the dataset; it
    follows edges of the index from node to node, and its metadata give
    its number of nodes and its number of edges. *)
Theorem findPaths_sound dataset adj sourceIds targetIds maxLength r p :
  buildAdjacencyMap dataset = Some adj →
  findPaths dataset sourceIds targetIds maxLength = Some r →
  p ∈ paths r →
  ∃ s t, s ∈ sourceIds ∧ t ∈ targetIds ∧ s ≠ t
    ∧ s ∈ ent_id <$> entities dataset ∧ t ∈ ent_id <$> entities dataset
    ∧ head (nodes p) = Some s ∧ last (nodes p) = Some t
    ∧ walk adj (nodes p) (edges p)
    ∧ meta_length p = js_length (nodes p)
    ∧ meta_hops p = js_length (edges p).
Proof.
  intros Hadj Hr Hp. rewrite (findPaths_paths _ _ _ _ _ _ Hadj Hr) in Hp.
  pose proof (collected_ok adj maxLength sourceIds targetIds) as Hall.
  rewrite Forall_forall in Hall. destruct (Hall p Hp) as (_ & Hwalk & _).
  destruct (collected_sound adj maxLength sourceIds targetIds p Hp)
    as (s & t & hs & Hs & Ht & Hne & _ & Hte & -> & Hroute & Hlast & _).
  destruct (route_ends_entities _ _ _ _ _ Hadj Hne Hte Hroute Hlast).
  exists s, t. split_and!; try done.
  simpl. unfold js_length. simpl. rewrite !length_fmap. lia.
Qed.

Lemma findPaths_sound_witness :
  ∃ s t, s ∈ ["1"] ∧ t ∈ ["3"] ∧ s ≠ t
    ∧ s ∈ ent_id <$> entities chain3 ∧ t ∈ ent_id <$> entities chain3
    ∧ head ["1"; "2"; "3"] = Some s ∧ last ["1"; "2"; "3"] = Some t
    ∧ walk (index_of chain3) ["1"; "2"; "3"] ["1->2"; "2->3"]
    ∧ 3%Z = js_length ["1"; "2"; "3"]
    ∧ 2%Z = js_length ["1->2"; "2->3"].
Proof.
  refine (findPaths_sound chain3 (index_of chain3) ["1"] ["3"] (js_int 10) _
            (mkPath ["1"; "2"; "3"] ["1->2"; "2->3"] 3 2) _ _ _).
  - by vm_compute.
  - vm_compute. reflexivity.
  - left.
Defined.

(** X4: [findPaths] misses nothing.  Whenever edges of the index lead from
    a source to a different target, both entities, without visiting a node
    twice, and the length test lets the last edge be taken, that path is
    returned. *)
Theorem findPaths_complete dataset adj sourceIds targetIds maxLength r s t hs :
  buildAdjacencyMap dataset = Some adj →
  findPaths dataset sourceIds targetIds maxLength = Some r →
  s ∈ sourceIds → t ∈ targetIds → s ≠ t →
  s ∈ ent_id <$> entities dataset → t ∈ ent_id <$> entities dataset →
  route adj s hs →
  last (s :: (out_target <$> hs)) = Some t →
  NoDup (s :: (out_target <$> hs)) →
  js_ge (js_length hs) maxLength = false →
  path_record (s :: (out_target <$> hs)) (out_edgeId <$> hs) ∈ paths r.
Proof.
  intros Hadj Hr Hs Ht Hne Hse Hte Hroute Hlast Hnd Hlen.
  rewrite (findPaths_paths _ _ _ _ _ _ Hadj Hr).
  apply (collected_complete adj maxLength sourceIds targetIds s t hs); try done;
    apply (index_truthy _ _ Hadj); by left.
Qed.

Lemma findPaths_complete_witness :
  path_record ["1"; "3"; "4"] ["1->3"; "3->4"]
  ∈ [path_record ["1"; "2"; "4"] ["1->2"; "2->4"];
     path_record ["1"; "3"; "4"] ["1->3"; "3->4"]].
Proof.
  refine (findPaths_complete diamond (index_of diamond) ["1"] ["4"] (js_int 3)
            (mkPathResult [path_record ["1"; "2"; "4"] ["1->2"; "2->4"];
                           path_record ["1"; "3"; "4"] ["1->3"; "3->4"]]
                          (mkPathMetrics 2 3 3))
            "1" "4" [mkOut "3" "1->3"; mkOut "4" "3->4"] _ _ _ _ _ _ _ _ _ _ _).
  - by vm_compute.
  - by vm_compute.
  - left.
  - left.
  - discriminate.
  - elem_of_concrete.
  - elem_of_concrete.
  - simpl. split; [elem_of_concrete|]. split; [elem_of_concrete|done].
  - reflexivity.
  - refine (bool_decide_unpack _ _). vm_compute. exact I.
  - by vm_compute.
Defined.

Lemma foldl_min_spec r x :
  (foldl Z.min x r = x ∨ foldl Z.min x r ∈ r)
  ∧ (foldl Z.min x r ≤ x)%Z
  ∧ ∀ y, y ∈ r → (foldl Z.min x r ≤ y)%Z.
Proof.
  revert x. induction r as [|z r IH]; intros x; simpl.
  - split_and!; [by left|lia|by intros y ?%elem_of_nil].
  - destruct (IH (Z.min x z)) as (Hin & Hle & Hall). split_and!.
    + destruct Hin as [Heq|Hin]; [|right; by right].
      rewrite Heq. destruct (Z.min_spec x z) as [[_ ->]|[_ ->]]; [by left|right; left].
    + lia.
    + intros y [->|Hy]%elem_of_cons; [lia|by apply Hall].
Qed.

Lemma foldl_max_spec r x :
  (foldl Z.max x r = x ∨ foldl Z.max x r ∈ r)
  ∧ (x ≤ foldl Z.max x r)%Z
  ∧ ∀ y, y ∈ r → (y ≤ foldl Z.max x r)%Z.
Proof.
  revert x. induction r as [|z r IH]; intros x; simpl.
  - split_and!; [by left|lia|by intros y ?%elem_of_nil].
  - destruct (IH (Z.max x z)) as (Hin & Hle & Hall). split_and!.
    + destruct Hin as [Heq|Hin]; [|right; by right].
      rewrite Heq. destruct (Z.max_spec x z) as [[_ ->]|[_ ->]]; [right; left|by left].
    + lia.
    + intros y [->|Hy]%elem_of_cons; [lia|by apply Hall].
Qed.

(** X5: the metrics of [findPaths] bound the node count of every returned
    path from below and from above, both bounds are the node count of a
    returned path, and the total is the number of paths. *)
Theorem findPaths_metrics dataset sourceIds targetIds maxLength r p :
  findPaths dataset sourceIds targetIds maxLength = Some r →
  p ∈ paths r →
  totalPaths (path_metrics r) = js_length (paths r)
  ∧ (shortestPathLength (path_metrics r) ≤ js_length (nodes p)
     ≤ longestPathLength (path_metrics r))%Z
  ∧ (∃ q, q ∈ paths r ∧ shortestPathLength (path_metrics r) = js_length (nodes q))
  ∧ (∃ q, q ∈ paths r ∧ longestPathLength (path_metrics r) = js_length (nodes q)).
Proof.
  intros Hr. destruct (findPaths_built _ _ _ _ _ Hr) as [adj Hadj].
  destruct (findPaths_result _ _ _ _ _ _ Hadj Hr) as (ps & _ & ->).
  simpl. intros Hp.
  destruct ps as [|q ps]; [by apply elem_of_nil in Hp|].
  replace (0 <? js_length (q :: ps))%Z with true by done.
  rewrite fmap_cons. simpl.
  destruct (foldl_min_spec ((λ path, js_length (nodes path)) <$> ps)
              (js_length (nodes q))) as (Hmin & Hminle & Hminall).
  destruct (foldl_max_spec ((λ path, js_length (nodes path)) <$> ps)
              (js_length (nodes q))) as (Hmax & Hmaxle & Hmaxall).
  split_and!; [done| | | |].
  - apply elem_of_cons in Hp as [->|Hp]; [done|].
    apply Hminall. by apply (list_elem_of_fmap_2 (λ path, js_length (nodes path))).
  - apply elem_of_cons in Hp as [->|Hp]; [done|].
    apply Hmaxall. by apply (list_elem_of_fmap_2 (λ path, js_length (nodes path))).
  - destruct Hmin as [->|(q' & -> & Hq')%list_elem_of_fmap].
    + exists q. split; [left|done].
    + exists q'. split; [by right|done].
  - destruct Hmax as [->|(q' & -> & Hq')%list_elem_of_fmap].
    + exists q. split; [left|done].
    + exists q'. split; [by right|done].
Qed.

Lemma findPaths_metrics_witness :
  let r := mkPathResult [path_record ["1"; "2"; "4"] ["1->2"; "2->4"];
                         path_record ["1"; "3"; "4"] ["1->3"; "3->4"]]
                        (mkPathMetrics 2 3 3) in
  totalPaths (path_metrics r) = js_length (paths r)
  ∧ (shortestPathLength (path_metrics r) ≤ 3 ≤ longestPathLength (path_metrics r))%Z
  ∧ (∃ q, q ∈ paths r ∧ shortestPathLength (path_metrics r) = js_length (nodes q))
  ∧ (∃ q, q ∈ paths r ∧ longestPathLength (path_metrics r) = js_length (nodes q)).
Proof.
  refine (findPaths_metrics diamond ["1"] ["4"] (js_int 3) _
            (path_record ["1"; "3"; "4"] ["1->3"; "3->4"]) _ _).
  - by vm_compute.
  - right. left.
Defined.



(** ** Impact analysis *)

Section Impact.
Variable adj : AdjacencyMap.
Variable srcs : list string.
Implicit Types (st : ImpactState) (acc : ImpactState * list string).

Lemma imp_trans_refl st : imp_trans srcs st st.
Proof. by intros H. Qed.

Lemma imp_trans_trans st1 st2 st3 :
  imp_trans srcs st1 st2 → imp_trans srcs st2 st3 → imp_trans srcs st1 st3.
Proof.
  intros H12 H23 H1. destruct (H12 H1) as (H2 & Hv & Hd).
  destruct (H23 H2) as (H3 & Hv' & Hd').
  split_and!; [done| |by auto]. by etrans.
Qed.

Lemma foldl_imp_trans {B} (f : ImpactState → B → ImpactState) l st :
  (∀ st x, imp_trans srcs st (f st x)) → imp_trans srcs st (foldl f st l).
Proof.
  intros Hf. apply (foldl_inv (imp_trans srcs st)); [apply imp_trans_refl|].
  intros st' x _ H. eapply imp_trans_trans; [exact H | apply Hf].
Qed.

Lemma foldl_imp_trans_acc {B}
    (f : ImpactState * list string → B → ImpactState * list string) l acc :
  (∀ acc x, imp_trans srcs acc.1 (f acc x).1) →
  imp_trans srcs acc.1 (foldl f acc l).1.
Proof.
  intros Hf. apply (foldl_inv (fun a => imp_trans srcs acc.1 a.1));
    [apply imp_trans_refl|].
  intros a x _ H. eapply imp_trans_trans; [exact H | apply Hf].
Qed.

Lemma direct_edge_trans st e : imp_trans srcs st (direct_edge st e).
Proof.
  unfold direct_edge. case_bool_decide as Hin; [apply imp_trans_refl|].
  intros (Hnd & Hvis & Hsrc). unfold imp_ok; simpl.
  assert ((out_target e ∉ srcs) ∧ (out_target e ∉ st_direct st)
          ∧ (out_target e ∉ st_indirect st)) as (Hs & Hd & Hi).
  { rewrite Hvis in Hin. tauto. }
  split_and!.
  - rewrite <- app_assoc. apply NoDup_app in Hnd as (Hnd1 & Hdisj & Hnd2).
    apply NoDup_app. split_and!; [done| |].
    + intros x Hx [->%list_elem_of_singleton|Hx']%elem_of_app; [done|].
      by apply (Hdisj x).
    + apply NoDup_cons. split; [|done]. done.
  - intros x. rewrite elem_of_union, elem_of_singleton, elem_of_app,
      list_elem_of_singleton, Hvis. tauto.
  - intros x. rewrite <- app_assoc, elem_of_app. simpl. rewrite elem_of_cons.
    intros [Hx|[->|Hx]]; [|done|]; apply Hsrc; rewrite elem_of_app; auto.
  - apply union_subseteq_l.
  - intros x Hx. rewrite elem_of_app. by left.
Qed.

Lemma indirect_edge_trans acc e : imp_trans srcs acc.1 (indirect_edge acc e).1.
Proof.
  destruct acc as [st next]. unfold indirect_edge; simpl.
  case_bool_decide as Hin; [apply imp_trans_refl|].
  intros (Hnd & Hvis & Hsrc). unfold imp_ok; simpl.
  assert ((out_target e ∉ srcs) ∧ (out_target e ∉ st_direct st)
          ∧ (out_target e ∉ st_indirect st)) as (Hs & Hd & Hi).
  { rewrite Hvis in Hin. tauto. }
  split_and!.
  - rewrite app_assoc. apply NoDup_app. split_and!; [done| |apply NoDup_singleton].
    intros x Hx ->%list_elem_of_singleton.
    apply elem_of_app in Hx as [?|?]; done.
  - intros x. rewrite elem_of_union, elem_of_singleton, elem_of_app,
      list_elem_of_singleton, Hvis. tauto.
  - intros x. rewrite app_assoc, elem_of_app, list_elem_of_singleton.
    intros [Hx| ->]; [by apply Hsrc|done].
  - apply union_subseteq_l.
  - done.
Qed.

Lemma indirect_node_trans path acc nodeId :
  imp_trans srcs acc.1 (indirect_node adj path acc nodeId).1.
Proof.
  destruct acc as [st next]. unfold indirect_node.
  destruct (adj_truthy adj nodeId); [|apply imp_trans_refl]. cbn [negb].
  set (st1 := if (5 <? _)%Z then _ else st).
  apply (imp_trans_trans _ st1).
  - subst st1. destruct (5 <? _)%Z; [|apply imp_trans_refl]. by intros H.
  - apply (foldl_imp_trans_acc _ _ (st1, next)), indirect_edge_trans.
Qed.

Lemma findIndirectImpacts_fuel_trans fuel layer depth maxDepth path st :
  imp_trans srcs st
    (findIndirectImpacts_fuel fuel adj layer depth maxDepth path st).
Proof.
  revert layer depth path st.
  induction fuel as [|n IH]; intros layer depth path st; simpl;
    (destruct (js_ge _ _); [apply imp_trans_refl|]);
    pose proof (foldl_imp_trans_acc (indirect_node adj path) layer (st, [])
                  (indirect_node_trans path)) as Hlayer;
    destruct (foldl (indirect_node adj path) (st, []) layer) as [st' next];
    destruct (0 <? _)%Z; try done.
  eapply imp_trans_trans; [exact Hlayer | apply IH].
Qed.

(** *** The layers and the fuel *)

Lemma indirect_edge_visited_mono acc e :
  st_visited acc.1 ⊆ st_visited (indirect_edge acc e).1.
Proof.
  destruct acc as [st next]. unfold indirect_edge. case_bool_decide; [done|].
  simpl. apply union_subseteq_l.
Qed.

Lemma indirect_node_visited_mono path acc x :
  st_visited acc.1 ⊆ st_visited (indirect_node adj path acc x).1.
Proof.
  destruct acc as [st next]. unfold indirect_node.
  destruct (adj_truthy adj x); [|done]. cbn [negb].
  apply (foldl_inv (fun acc' => st_visited st ⊆ st_visited acc'.1)).
  - simpl. by destruct (5 <? _)%Z.
  - intros acc' e _ Hsub. etrans; [exact Hsub|]. apply indirect_edge_visited_mono.
Qed.

(** The next layer holds exactly the nodes that the current layer adds to
    the visited set, and each of them is the target of an edge. *)
Lemma layer_next path st layer :
  let acc := foldl (indirect_node adj path) (st, []) layer in
  (∀ x, x ∈ st_visited acc.1 ↔ x ∈ st_visited st ∨ x ∈ acc.2)
  ∧ (∀ x, x ∈ acc.2 → x ∈ adj_targets adj ∧ x ∉ st_visited st).
Proof.
  cbn zeta.
  apply (foldl_inv (fun acc' =>
           (∀ x, x ∈ st_visited acc'.1 ↔ x ∈ st_visited st ∨ x ∈ acc'.2)
           ∧ (∀ x, x ∈ acc'.2 → x ∈ adj_targets adj ∧ x ∉ st_visited st))).
  - split; [|by intros x ?%elem_of_nil].
    intros x. simpl. rewrite elem_of_nil. tauto.
  - intros [st' next'] x _ HK. unfold indirect_node.
    destruct (adj_truthy adj x); [|done]. cbn [negb].
    apply (foldl_inv (fun acc' =>
             (∀ x, x ∈ st_visited acc'.1 ↔ x ∈ st_visited st ∨ x ∈ acc'.2)
             ∧ (∀ x, x ∈ acc'.2 → x ∈ adj_targets adj ∧ x ∉ st_visited st))).
    + simpl in *. by destruct (5 <? _)%Z.
    + intros [st'' next''] e He [HV HT]. unfold indirect_edge.
      case_bool_decide as Hin; [done|]. simpl in *. split.
      * intros y. rewrite elem_of_union, elem_of_singleton, elem_of_app,
          list_elem_of_singleton, HV. tauto.
      * intros y [Hy| ->%list_elem_of_singleton]%elem_of_app; [by apply HT|].
        split; [by eapply adj_targets_edge|].
        intros Hv. apply Hin, HV. by left.
Qed.

Lemma layer_measure path st layer :
  let acc := foldl (indirect_node adj path) (st, []) layer in
  acc.2 ≠ [] →
  (size (adj_targets adj ∖ st_visited acc.1) < size (adj_targets adj ∖ st_visited st))%nat.
Proof.
  cbn zeta. destruct (layer_next path st layer) as [HV HT].
  destruct (foldl (indirect_node adj path) (st, []) layer) as [st' next].
  simpl in *. destruct next as [|x next]; [done|]. intros _.
  destruct (HT x) as [HxT HxV]; [left|].
  apply subset_size. split.
  - intros y [Hy Hn]%elem_of_difference. apply elem_of_difference.
    split; [done|]. intros Hv. apply Hn, HV. by left.
  - intros Hsub. assert (x ∈ adj_targets adj ∖ st_visited st') as Hx.
    { apply Hsub, elem_of_difference. done. }
    apply elem_of_difference in Hx as [_ Hx]. apply Hx, HV. right. left.
Qed.

Lemma js_length_pos_cons {A} (l : list A) : (0 <? js_length l)%Z = true → l ≠ [].
Proof. by destruct l. Qed.

(** The fuel handed out by [findIndirectImpacts] is never exhausted. *)
Lemma findIndirectImpacts_fuel_enough n m layer depth maxDepth path st :
  (size (adj_targets adj ∖ st_visited st) ≤ n)%nat →
  (size (adj_targets adj ∖ st_visited st) ≤ m)%nat →
  findIndirectImpacts_fuel n adj layer depth maxDepth path st =
  findIndirectImpacts_fuel m adj layer depth maxDepth path st.
Proof.
  revert m layer depth path st.
  induction n as [|n IH]; intros m layer depth path st Hn Hm;
    destruct m as [|m]; simpl; try done;
    (destruct (js_ge _ _); [done|]);
    pose proof (layer_measure path st layer) as Hlt; cbn zeta in Hlt;
    destruct (foldl (indirect_node adj path) (st, []) layer) as [st' next];
    simpl in Hlt;
    (destruct (0 <? js_length next)%Z eqn:Hpos; [|done]);
    specialize (Hlt (js_length_pos_cons _ Hpos)); try lia.
  apply IH; lia.
Qed.

(** [findIndirectImpacts] satisfies the defining equation of the source
    method. *)
Lemma findIndirectImpacts_unfold layer depth maxDepth path st :
  findIndirectImpacts adj layer depth maxDepth path st =
  if js_ge depth maxDepth then st
  else
    let '(st', nextLayer) := foldl (indirect_node adj path) (st, []) layer in
    if (0 <? js_length nextLayer)%Z
    then findIndirectImpacts adj nextLayer (depth + 1) maxDepth (path ++ layer) st'
    else st'.
Proof.
  unfold findIndirectImpacts.
  pose proof (layer_measure path st layer) as Hlt. cbn zeta in Hlt.
  destruct (size (adj_targets adj ∖ st_visited st)) as [|n] eqn:Hfuel; simpl;
    (destruct (js_ge _ _); [done|]);
    destruct (foldl (indirect_node adj path) (st, []) layer) as [st' next];
    simpl in Hlt;
    (destruct (0 <? js_length next)%Z eqn:Hpos; [|done]);
    specialize (Hlt (js_length_pos_cons _ Hpos)); [lia|].
  apply findIndirectImpacts_fuel_enough; lia.
Qed.

Lemma findIndirectImpacts_trans layer depth maxDepth path st :
  imp_trans srcs st (findIndirectImpacts adj layer depth maxDepth path st).
Proof. apply findIndirectImpacts_fuel_trans. Qed.

Lemma impact_source_trans maxDepth st s :
  imp_trans srcs st (impact_source adj maxDepth st s).
Proof.
  unfold impact_source. destruct (adj_truthy adj s); [|apply imp_trans_refl].
  cbn [negb]. eapply imp_trans_trans; [|apply findIndirectImpacts_trans].
  apply foldl_imp_trans, direct_edge_trans.
Qed.



Lemma direct_edges_indirect l st :
  st_indirect (foldl direct_edge st l) = st_indirect st.
Proof.
  apply (foldl_inv (fun st' => st_indirect st' = st_indirect st)); [done|].
  intros st' e _ <-. unfold direct_edge. by case_bool_decide.
Qed.

Lemma direct_edges_critical l st :
  st_critical (foldl direct_edge st l) = st_critical st.
Proof.
  apply (foldl_inv (fun st' => st_critical st' = st_critical st)); [done|].
  intros st' e _ <-. unfold direct_edge. by case_bool_decide.
Qed.

Lemma direct_edges_visited_iff l st x :
  x ∈ st_visited (foldl direct_edge st l) ↔ x ∈ st_visited st ∨ x ∈ out_target <$> l.
Proof.
  revert st. induction l as [|e l IH]; intros st; simpl.
  - rewrite elem_of_nil. tauto.
  - rewrite IH, elem_of_cons. unfold direct_edge.
    case_bool_decide as Hin; simpl.
    + split; [tauto|]. intros [?|[->|?]]; auto.
    + rewrite elem_of_union, elem_of_singleton. tauto.
Qed.

(** A source without a record changes nothing: it has no edge to follow,
    whether it passes the existence test or not. *)
Lemma impact_source_no_edges maxDepth st s :
  outgoing_of adj s = [] → impact_source adj maxDepth st s = st.
Proof.
  intros Hnone. unfold impact_source. destruct (adj_truthy adj s); [|done].
  cbn [negb]. rewrite Hnone. simpl. rewrite findIndirectImpacts_unfold.
  by destruct (js_ge 1 maxDepth).
Qed.



(** When the depth test holds at depth 1 no indirect expansion takes
    place. *)
Lemma impact_sources_shallow maxDepth l st :
  js_ge 1 maxDepth = true →
  st_indirect (foldl (impact_source adj maxDepth) st l) = st_indirect st
  ∧ st_critical (foldl (impact_source adj maxDepth) st l) = st_critical st.
Proof.
  intros Hd.
  apply (foldl_inv (fun st' => st_indirect st' = st_indirect st
                               ∧ st_critical st' = st_critical st)); [done|].
  intros st' s _ [<- <-]. unfold impact_source.
  destruct (adj_truthy adj s); [|done]. cbn [negb].
  rewrite findIndirectImpacts_unfold, Hd.
  by rewrite direct_edges_indirect, direct_edges_critical.
Qed.

End Impact.

Lemma visited_sources l (v : gset string) x :
  x ∈ foldl (fun v sourceId => v ∪ {[sourceId]}) v l ↔ x ∈ v ∨ x ∈ l.
Proof.
  revert v. induction l as [|s l IH]; intros v; simpl.
  - rewrite elem_of_nil. tauto.
  - rewrite IH, elem_of_union, elem_of_singleton, elem_of_cons. tauto.
Qed.

Lemma imp_ok_init srcs :
  imp_ok srcs (mkImpact [] [] (foldl (fun v sourceId => v ∪ {[sourceId]}) ∅ srcs) []).
Proof.
  unfold imp_ok; simpl. split_and!.
  - constructor.
  - intros x. rewrite visited_sources, elem_of_empty, elem_of_nil. tauto.
  - by intros x ?%elem_of_nil.
Qed.

Lemma impact_state_ok adj sourceIds maxDepth :
  imp_ok sourceIds
    (foldl (impact_source adj maxDepth)
       (mkImpact [] [] (foldl (fun v sourceId => v ∪ {[sourceId]}) ∅ sourceIds) [])
       sourceIds).
Proof.
  apply (foldl_imp_trans sourceIds _ _ _ (impact_source_trans _ sourceIds maxDepth)),
    imp_ok_init.
Qed.

(** The result of [analyzeImpact] in terms of the state its loop ends in. *)
Lemma analyzeImpact_result dataset adj sourceIds maxDepth r :
  buildAdjacencyMap dataset = Some adj →
  analyzeImpact dataset sourceIds maxDepth = Some r →
  ∃ st,
    st = foldl (impact_source adj maxDepth)
           (mkImpact [] [] (foldl (fun v sourceId => v ∪ {[sourceId]}) ∅ sourceIds) [])
           sourceIds
    ∧ r = mkImpactResult (st_direct st) (st_indirect st)
            (mkImpactMetrics
               (js_length (st_direct st) + js_length (st_indirect st))
               (if (0 <? js_length (st_critical st))%Z
                then js_max ((fun path => js_length path - 1)%Z <$> st_critical st)
                else 0%Z)
               (js_length (st_critical st))).
Proof. unfold analyzeImpact. intros ->. intros [= <-]. by eexists. Qed.

Lemma analyzeImpact_built dataset sourceIds maxDepth r :
  analyzeImpact dataset sourceIds maxDepth = Some r →
  ∃ adj, buildAdjacencyMap dataset = Some adj.
Proof.
  unfold analyzeImpact. destruct (buildAdjacencyMap dataset) as [adj|]; [|done].
  by eauto.
Qed.

Lemma analyzeImpact_is_Some dataset sourceIds maxDepth :
  is_Some (analyzeImpact dataset sourceIds maxDepth)
  ↔ is_Some (buildAdjacencyMap dataset).
Proof.
  unfold analyzeImpact. destruct (buildAdjacencyMap dataset); [|done].
  split; by eauto.
Qed.

(** C3: the two result lists of [analyzeImpact] have no repeated id, share
    no id, and contain no source. *)
Theorem analyzeImpact_disjoint dataset sourceIds maxDepth r :
  analyzeImpact dataset sourceIds maxDepth = Some r →
  NoDup (directImpact r)
  ∧ NoDup (indirectImpact r)
  ∧ (∀ x, x ∈ directImpact r → x ∉ indirectImpact r)
  ∧ (∀ x, x ∈ sourceIds → (x ∉ directImpact r) ∧ (x ∉ indirectImpact r)).
Proof.
  intros Hr. destruct (analyzeImpact_built _ _ _ _ Hr) as [adj Hadj].
  destruct (analyzeImpact_result _ _ _ _ _ Hadj Hr) as (st & Hst & ->).
  destruct (impact_state_ok adj sourceIds maxDepth) as (Hnd & _ & Hsrc).
  rewrite <- Hst in Hnd, Hsrc.
  apply NoDup_app in Hnd as (Hd & Hdisj & Hi).
  simpl. split_and!; [done..|].
  intros x Hx. split; intros Hin; apply (Hsrc x); rewrite ?elem_of_app; auto.
Qed.

Lemma analyzeImpact_disjoint_witness :
  let r := mkImpactResult ["X"] ["Y"] (mkImpactMetrics 2 0 0) in
  NoDup (directImpact r)
  ∧ NoDup (indirectImpact r)
  ∧ (∀ x, x ∈ directImpact r → x ∉ indirectImpact r)
  ∧ (∀ x, x ∈ ["A"; "B"] → (x ∉ directImpact r) ∧ (x ∉ indirectImpact r)).
Proof.
  refine (analyzeImpact_disjoint two_sources ["A"; "B"] (js_int 5) _ _).
  by vm_compute.
Defined.







(** C2 (Scenario C), as the code has it: all six neighbours of node 1 are
    direct, nothing is indirect, and no critical path is recorded: node 1
    is not flagged. *)
Theorem scenario_C_star :
  analyzeImpact star7 ["1"] (js_int 5)
  = Some (mkImpactResult ["2"; "3"; "4"; "5"; "6"; "7"] [] (mkImpactMetrics 6 0 0)).
Proof. vm_compute. reflexivity. Qed.

(** C2 does not hold as stated: the critical-path count is not positive. *)
Lemma scenario_C_not_flagged :
  ∃ r, analyzeImpact star7 ["1"] (js_int 5) = Some r
       ∧ ¬ (1 ≤ metric_criticalPaths (impact_metrics r))%Z.
Proof.
  eexists. split; [vm_compute; reflexivity|]. simpl. lia.
Qed.

(** C9: the no-op calls do throw on a dataset with a relationship whose
    target is no entity but the name of an inherited property: the index is
    built before the arguments are looked at, and [buildAdjacencyMap] finds
    a function under that key and calls [push] on its missing [incoming]
    list. *)
Theorem no_op_throws :
  buildAdjacencyMap inherited_target = None
  ∧ analyzeImpact inherited_target [] (js_int 5) = None
  ∧ findPaths inherited_target ["a"] ["a"] (js_int 10) = None
  ∧ findPaths inherited_target [] [] (js_int 10) = None.
Proof. split_and!; by vm_compute. Qed.

(** ** Impact analysis: what is reported, and what is not missed *)

Section ImpactMore.
Variable adj : AdjacencyMap.
Variable srcs : list string.
Variable maxDepth : JsNumber.

Lemma direct_edge_sound s st e :
  s ∈ srcs → e ∈ outgoing_of adj s →
  impact_sound adj srcs maxDepth st →
  impact_sound adj srcs maxDepth (direct_edge st e).
Proof.
  intros Hs He [Hd Hi]. unfold direct_edge. case_bool_decide; [done|].
  split; simpl; [|done].
  intros x [Hx| ->%list_elem_of_singleton]%elem_of_app; [by apply Hd|].
  exists s. split; [done|]. unfold out_neighbor. by apply list_elem_of_fmap_2.
Qed.

Lemma indirect_edge_sound s d x acc e :
  s ∈ srcs → (1 ≤ d)%Z → js_ge d maxDepth = false →
  hops adj (Z.to_nat d) s x → e ∈ outgoing_of adj x →
  (impact_sound adj srcs maxDepth acc.1 ∧ critical_ok adj srcs maxDepth acc.1)
  ∧ (∀ y, y ∈ acc.2 → hops adj (Z.to_nat (d + 1)) s y) →
  (impact_sound adj srcs maxDepth (indirect_edge acc e).1
   ∧ critical_ok adj srcs maxDepth (indirect_edge acc e).1)
  ∧ (∀ y, y ∈ (indirect_edge acc e).2 → hops adj (Z.to_nat (d + 1)) s y).
Proof.
  intros Hs Hd Hlt Hx He [[[Hdir Hind] Hcrit] Hnext]. destruct acc as [st next].
  unfold indirect_edge. case_bool_decide; [done|]. simpl in *.
  assert (hops adj (Z.to_nat (d + 1)) s (out_target e)) as Hnew.
  { replace (Z.to_nat (d + 1)) with (S (Z.to_nat d)) by lia.
    exists x. split; [done|]. unfold out_neighbor. by apply list_elem_of_fmap_2. }
  split; [split; [split; [done|] |done] |]; simpl.
  - intros y [Hy| ->%list_elem_of_singleton]%elem_of_app; [by apply Hind|].
    exists s, (Z.to_nat (d + 1)). split_and!; [done|lia| |done].
    rewrite <- Hlt. f_equal. lia.
  - intros y [Hy| ->%list_elem_of_singleton]%elem_of_app; [by apply Hnext|done].
Qed.

Lemma indirect_node_sound s d path acc x :
  s ∈ srcs → (1 ≤ d)%Z → js_ge d maxDepth = false →
  head path = Some s →
  hops adj (Z.to_nat d) s x →
  (impact_sound adj srcs maxDepth acc.1 ∧ critical_ok adj srcs maxDepth acc.1)
  ∧ (∀ y, y ∈ acc.2 → hops adj (Z.to_nat (d + 1)) s y) →
  (impact_sound adj srcs maxDepth (indirect_node adj path acc x).1
   ∧ critical_ok adj srcs maxDepth (indirect_node adj path acc x).1)
  ∧ (∀ y, y ∈ (indirect_node adj path acc x).2 → hops adj (Z.to_nat (d + 1)) s y).
Proof.
  intros Hs Hd Hlt Hhead Hx Hacc. destruct acc as [st next]. unfold indirect_node.
  destruct (adj_truthy adj x); [|done]. cbn [negb].
  apply (foldl_inv (fun acc' =>
           (impact_sound adj srcs maxDepth acc'.1 ∧ critical_ok adj srcs maxDepth acc'.1)
           ∧ (∀ y, y ∈ acc'.2 → hops adj (Z.to_nat (d + 1)) s y))).
  - simpl in *. destruct (Z.ltb_spec 5 (js_length (outgoing_of adj x))) as [Hfan|]; [|done].
    destruct Hacc as [[Hsound Hcrit] Hnext]. split; [split; [done|] |done].
    intros p [Hp| ->%list_elem_of_singleton]%elem_of_app; [by apply Hcrit|].
    exists s, x, (Z.to_nat d). split_and!; try done.
    + by destruct path.
    + by rewrite last_snoc.
    + rewrite length_app. simpl. destruct path; [done|]. simpl. lia.
    + lia.
    + rewrite <- Hlt. f_equal. lia.
  - intros acc' e He. by apply (indirect_edge_sound s d x).
Qed.

Lemma head_app_Some {A} (l k : list A) x : head l = Some x → head (l ++ k) = Some x.
Proof. by destruct l. Qed.

Lemma findIndirectImpacts_fuel_sound fuel s layer d path st :
  s ∈ srcs → (1 ≤ d)%Z → head path = Some s →
  (∀ x, x ∈ layer → hops adj (Z.to_nat d) s x) →
  impact_sound adj srcs maxDepth st ∧ critical_ok adj srcs maxDepth st →
  impact_sound adj srcs maxDepth
    (findIndirectImpacts_fuel fuel adj layer d maxDepth path st)
  ∧ critical_ok adj srcs maxDepth
      (findIndirectImpacts_fuel fuel adj layer d maxDepth path st).
Proof.
  intros Hs. revert layer d path st.
  induction fuel as [|n IH]; intros layer d path st Hd Hhead Hlayer Hst; simpl;
    (destruct (js_ge d maxDepth) eqn:Hlt; [done|]);
    (assert ((impact_sound adj srcs maxDepth
                (foldl (indirect_node adj path) (st, []) layer).1
              ∧ critical_ok adj srcs maxDepth
                  (foldl (indirect_node adj path) (st, []) layer).1)
             ∧ (∀ y, y ∈ (foldl (indirect_node adj path) (st, []) layer).2 →
                  hops adj (Z.to_nat (d + 1)) s y)) as [Hst' Hnext];
     [apply (foldl_inv (fun acc' =>
               (impact_sound adj srcs maxDepth acc'.1
                ∧ critical_ok adj srcs maxDepth acc'.1)
               ∧ (∀ y, y ∈ acc'.2 → hops adj (Z.to_nat (d + 1)) s y)));
      [split; [done|]; by intros y ?%elem_of_nil
      |intros acc' x Hx; apply (indirect_node_sound s d); try done; by apply Hlayer]
     |]);
    destruct (foldl (indirect_node adj path) (st, []) layer) as [st' next];
    destruct (0 <? _)%Z; try done.
  apply IH; [lia|by apply head_app_Some|done..].
Qed.

Lemma impact_source_sound st s :
  s ∈ srcs →
  impact_sound adj srcs maxDepth st ∧ critical_ok adj srcs maxDepth st →
  impact_sound adj srcs maxDepth (impact_source adj maxDepth st s)
  ∧ critical_ok adj srcs maxDepth (impact_source adj maxDepth st s).
Proof.
  intros Hs Hst. unfold impact_source. destruct (adj_truthy adj s); [|done].
  cbn [negb]. apply (findIndirectImpacts_fuel_sound _ s); [done|lia|done| |].
  - intros x (e & -> & He)%list_elem_of_fmap. exists s. split; [done|].
    unfold out_neighbor. by apply list_elem_of_fmap_2.
  - split.
    + apply (foldl_inv (impact_sound adj srcs maxDepth)); [apply Hst|].
      intros st' e He. by apply (direct_edge_sound s).
    + destruct Hst as [_ Hcrit]. unfold critical_ok.
      by rewrite direct_edges_critical.
Qed.

Lemma impact_sources_sound l st :
  (∀ s, s ∈ l → s ∈ srcs) →
  impact_sound adj srcs maxDepth st ∧ critical_ok adj srcs maxDepth st →
  impact_sound adj srcs maxDepth (foldl (impact_source adj maxDepth) st l)
  ∧ critical_ok adj srcs maxDepth (foldl (impact_source adj maxDepth) st l).
Proof.
  intros Hl Hst.
  apply (foldl_inv (fun st' => impact_sound adj srcs maxDepth st'
                               ∧ critical_ok adj srcs maxDepth st')); [done|].
  intros st' s Hs. apply impact_source_sound. by apply Hl.
Qed.

(** *** The critical paths only grow *)

Lemma indirect_node_critical_mono path acc x :
  (js_length (st_critical acc.1) ≤ js_length (st_critical (indirect_node adj path acc x).1))%Z.
Proof.
  destruct acc as [st next]. unfold indirect_node.
  destruct (adj_truthy adj x); [|done]. cbn [negb].
  apply (foldl_inv (fun acc' =>
           (js_length (st_critical st) ≤ js_length (st_critical acc'.1))%Z)).
  - simpl. destruct (5 <? _)%Z; [|done]. unfold js_length. simpl.
    rewrite length_app. simpl. lia.
  - intros [st' next'] e _ Hle. unfold indirect_edge. by case_bool_decide.
Qed.

Lemma findIndirectImpacts_fuel_critical_mono fuel layer d path st :
  (js_length (st_critical st)
   ≤ js_length (st_critical (findIndirectImpacts_fuel fuel adj layer d maxDepth path st)))%Z.
Proof.
  revert layer d path st.
  induction fuel as [|n IH]; intros layer d path st; simpl;
    (destruct (js_ge d maxDepth); [done|]);
    pose proof (foldl_inv (fun acc' =>
                  (js_length (st_critical st) ≤ js_length (st_critical acc'.1))%Z)
                  (indirect_node adj path) layer (st, [])) as Hlayer;
    (destruct (foldl (indirect_node adj path) (st, []) layer) as [st' next];
     simpl in Hlayer;
     assert (js_length (st_critical st) ≤ js_length (st_critical st'))%Z as Hle
       by (apply Hlayer; [done|]; intros a x _ Ha; etrans; [exact Ha|];
           apply indirect_node_critical_mono));
    destruct (0 <? _)%Z; try done.
  etrans; [exact Hle | apply IH].
Qed.

Lemma impact_source_critical_mono st s :
  (js_length (st_critical st)
   ≤ js_length (st_critical (impact_source adj maxDepth st s)))%Z.
Proof.
  unfold impact_source. destruct (adj_truthy adj s); [|done]. cbn [negb].
  etrans; [|apply findIndirectImpacts_fuel_critical_mono].
  by rewrite direct_edges_critical.
Qed.

(** A direct neighbour with more than five outgoing edges is recorded as
    critical as soon as the first layer is expanded. *)
Lemma impact_source_flags st s x :
  out_neighbor adj s x → (5 < js_length (outgoing_of adj x))%Z →
  js_ge 1 maxDepth = false →
  (0 < js_length (st_critical (impact_source adj maxDepth st s)))%Z.
Proof.
  unfold out_neighbor. intros (e & -> & He)%list_elem_of_fmap Hfan Hd.
  unfold impact_source.
  assert (adj_truthy adj s = true) as ->.
  { apply adj_truthy_iff. left. by eapply outgoing_of_elem. }
  cbn [negb]. rewrite findIndirectImpacts_unfold, Hd.
  set (st1 := foldl direct_edge st (outgoing_of adj s)).
  assert (0 < js_length (st_critical
                 (foldl (indirect_node adj [s]) (st1, [])
                    (out_target <$> outgoing_of adj s)).1))%Z as Hpos.
  { apply (foldl_reaches (fun acc' => (0 < js_length (st_critical acc'.1))%Z)
             _ _ (out_target e)).
    - by apply list_elem_of_fmap_2.
    - intros [st' next']. unfold indirect_node.
      assert (adj_truthy adj (out_target e) = true) as ->.
      { apply adj_truthy_iff. left.
        destruct (outgoing_of adj (out_target e)) as [|e' l] eqn:Hout;
          [unfold js_length in Hfan; simpl in Hfan; lia|].
        apply (outgoing_of_elem _ _ e'). rewrite Hout. left. }
      cbn [negb]. destruct (Z.ltb_spec 5 (js_length (outgoing_of adj (out_target e))));
        [|lia].
      apply (foldl_inv (fun acc' => (0 < js_length (st_critical acc'.1))%Z)).
      + unfold js_length. simpl. rewrite length_app. simpl. lia.
      + intros [st'' next''] e' _ Hle. unfold indirect_edge. by case_bool_decide.
    - intros acc' y Hle.
      pose proof (indirect_node_critical_mono [s] acc' y). lia. }
  destruct (foldl (indirect_node adj [s]) (st1, []) (out_target <$> outgoing_of adj s))
    as [st' next]. simpl in Hpos.
  destruct (0 <? js_length next)%Z; [|done].
  pose proof (findIndirectImpacts_fuel_critical_mono
                (size (adj_targets adj ∖ st_visited st')) next (1 + 1)
                ([s] ++ (out_target <$> outgoing_of adj s)) st') as Hle.
  unfold findIndirectImpacts. lia.
Qed.

Lemma impact_sources_flag l st s x :
  s ∈ l → out_neighbor adj s x → (5 < js_length (outgoing_of adj x))%Z →
  js_ge 1 maxDepth = false →
  (0 < js_length (st_critical (foldl (impact_source adj maxDepth) st l)))%Z.
Proof.
  intros Hs Hn Hfan Hd.
  apply (foldl_reaches (fun st' => (0 < js_length (st_critical st'))%Z) _ _ s);
    [done| |].
  - intros st'. by apply (impact_source_flags st' s x).
  - intros st' y Hle. pose proof (impact_source_critical_mono st' y). lia.
Qed.
End ImpactMore.

(** *** Impact analysis from a single source reaches every node in range *)

Section ImpactComplete.
Variable adj : AdjacencyMap.
Variable s : string.
Variable maxDepth : JsNumber.

Lemma indirect_node_visits path acc x n :
  out_neighbor adj x n → n ∈ st_visited (indirect_node adj path acc x).1.
Proof.
  unfold out_neighbor. destruct acc as [st next]. unfold indirect_node.
  intros (e & -> & He)%list_elem_of_fmap.
  assert (adj_truthy adj x = true) as ->.
  { apply adj_truthy_iff. left. by eapply outgoing_of_elem. }
  cbn [negb].
  apply (foldl_reaches (fun acc' => out_target e ∈ st_visited acc'.1) _ _ e); [done| |].
  - intros [st' next']. unfold indirect_edge. case_bool_decide; [done|].
    simpl. apply elem_of_union_r. by apply elem_of_singleton.
  - intros acc' e' Hin. by apply indirect_edge_visited_mono.
Qed.

(** Processing a layer visits all neighbours of its nodes. *)
Lemma layer_processed path st layer x n :
  x ∈ layer → out_neighbor adj x n →
  n ∈ st_visited (foldl (indirect_node adj path) (st, []) layer).1.
Proof.
  intros Hx Hn.
  apply (foldl_reaches (fun acc' => n ∈ st_visited acc'.1) _ _ x); [done| |].
  - intros acc'. by apply indirect_node_visits.
  - intros acc' y Hin. by apply indirect_node_visited_mono.
Qed.

Lemma expanded_closed V j y :
  expanded adj V [] → s ∈ V → hops adj j s y → y ∈ V.
Proof.
  intros Hexp Hs. revert y. induction j as [|j IH]; intros y; simpl.
  - by intros <-.
  - intros (m & Hm & Hn). apply (Hexp m); [by apply IH|apply not_elem_of_nil|done].
Qed.

Lemma in_depth_step d j :
  js_ge d maxDepth = false → in_depth (d + 1) maxDepth j → in_depth d maxDepth j
  ∨ Z.of_nat j = (d + 1)%Z.
Proof. unfold in_depth. intros Hd [Hle|Hj]; [|by left; right]. lia. Qed.

Lemma in_depth_stop d j :
  js_ge d maxDepth = true → in_depth d maxDepth j → (Z.of_nat j ≤ d)%Z.
Proof.
  unfold in_depth. intros Hd [Hle|Hj]; [done|].
  destruct (decide (Z.of_nat j ≤ d)%Z) as [|Hgt]; [done|].
  rewrite (js_ge_mono d (Z.of_nat j - 1) maxDepth) in Hj; [done|lia|done].
Qed.

Lemma findIndirectImpacts_fuel_covers fuel layer d path st :
  (size (adj_targets adj ∖ st_visited st) ≤ fuel)%nat → (1 ≤ d)%Z →
  expanded adj (st_visited st) layer →
  (∀ y j, (Z.of_nat j ≤ d)%Z → hops adj j s y → y ∈ st_visited st) →
  covered adj s maxDepth d
    (st_visited (findIndirectImpacts_fuel fuel adj layer d maxDepth path st)).
Proof.
  revert layer d path st.
  induction fuel as [|n IH]; intros layer d path st Hfuel Hd Hexp Hcov; simpl;
    (destruct (js_ge d maxDepth) eqn:Hlt;
     [intros y j Hj; apply Hcov; by apply in_depth_stop|]);
    pose proof (layer_measure adj path st layer) as Hmeasure; cbn zeta in Hmeasure;
    destruct (layer_next adj path st layer) as [Hnext _];
    pose proof (layer_processed path st layer) as Hvis;
    destruct (foldl (indirect_node adj path) (st, []) layer) as [st' next];
    simpl in Hnext, Hvis, Hmeasure;
    (assert (expanded adj (st_visited st') next) as Hexp'
      by (intros x Hx Hxn m Hm; apply Hnext in Hx as [Hx|Hx]; [|done];
          destruct (decide (x ∈ layer)) as [Hl|Hl]; [by apply (Hvis x)|];
          apply Hnext; left; by apply (Hexp x)));
    (assert (∀ y j, (Z.of_nat j ≤ d + 1)%Z → hops adj j s y → y ∈ st_visited st')
       as Hcov'
      by (intros y j Hj Hy;
          destruct (decide (Z.of_nat j ≤ d)%Z) as [Hle|Hgt];
          [apply Hnext; left; by apply (Hcov y j)|];
          destruct j as [|j]; [lia|]; destruct Hy as (m & Hm & Hn);
          assert (m ∈ st_visited st) as Hmv by (apply (Hcov m j); [lia|done]);
          destruct (decide (m ∈ layer)) as [Hl|Hl]; [by apply (Hvis m)|];
          apply Hnext; left; by apply (Hexp m)));
    (destruct (Z.ltb_spec 0 (js_length next)) as [Hpos|Hzero];
     [|assert (next = []) as ->
         by (destruct next; [done|unfold js_length in *; simpl in *; lia]);
       intros y j _ Hy; apply (expanded_closed _ j); [done| |done];
       apply (Hcov' s 0%nat); [lia|done]]).
  - exfalso. assert (next ≠ []) as Hne by (intros ->; unfold js_length in Hpos; simpl in Hpos; lia).
    specialize (Hmeasure Hne). lia.
  - assert (next ≠ []) as Hne by (intros ->; unfold js_length in Hpos; simpl in Hpos; lia).
    specialize (Hmeasure Hne).
    intros y j Hj Hy.
    assert (covered adj s maxDepth (d + 1)
              (st_visited (findIndirectImpacts_fuel n adj next (d + 1) maxDepth
                             (path ++ layer) st'))) as Hrec
      by (apply IH; [lia|lia|done|done]).
    apply (Hrec y j); [|done].
    destruct Hj as [Hj|Hj]; [left; lia|by right].
Qed.

Lemma no_edges_no_hops j y : outgoing_of adj s = [] → hops adj j s y → y = s.
Proof.
  intros Hnone. revert y. induction j as [|j IH]; intros y; simpl; [done|].
  intros (m & Hm & Hn). apply IH in Hm as ->.
  unfold out_neighbor in Hn. rewrite Hnone in Hn. by apply elem_of_nil in Hn.
Qed.

Lemma impact_source_covers y k :
  hops adj k s y → y ≠ s →
  in_depth 1 maxDepth k →
  y ∈ st_visited (impact_source adj maxDepth (mkImpact [] [] {[s]} []) s).
Proof.
  intros Hy Hne Hk.
  destruct (outgoing_of adj s) as [|e0 l0] eqn:Hout.
  { exfalso. apply Hne. by apply (no_edges_no_hops k). }
  unfold impact_source.
  assert (adj_truthy adj s = true) as ->.
  { apply adj_truthy_iff. left. apply (outgoing_of_elem _ _ e0). rewrite Hout. left. }
  cbn [negb]. clear Hout.
  set (st1 := foldl direct_edge _ (outgoing_of adj s)).
  assert (∀ x, x ∈ st_visited st1 ↔ x = s ∨ x ∈ out_target <$> outgoing_of adj s) as Hv1.
  { intros x. subst st1. rewrite direct_edges_visited_iff. simpl.
    by rewrite elem_of_singleton. }
  assert (covered adj s maxDepth 1
            (st_visited (findIndirectImpacts adj (out_target <$> outgoing_of adj s)
                           1 maxDepth [s] st1))) as Hc.
  { unfold findIndirectImpacts.
    apply findIndirectImpacts_fuel_covers; [lia|lia| |].
    - intros x Hx Hnl n Hn. apply Hv1 in Hx as [->|Hx]; [|done].
      apply Hv1. by right.
    - intros z j Hj Hz. destruct j as [|[|j]]; [| |lia]; simpl in Hz.
      + subst z. apply Hv1. by left.
      + destruct Hz as (m & <- & Hn). apply Hv1. by right. }
  by apply (Hc y k).
Qed.
End ImpactComplete.

(** The final state of [analyzeImpact] satisfies the two soundness
    invariants. *)
Lemma impact_state_sound adj sourceIds maxDepth :
  let st := foldl (impact_source adj maxDepth)
              (mkImpact [] [] (foldl (fun v sourceId => v ∪ {[sourceId]}) ∅ sourceIds) [])
              sourceIds in
  impact_sound adj sourceIds maxDepth st ∧ critical_ok adj sourceIds maxDepth st.
Proof.
  cbn zeta. apply impact_sources_sound; [done|].
  split; [split|]; by intros x ?%elem_of_nil.
Qed.

(** X7: whatever [analyzeImpact] reports lies downstream of a source: a
    node of [directImpact] is the target of an edge leaving a source, and a
    node of [indirectImpact] is reached from a source over [k >= 2] edges
    with [k - 1 >= maxDepth] false; for an integer [maxDepth] this is
    [k <= maxDepth]. *)
Theorem analyzeImpact_sound dataset adj sourceIds maxDepth r :
  buildAdjacencyMap dataset = Some adj →
  analyzeImpact dataset sourceIds maxDepth = Some r →
  (∀ x, x ∈ directImpact r → ∃ s, s ∈ sourceIds ∧ out_neighbor adj s x)
  ∧ (∀ x, x ∈ indirectImpact r →
       ∃ (s : string) (k : nat),
         s ∈ sourceIds ∧ (2 ≤ k)%nat ∧ hops adj k s x
         ∧ js_ge (Z.of_nat k - 1) maxDepth = false
         ∧ (∀ z, maxDepth = js_int z → (Z.of_nat k ≤ z)%Z)).
Proof.
  intros Hadj Hr. destruct (analyzeImpact_result _ _ _ _ _ Hadj Hr) as (st & Hst & ->).
  destruct (impact_state_sound adj sourceIds maxDepth) as [[Hd Hi] _].
  cbn zeta in Hd, Hi. rewrite <- Hst in Hd, Hi. simpl. split; [done|].
  intros x Hx. destruct (Hi x Hx) as (s & k & Hs & Hk & Hlt & Hhops).
  exists s, k. split_and!; [done..|].
  intros z ->. apply js_ge_int_false in Hlt. lia.
Qed.

Lemma analyzeImpact_sound_witness :
  ∃ (s : string) (k : nat),
    s ∈ ["A"; "B"] ∧ (2 ≤ k)%nat ∧ hops (index_of two_sources) k s "Y"
    ∧ js_ge (Z.of_nat k - 1) (js_int 5) = false
    ∧ (∀ z, js_int 5 = js_int z → (Z.of_nat k ≤ z)%Z).
Proof.
  refine (proj2 (analyzeImpact_sound two_sources (index_of two_sources) ["A"; "B"]
                   (js_int 5) (mkImpactResult ["X"] ["Y"] (mkImpactMetrics 2 0 0))
                   _ _) "Y" _).
  - by vm_compute.
  - by vm_compute.
  - simpl. left.
Defined.

(** X8: when [1 >= maxDepth] holds the analysis stops at the direct
    neighbours: nothing is reported as indirect and no critical path is
    recorded. *)
Theorem analyzeImpact_shallow dataset sourceIds maxDepth r :
  js_ge 1 maxDepth = true →
  analyzeImpact dataset sourceIds maxDepth = Some r →
  indirectImpact r = []
  ∧ metric_criticalPaths (impact_metrics r) = 0%Z
  ∧ metric_maxDepth (impact_metrics r) = 0%Z
  ∧ totalImpactedNodes (impact_metrics r) = js_length (directImpact r).
Proof.
  intros Hd Hr. destruct (analyzeImpact_built _ _ _ _ Hr) as [adj Hadj].
  destruct (analyzeImpact_result _ _ _ _ _ Hadj Hr) as (st & Hst & ->). simpl.
  destruct (impact_sources_shallow adj maxDepth sourceIds
              (mkImpact [] [] (foldl (fun v sourceId => v ∪ {[sourceId]}) ∅ sourceIds) [])
              Hd) as [Hi Hc].
  rewrite <- Hst in Hi, Hc. simpl in Hi, Hc. rewrite Hi, Hc.
  simpl. split_and!; [done..|]. unfold js_length. simpl. lia.
Qed.

Lemma analyzeImpact_shallow_witness :
  let r := mkImpactResult ["X"; "Y"] [] (mkImpactMetrics 2 0 0) in
  indirectImpact r = []
  ∧ metric_criticalPaths (impact_metrics r) = 0%Z
  ∧ metric_maxDepth (impact_metrics r) = 0%Z
  ∧ totalImpactedNodes (impact_metrics r) = js_length (directImpact r).
Proof.
  refine (analyzeImpact_shallow two_sources ["A"; "B"] (js_int 1) _ _ _).
  - reflexivity.
  - by vm_compute.
Defined.

(** X9: a source that is no entity of the dataset has no effect; when none
    of the sources is an entity the result is empty with all-zero
    metrics. *)
Theorem analyzeImpact_absent_sources dataset sourceIds maxDepth r :
  (∀ s, s ∈ sourceIds → s ∉ ent_id <$> entities dataset) →
  analyzeImpact dataset sourceIds maxDepth = Some r →
  r = mkImpactResult [] [] (mkImpactMetrics 0 0 0).
Proof.
  intros Habs Hr. destruct (analyzeImpact_built _ _ _ _ Hr) as [adj Hadj].
  destruct (analyzeImpact_result _ _ _ _ _ Hadj Hr) as (st & Hst & ->).
  rewrite foldl_id in Hst; [by subst st|].
  intros st' s Hs. apply impact_source_no_edges.
  rewrite (index_outgoing _ _ Hadj). rewrite decide_False; [done|]. by apply Habs.
Qed.

Lemma analyzeImpact_absent_sources_witness :
  analyzeImpact chain3 ["9"; "toString"] (js_int 5)
  = Some (mkImpactResult [] [] (mkImpactMetrics 0 0 0)).
Proof.
  destruct (analyzeImpact chain3 ["9"; "toString"] (js_int 5)) as [r|] eqn:Hr;
    [|by vm_compute in Hr].
  f_equal. refine (analyzeImpact_absent_sources chain3 ["9"; "toString"] (js_int 5) r _ Hr).
  intros s Hs H. simpl in H.
  repeat (apply elem_of_cons in Hs as [->|Hs];
          [repeat (apply elem_of_cons in H as [H|H]; [discriminate|]);
           by apply elem_of_nil in H|]).
  by apply elem_of_nil in Hs.
Defined.

(** X10: from a single source the analysis misses nothing in range: every
    node other than the source that can be reached from it over [k] edges,
    for [k <= 1] or with [k - 1 >= maxDepth] false, is reported as direct or
    indirect. *)
Theorem analyzeImpact_single_source_complete dataset adj s maxDepth r y k :
  buildAdjacencyMap dataset = Some adj →
  analyzeImpact dataset [s] maxDepth = Some r →
  hops adj k s y → y ≠ s →
  (k ≤ 1)%nat ∨ js_ge (Z.of_nat k - 1) maxDepth = false →
  y ∈ directImpact r ∨ y ∈ indirectImpact r.
Proof.
  intros Hadj Hr Hy Hne Hk.
  destruct (analyzeImpact_result _ _ _ _ _ Hadj Hr) as (st & Hst & ->). simpl.
  pose proof (impact_state_ok adj [s] maxDepth) as (_ & Hvis & _).
  rewrite <- Hst in Hvis.
  assert (in_depth 1 maxDepth k) as Hin by (destruct Hk; [left; lia|by right]).
  pose proof (impact_source_covers adj s maxDepth y k Hy Hne Hin) as Hv.
  simpl in Hst.
  replace (∅ ∪ {[s]} : gset string) with ({[s]} : gset string) in Hst
    by (by rewrite union_empty_l_L).
  rewrite <- Hst in Hv.
  apply Hvis in Hv as [Hs|Hv]; [|exact Hv].
  apply list_elem_of_singleton in Hs. done.
Qed.

Lemma chain3_index : buildAdjacencyMap chain3 = Some (index_of chain3).
Proof. by vm_compute. Qed.

Lemma analyzeImpact_single_source_complete_witness :
  let r := mkImpactResult ["2"] ["3"] (mkImpactMetrics 2 0 0) in
  "3" ∈ directImpact r ∨ "3" ∈ indirectImpact r.
Proof.
  refine (analyzeImpact_single_source_complete chain3 (index_of chain3) "1" (js_int 5)
            _ "3" 2 chain3_index _ _ _ _).
  - by vm_compute.
  - exists "2". split; [exists "1"; split; [done|]|]; unfold out_neighbor;
      vm_compute; left.
  - discriminate.
  - right. reflexivity.
Defined.

(** X23: the critical paths.  Every one that is counted leads from a source
    to a node with more than five outgoing edges, at least one edge away
    from it, whose layer was expanded; then the [maxDepth] metric is at
    least 1.  And a direct neighbour of a source with more than five
    outgoing edges is counted whenever [1 >= maxDepth] is false. *)
Theorem analyzeImpact_critical dataset adj sourceIds maxDepth r :
  buildAdjacencyMap dataset = Some adj →
  analyzeImpact dataset sourceIds maxDepth = Some r →
  ((0 < metric_criticalPaths (impact_metrics r))%Z →
     (1 ≤ metric_maxDepth (impact_metrics r))%Z
     ∧ ∃ (s x : string) (k : nat),
         s ∈ sourceIds ∧ (1 ≤ k)%nat ∧ hops adj k s x
         ∧ js_ge (Z.of_nat k) maxDepth = false
         ∧ (5 < js_length (outgoing_of adj x))%Z)
  ∧ (∀ s x, s ∈ sourceIds → out_neighbor adj s x →
       (5 < js_length (outgoing_of adj x))%Z → js_ge 1 maxDepth = false →
       (0 < metric_criticalPaths (impact_metrics r))%Z).
Proof.
  intros Hadj Hr. destruct (analyzeImpact_result _ _ _ _ _ Hadj Hr) as (st & Hst & ->).
  simpl. split.
  - intros Hpos.
    destruct (impact_state_sound adj sourceIds maxDepth) as [_ Hcrit].
    cbn zeta in Hcrit. rewrite <- Hst in Hcrit.
    destruct (Z.ltb_spec 0 (js_length (st_critical st))) as [_|]; [|lia]. split.
    + destruct (st_critical st) as [|p ps] eqn:Hps;
        [unfold js_length in Hpos; simpl in Hpos; lia|].
      destruct (Hcrit p) as (s & x & k & _ & _ & _ & Hlen & _); [rewrite Hps; left|].
      rewrite fmap_cons. simpl.
      destruct (foldl_max_spec ((fun path => js_length path - 1)%Z <$> ps)
                  (js_length p - 1)%Z) as (_ & Hle & _).
      unfold js_length in *. lia.
    + destruct (st_critical st) as [|p ps] eqn:Hps;
        [unfold js_length in Hpos; simpl in Hpos; lia|].
      destruct (Hcrit p) as (s & x & k & Hs & _ & _ & _ & Hk & Hlt & Hhops & Hfan);
        [rewrite Hps; left|].
      by exists s, x, k.
  - intros s x Hs Hn Hfan Hd. rewrite Hst.
    by apply (impact_sources_flag adj maxDepth sourceIds _ s x).
Qed.

Lemma star8_index : buildAdjacencyMap star8 = Some (index_of star8).
Proof. by vm_compute. Qed.

Lemma analyzeImpact_critical_witness :
  let r := mkImpactResult ["1"] ["2"; "3"; "4"; "5"; "6"; "7"] (mkImpactMetrics 7 1 1) in
  analyzeImpact star8 ["0"] (js_int 5) = Some r
  ∧ (0 < metric_criticalPaths (impact_metrics r))%Z
  ∧ (1 ≤ metric_maxDepth (impact_metrics r))%Z.
Proof.
  cbn zeta.
  pose proof (analyzeImpact_critical star8 (index_of star8) ["0"] (js_int 5)
                (mkImpactResult ["1"] ["2"; "3"; "4"; "5"; "6"; "7"]
                   (mkImpactMetrics 7 1 1))
                star8_index eq_refl) as [Hnec Hsuff].
  assert (0 < metric_criticalPaths
                (impact_metrics
                   (mkImpactResult ["1"] ["2"; "3"; "4"; "5"; "6"; "7"]
                      (mkImpactMetrics 7 1 1))))%Z as Hpos.
  { apply (Hsuff "0" "1").
    - left.
    - unfold out_neighbor. vm_compute. left.
    - by vm_compute.
    - reflexivity. }
  split_and!; [reflexivity|exact Hpos|exact (proj1 (Hnec Hpos))].
Defined.

(** X24: the no-op calls on a dataset whose index can be built, that is,
    none of whose relationships ends in a key that is no entity id and
    reads as an inherited property of the map (see C9 for the others):
    without a usable pair [findPaths] returns no path, and without sources
    [analyzeImpact] returns nothing, both with all-zero metrics. *)
Theorem no_op_zero_results dataset sourceIds targetIds maxDepth maxLength :
  (∀ s t, s ∈ sourceIds → t ∈ targetIds → ¬ usable_pair dataset s t) →
  index_safe dataset →
  findPaths dataset sourceIds targetIds maxLength
  = Some (mkPathResult [] (mkPathMetrics 0 0 0))
  ∧ analyzeImpact dataset [] maxDepth
    = Some (mkImpactResult [] [] (mkImpactMetrics 0 0 0)).
Proof.
  intros Hun Hsafe. apply buildAdjacencyMap_is_Some in Hsafe as [adj Hadj]. split.
  - destruct (findPaths dataset sourceIds targetIds maxLength) as [r|] eqn:Hr.
    + f_equal. by apply (findPaths_no_usable_pair dataset sourceIds targetIds maxLength).
    + exfalso. assert (is_Some (findPaths dataset sourceIds targetIds maxLength)) as Hsome
        by (apply findPaths_is_Some; by rewrite Hadj).
      rewrite Hr in Hsome. by destruct Hsome.
  - unfold analyzeImpact. by rewrite Hadj.
Qed.

Lemma scenario_B_unusable s t :
  s ∈ ["1"] → t ∈ ["1"] → ¬ usable_pair chain3 s t.
Proof. intros ->%list_elem_of_singleton ->%list_elem_of_singleton [Hne _]. done. Qed.

Lemma chain3_closed : closed_dataset chain3.
Proof.
  intros r Hr. simpl in Hr.
  repeat (apply elem_of_cons in Hr as [->|Hr]; [split; simpl; elem_of_concrete|]).
  by apply elem_of_nil in Hr.
Qed.

Lemma no_op_zero_results_witness :
  findPaths chain3 ["1"] ["1"] (js_int 10)
  = Some (mkPathResult [] (mkPathMetrics 0 0 0))
  ∧ analyzeImpact chain3 [] (js_int 5)
    = Some (mkImpactResult [] [] (mkImpactMetrics 0 0 0)).
Proof.
  apply (no_op_zero_results chain3 ["1"] ["1"] (js_int 5) (js_int 10) scenario_B_unusable).
  apply closed_dataset_safe, chain3_closed.
Defined.

(** ** The filters *)

Lemma fold_paths_elem (f : PathRec → list string) ps (acc : gset string) x :
  x ∈ foldl (fun acc path => foldl (fun acc y => acc ∪ {[y]}) acc (f path)) acc ps
  ↔ x ∈ acc ∨ ∃ p, p ∈ ps ∧ x ∈ f p.
Proof.
  revert acc. induction ps as [|p ps IH]; intros acc; simpl.
  - split; [by left|]. intros [?|(p & ?%elem_of_nil & _)]; done.
  - rewrite IH, visited_sources. setoid_rewrite elem_of_cons. naive_solver.
Qed.

Lemma elem_of_nodeIdsInPaths ps x :
  x ∈ nodeIdsInPaths ps ↔ ∃ p, p ∈ ps ∧ x ∈ nodes p.
Proof.
  unfold nodeIdsInPaths. rewrite (fold_paths_elem nodes), elem_of_empty. tauto.
Qed.

Lemma elem_of_edgeIdsInPaths ps x :
  x ∈ edgeIdsInPaths ps ↔ ∃ p, p ∈ ps ∧ x ∈ edges p.
Proof.
  unfold edgeIdsInPaths. rewrite (fold_paths_elem edges), elem_of_empty. tauto.
Qed.

Lemma NoDup_fmap_eq {A B} (f : A → B) (l : list A) x y :
  NoDup (f <$> l) → x ∈ l → y ∈ l → f x = f y → x = y.
Proof.
  induction l as [|a l IH]; [by intros _ ?%elem_of_nil|].
  rewrite fmap_cons, NoDup_cons.
  intros [Ha Hnd] [->|Hx]%elem_of_cons [->|Hy]%elem_of_cons Heq; [done|..].
  - exfalso. apply Ha. rewrite Heq. by apply list_elem_of_fmap_2.
  - exfalso. apply Ha. rewrite <- Heq. by apply list_elem_of_fmap_2.
  - by apply IH.
Qed.

Lemma kept_entity (ids : gset string) (es : list DataEntity) k :
  k ∈ ent_id <$> es → k ∈ ids →
  k ∈ ent_id <$> filter (fun entity => ent_id entity ∈ ids) es.
Proof.
  intros (e & -> & He)%list_elem_of_fmap HP.
  apply list_elem_of_fmap_2, list_elem_of_filter. done.
Qed.

Lemma filter_none {A} (P : A → Prop) `{!∀ x, Decision (P x)} (l : list A) :
  (∀ x, x ∈ l → ¬ P x) → filter P l = [].
Proof.
  induction l as [|x l IH]; intros Hnone; [done|].
  rewrite filter_cons. rewrite decide_False by (apply Hnone; left).
  apply IH. intros y Hy. apply Hnone. by right.
Qed.

Lemma filter_iff {A} (P Q : A → Prop) `{!∀ x, Decision (P x)} `{!∀ x, Decision (Q x)}
    (l : list A) :
  (∀ x, x ∈ l → P x ↔ Q x) → filter P l = filter Q l.
Proof.
  induction l as [|x l IH]; intros Hiff; [done|].
  rewrite !filter_cons.
  rewrite IH by (intros y Hy; apply Hiff; by right).
  destruct (decide (P x)) as [HP|HP], (decide (Q x)) as [HQ|HQ]; try done;
    exfalso; apply (Hiff x) in HP || apply (Hiff x) in HQ; try done; left.
Qed.

(** The three branches of [filterDataset]. *)
Lemma filterDataset_cases dataset sourceIds targetIds maxDepth :
  filterDataset dataset sourceIds targetIds maxDepth =
  match sourceIds, targetIds with
  | [], _ => Some dataset
  | _ :: _, _ :: _ =>
      match findPaths dataset sourceIds targetIds maxDepth with
      | None => None
      | Some pathResult =>
          Some (mkDataset
                  (filter (fun entity => ent_id entity ∈ nodeIdsInPaths (paths pathResult))
                          (entities dataset))
                  (filter (fun rel => rel_id rel ∈ edgeIdsInPaths (paths pathResult))
                          (relationships dataset)))
      end
  | _ :: _, [] =>
      match analyzeImpact dataset sourceIds maxDepth with
      | None => None
      | Some impactResult =>
          Some (mkDataset
                  (filter (fun entity => ent_id entity ∈ impactedNodeIds sourceIds impactResult)
                          (entities dataset))
                  (filter (fun rel => rel_source rel ∈ impactedNodeIds sourceIds impactResult
                                      ∧ rel_target rel ∈ impactedNodeIds sourceIds impactResult)
                          (relationships dataset)))
      end
  end.
Proof. unfold filterDataset. by destruct sourceIds, targetIds. Qed.

(** The paths of [findPaths] are the records of the routes that join a
    source and a target. *)
Lemma findPaths_paths_exact dataset adj sourceIds targetIds maxLength r p :
  buildAdjacencyMap dataset = Some adj →
  findPaths dataset sourceIds targetIds maxLength = Some r →
  p ∈ paths r ↔
  ∃ s t hs, joining dataset adj maxLength sourceIds targetIds s t hs
            ∧ p = path_record (s :: (out_target <$> hs)) (out_edgeId <$> hs).
Proof.
  intros Hadj Hr. rewrite (findPaths_paths _ _ _ _ _ _ Hadj Hr). split.
  - intros Hp.
    destruct (collected_sound adj maxLength sourceIds targetIds p Hp)
      as (s & t & hs & Hs & Ht & Hne & _ & Hte & -> & Hroute & Hlast & Hnd & Hlen).
    destruct (route_ends_entities _ _ _ _ _ Hadj Hne Hte Hroute Hlast) as [Hse Hte'].
    exists s, t, hs. by split_and!.
  - intros (s & t & hs & (Hs & Ht & Hse & Hte & Hne & Hroute & Hlast & Hnd & Hlen) & ->).
    apply (collected_complete adj maxLength sourceIds targetIds s t hs); try done;
      apply (index_truthy _ _ Hadj); by left.
Qed.

(** The relationships kept by the path branch join nodes of the paths. *)
Lemma path_edge_endpoints dataset adj sourceIds targetIds maxLength res r :
  buildAdjacencyMap dataset = Some adj →
  findPaths dataset sourceIds targetIds maxLength = Some res →
  unique_relationship_ids dataset →
  r ∈ relationships dataset →
  rel_id r ∈ edgeIdsInPaths (paths res) →
  rel_source r ∈ nodeIdsInPaths (paths res)
  ∧ rel_target r ∈ nodeIdsInPaths (paths res).
Proof.
  intros Hadj Hres Huniq Hr (p & Hp & He)%elem_of_edgeIdsInPaths.
  pose proof (collected_ok adj maxLength sourceIds targetIds) as Hall.
  rewrite <- (findPaths_paths _ _ _ _ _ _ Hadj Hres) in Hall.
  rewrite Forall_forall in Hall. destruct (Hall p Hp) as (_ & Hwalk & _).
  destruct (walk_edges _ _ _ _ Hwalk He) as (a & b & Ha & Hb & Hab).
  apply (edge_between_relationship _ _ Hadj) in Hab
    as (_ & r' & Hr' & Hsrc & Htgt & Hid & _).
  assert (r' = r) as -> by by eapply NoDup_fmap_eq.
  rewrite !elem_of_nodeIdsInPaths, Hsrc, Htgt. split; by exists p.
Qed.

Lemma filterDataset_sublists dataset sourceIds targetIds maxDepth result :
  filterDataset dataset sourceIds targetIds maxDepth = Some result →
  sublist (entities result) (entities dataset)
  ∧ sublist (relationships result) (relationships dataset).
Proof.
  rewrite filterDataset_cases.
  destruct sourceIds as [|s0 ss]; [by intros [= <-]|].
  destruct targetIds as [|t0 ts].
  - destruct (analyzeImpact _ _ _); [|done]. intros [= <-]. split; apply sublist_filter.
  - destruct (findPaths _ _ _ _); [|done]. intros [= <-]. split; apply sublist_filter.
Qed.

Lemma filterDataset_closed dataset sourceIds targetIds maxDepth result :
  filterDataset dataset sourceIds targetIds maxDepth = Some result →
  closed_dataset dataset → unique_relationship_ids dataset →
  closed_dataset result.
Proof.
  rewrite filterDataset_cases. intros Hres Hclosed Huniq.
  destruct sourceIds as [|s0 ss]; [by injection Hres as <-|].
  destruct targetIds as [|t0 ts].
  - destruct (analyzeImpact _ _ _); [|done]. injection Hres as <-.
    intros r [[Hs Ht] Hr]%list_elem_of_filter. simpl.
    destruct (Hclosed r Hr) as [Hse Hte]. split; by apply kept_entity.
  - destruct (findPaths _ _ _ _) as [res|] eqn:Hpaths; [|done]. injection Hres as <-.
    destruct (findPaths_built _ _ _ _ _ Hpaths) as [adj Hadj].
    intros r [Hid Hr]%list_elem_of_filter. simpl.
    destruct (Hclosed r Hr) as [Hse Hte].
    destruct (path_edge_endpoints _ _ _ _ _ _ r Hadj Hpaths Huniq Hr Hid) as [Hs Ht].
    split; by apply kept_entity.
Qed.

(** The filter returns whenever the index can be built. *)
Lemma filterDataset_is_Some dataset sourceIds targetIds maxDepth :
  index_safe dataset →
  is_Some (filterDataset dataset sourceIds targetIds maxDepth).
Proof.
  intros [adj Hadj]%buildAdjacencyMap_is_Some. rewrite filterDataset_cases.
  destruct sourceIds as [|s0 ss]; [by eexists|].
  destruct targetIds as [|t0 ts].
  - unfold analyzeImpact. rewrite Hadj. by eexists.
  - unfold findPaths. rewrite Hadj. by eexists.
Qed.

Lemma sublist_unique_ids (l k : list Relationship) :
  sublist l k → NoDup (rel_id <$> k) → NoDup (rel_id <$> l).
Proof.
  intros Hsub Hnd. eapply sublist_NoDup; [exact Hnd|]. by apply fmap_sublist.
Qed.





(** The path branch keeps relationships by id, so a relationship that
    shares its id with an edge of a path survives without its endpoints. *)
Lemma filterDataset_shared_id :
  closed_dataset shared_id
  ∧ filterDataset shared_id ["1"] ["2"] (js_int 5)
    = Some (mkDataset (plain_entity <$> ["1"; "2"]) (relationships shared_id)).
Proof.
  split; [|by vm_compute].
  intros r Hr. simpl in Hr.
  repeat (apply elem_of_cons in Hr as [->|Hr]; [split; simpl; elem_of_concrete|]).
  by apply elem_of_nil in Hr.
Qed.

(** C10: with no sources and at least one target the dataset is returned
    as it is. *)
Theorem filterDataset_targets_only dataset targetIds maxDepth :
  targetIds ≠ [] → filterDataset dataset [] targetIds maxDepth = Some dataset.
Proof.
  intros Hne. destruct targetIds as [|t targetIds]; [done|]. reflexivity.
Qed.

Lemma filterDataset_targets_only_witness :
  filterDataset chain3 [] ["3"] (js_int 5) = Some chain3.
Proof. apply (filterDataset_targets_only chain3 ["3"] (js_int 5)). discriminate. Defined.

(** What the path branch of the filter keeps. *)
Lemma filterDataset_paths_exact dataset adj sourceIds targetIds maxDepth result :
  buildAdjacencyMap dataset = Some adj →
  sourceIds ≠ [] → targetIds ≠ [] →
  filterDataset dataset sourceIds targetIds maxDepth = Some result →
  (∀ e, e ∈ entities result ↔
        e ∈ entities dataset
        ∧ ∃ s t hs, joining dataset adj maxDepth sourceIds targetIds s t hs
                    ∧ ent_id e ∈ s :: (out_target <$> hs))
  ∧ (∀ r, r ∈ relationships result ↔
          r ∈ relationships dataset
          ∧ ∃ s t hs, joining dataset adj maxDepth sourceIds targetIds s t hs
                      ∧ rel_id r ∈ out_edgeId <$> hs).
Proof.
  intros Hadj Hs Ht. rewrite filterDataset_cases.
  destruct sourceIds as [|s0 ss]; [done|]. destruct targetIds as [|t0 ts]; [done|].
  destruct (findPaths _ _ _ _) as [res|] eqn:Hres; [|done]. intros [= <-].
  pose proof (fun p => findPaths_paths_exact _ _ _ _ _ _ p Hadj Hres) as Hexact.
  assert (∀ x, x ∈ nodeIdsInPaths (paths res) ↔
               ∃ s t hs, joining dataset adj maxDepth (s0 :: ss) (t0 :: ts) s t hs
                         ∧ x ∈ s :: (out_target <$> hs)) as Hnodes.
  { intros x. rewrite elem_of_nodeIdsInPaths. split.
    - intros (p & (s & t & hs & Hj & ->)%Hexact & Hx). by exists s, t, hs.
    - intros (s & t & hs & Hj & Hx).
      exists (path_record (s :: (out_target <$> hs)) (out_edgeId <$> hs)).
      split; [|exact Hx].
      apply Hexact. by exists s, t, hs. }
  assert (∀ x, x ∈ edgeIdsInPaths (paths res) ↔
               ∃ s t hs, joining dataset adj maxDepth (s0 :: ss) (t0 :: ts) s t hs
                         ∧ x ∈ out_edgeId <$> hs) as Hedges.
  { intros x. rewrite elem_of_edgeIdsInPaths. split.
    - intros (p & (s & t & hs & Hj & ->)%Hexact & Hx). by exists s, t, hs.
    - intros (s & t & hs & Hj & Hx).
      exists (path_record (s :: (out_target <$> hs)) (out_edgeId <$> hs)).
      split; [|exact Hx].
      apply Hexact. by exists s, t, hs. }
  simpl. split.
  - intros e. rewrite list_elem_of_filter, Hnodes. tauto.
  - intros r. rewrite list_elem_of_filter, Hedges. tauto.
Qed.

(** X11: with sources and targets given, the filter keeps exactly the
    entities that lie on a simple route from a source to a different
    target, both entities, that the length test does not cut off, and the
    relationships that share their id with an edge of such a route; when
    there is no such route it returns the empty dataset, sources and
    targets included. *)
Theorem filterDataset_paths_only dataset adj sourceIds targetIds maxDepth result :
  buildAdjacencyMap dataset = Some adj →
  sourceIds ≠ [] → targetIds ≠ [] →
  filterDataset dataset sourceIds targetIds maxDepth = Some result →
  (∀ e, e ∈ entities result ↔
        e ∈ entities dataset
        ∧ ∃ s t hs, joining dataset adj maxDepth sourceIds targetIds s t hs
                    ∧ ent_id e ∈ s :: (out_target <$> hs))
  ∧ (∀ r, r ∈ relationships result ↔
          r ∈ relationships dataset
          ∧ ∃ s t hs, joining dataset adj maxDepth sourceIds targetIds s t hs
                      ∧ rel_id r ∈ out_edgeId <$> hs)
  ∧ ((∀ s t hs, ¬ joining dataset adj maxDepth sourceIds targetIds s t hs) →
     result = mkDataset [] []).
Proof.
  intros Hadj Hs Ht Hres.
  destruct (filterDataset_paths_exact _ _ _ _ _ _ Hadj Hs Ht Hres) as [Hents Hrels].
  split_and!; [done..|].
  intros Hnone. destruct result as [es rs]. simpl in *. f_equal.
  - destruct es as [|e es]; [done|]. exfalso.
    destruct (proj1 (Hents e)) as (_ & s & t & hs & Hj & _); [left|].
    by apply (Hnone s t hs).
  - destruct rs as [|r rs]; [done|]. exfalso.
    destruct (proj1 (Hrels r)) as (_ & s & t & hs & Hj & _); [left|].
    by apply (Hnone s t hs).
Qed.

Lemma filterDataset_paths_only_witness :
  filterDataset chain3 ["1"] ["3"] (js_int 10) = Some chain3
  ∧ (plain_entity "2" ∈ entities chain3 ↔
     plain_entity "2" ∈ entities chain3
     ∧ ∃ s t hs, joining chain3 (index_of chain3) (js_int 10) ["1"] ["3"] s t hs
                 ∧ ent_id (plain_entity "2") ∈ s :: (out_target <$> hs)).
Proof.
  split; [by vm_compute|].
  refine (proj1 (filterDataset_paths_only chain3 (index_of chain3) ["1"] ["3"] (js_int 10)
                   chain3 chain3_index _ _ _) (plain_entity "2")).
  - discriminate.
  - discriminate.
  - by vm_compute.
Defined.

(** The ids kept by the impact branch for a single source. *)
Lemma impact_single_range dataset adj s maxDepth r x :
  buildAdjacencyMap dataset = Some adj →
  analyzeImpact dataset [s] maxDepth = Some r →
  x ∈ impactedNodeIds [s] r ↔ impact_range adj s maxDepth x.
Proof.
  intros Hadj Hr. unfold impactedNodeIds.
  rewrite elem_of_list_to_set, !elem_of_app, list_elem_of_singleton.
  destruct (analyzeImpact_result _ _ _ _ _ Hadj Hr) as (st & Hst & ->). simpl.
  destruct (impact_state_sound adj [s] maxDepth) as [[Hd Hi] _].
  cbn zeta in Hd, Hi. rewrite <- Hst in Hd, Hi.
  pose proof (impact_state_ok adj [s] maxDepth) as (_ & Hvis & _).
  rewrite <- Hst in Hvis. split.
  - intros [->|[Hx|Hx]].
    + exists 0%nat. split; [done|left; lia].
    + destruct (Hd x Hx) as (s' & ->%list_elem_of_singleton & Hn).
      exists 1%nat. split; [by exists s|left; lia].
    + destruct (Hi x Hx) as (s' & k & ->%list_elem_of_singleton & Hk & Hlt & Hhops).
      exists k. split; [done|by right].
  - intros (k & Hhops & Hk).
    destruct (decide (x = s)) as [->|Hne]; [by left|]. right.
    assert (in_depth 1 maxDepth k) as Hin by (destruct Hk; [left; lia|by right]).
    pose proof (impact_source_covers adj s maxDepth x k Hhops Hne Hin) as Hv.
    simpl in Hst.
    replace (∅ ∪ {[s]} : gset string) with ({[s]} : gset string) in Hst
      by (by rewrite union_empty_l_L).
    rewrite <- Hst in Hv.
    apply Hvis in Hv as [Hs|Hv]; [|exact Hv].
    apply list_elem_of_singleton in Hs. done.
Qed.

(** X12: with a single source and no target, the filter keeps exactly the
    entities in the range of the impact analysis (the source, its direct
    neighbours, and the nodes [k] edges downstream with [k - 1 >= maxDepth]
    false) and exactly the relationships that join two such nodes. *)
Theorem filterDataset_impact_only dataset adj s maxDepth result :
  buildAdjacencyMap dataset = Some adj →
  filterDataset dataset [s] [] maxDepth = Some result →
  (∀ e, e ∈ entities result ↔
        e ∈ entities dataset ∧ impact_range adj s maxDepth (ent_id e))
  ∧ (∀ r, r ∈ relationships result ↔
          r ∈ relationships dataset
          ∧ impact_range adj s maxDepth (rel_source r)
          ∧ impact_range adj s maxDepth (rel_target r)).
Proof.
  intros Hadj. rewrite filterDataset_cases.
  destruct (analyzeImpact dataset [s] maxDepth) as [r|] eqn:Hr; [|done].
  intros [= <-]. simpl. split.
  - intros e. rewrite list_elem_of_filter, (impact_single_range _ _ _ _ _ _ Hadj Hr).
    tauto.
  - intros rel. rewrite list_elem_of_filter, !(impact_single_range _ _ _ _ _ _ Hadj Hr).
    tauto.
Qed.

Lemma filterDataset_impact_only_witness :
  filterDataset chain3 ["1"] [] (js_int 1)
  = Some (mkDataset (plain_entity <$> ["1"; "2"]) [plain_edge "1" "2"])
  ∧ (plain_entity "3" ∈ plain_entity <$> ["1"; "2"] ↔
     plain_entity "3" ∈ entities chain3
     ∧ impact_range (index_of chain3) "1" (js_int 1) (ent_id (plain_entity "3"))).
Proof.
  split; [by vm_compute|].
  refine (proj1 (filterDataset_impact_only chain3 (index_of chain3) "1" (js_int 1)
                   (mkDataset (plain_entity <$> ["1"; "2"]) [plain_edge "1" "2"])
                   chain3_index _) (plain_entity "3")).
  by vm_compute.
Defined.

(** X13: [filterByNodeTypes] with sources and target types.  When some
    entity has one of the types, the entities kept are those on a simple
    route from a source to an entity of such a type; when none has, the
    call is the impact filter of the sources. *)
Theorem filterByNodeTypes_spec dataset adj sourceIds targetTypes maxDepth result :
  buildAdjacencyMap dataset = Some adj →
  sourceIds ≠ [] → targetTypes ≠ [] →
  filterByNodeTypes dataset sourceIds targetTypes maxDepth = Some result →
  ((∃ e', e' ∈ entities dataset ∧ ent_type e' ∈ targetTypes) →
   ∀ e, e ∈ entities result ↔
        e ∈ entities dataset
        ∧ ∃ s e' hs,
            s ∈ sourceIds ∧ s ∈ ent_id <$> entities dataset
            ∧ e' ∈ entities dataset ∧ ent_type e' ∈ targetTypes
            ∧ simple_route adj maxDepth s (ent_id e') hs
            ∧ ent_id e ∈ s :: (out_target <$> hs))
  ∧ ((∀ e', e' ∈ entities dataset → ent_type e' ∉ targetTypes) →
     filterDataset dataset sourceIds [] maxDepth = Some result).
Proof.
  intros Hadj Hs Ht. unfold filterByNodeTypes.
  destruct sourceIds as [|s0 ss]; [done|]. destruct targetTypes as [|t0 ts]; [done|].
  cbn [js_length length]. change (Z.of_nat (S _) =? 0)%Z with false. cbn [orb].
  set (typed := filter (fun entity => ent_type entity ∈ t0 :: ts) (entities dataset)).
  intros Hres. split.
  - intros (e' & He' & Htype).
    assert (ent_id <$> typed ≠ []) as Hne.
    { intros Hnil. apply fmap_nil_inv in Hnil.
      assert (e' ∈ typed) as Hin by (by apply list_elem_of_filter).
      rewrite Hnil in Hin. by apply elem_of_nil in Hin. }
    destruct (filterDataset_paths_exact dataset adj (s0 :: ss) (ent_id <$> typed)
                maxDepth result Hadj Hs Hne Hres) as [Hents _].
    intros e. rewrite Hents. split.
    + intros (He & s & t & hs & (Hsrc & Htgt & Hse & Hte & Hroute) & Hin).
      split; [done|].
      apply list_elem_of_fmap in Htgt as (e2 & -> & [Htype2 He2]%list_elem_of_filter).
      by exists s, e2, hs.
    + intros (He & s & e2 & hs & Hsrc & Hse & He2 & Htype2 & Hroute & Hin).
      split; [done|]. exists s, (ent_id e2), hs. split; [|done].
      split_and!; try done.
      * apply list_elem_of_fmap_2. by apply list_elem_of_filter.
      * by apply list_elem_of_fmap_2.
  - intros Hnone. rewrite <- Hres. f_equal. symmetry.
    subst typed. rewrite filter_none; [done|]. intros x Hx. by apply Hnone.
Qed.

Lemma filterByNodeTypes_spec_witness :
  filterByNodeTypes chain3 ["1"] ["table"] (js_int 5) = Some chain3
  ∧ filterDataset chain3 ["1"] [] (js_int 5) = Some chain3.
Proof.
  split; [by vm_compute|].
  refine (proj2 (filterByNodeTypes_spec chain3 (index_of chain3) ["1"] ["table"] (js_int 5)
                   chain3 chain3_index _ _ _) _).
  - discriminate.
  - discriminate.
  - by vm_compute.
  - intros e He Ht. simpl in He.
    repeat (apply elem_of_cons in He as [->|He];
            [simpl in Ht; apply list_elem_of_singleton in Ht; discriminate|]).
    by apply elem_of_nil in He.
Defined.

(** ** The breadth-first search of [extractReachableSubgraph] *)

Section BfsTermination.
Variable adj : AdjacencyMap.
Variable maxDepth : JsNumber.

Lemma bfs_edge_measure depth acc e :
  out_target e ∈ adj_targets adj →
  (length (bfs_edge depth acc e).2 + size (adj_targets adj ∖ (bfs_edge depth acc e).1)
   = length acc.2 + size (adj_targets adj ∖ acc.1))%nat.
Proof.
  intros Ht. destruct acc as [R Q]. unfold bfs_edge.
  case_bool_decide as Hin; [done|]. cbn [fst snd].
  rewrite length_app. cbn [length].
  assert (adj_targets adj ∖ R
          = {[out_target e]} ∪ adj_targets adj ∖ (R ∪ {[out_target e]})) as Heq.
  { apply set_eq. intros x.
    rewrite elem_of_union, !elem_of_difference, elem_of_union, elem_of_singleton.
    destruct (decide (x = out_target e)) as [->|]; naive_solver. }
  rewrite Heq.
  rewrite (size_union (C:=gset string) {[out_target e]}
             (adj_targets adj ∖ (R ∪ {[out_target e]}))),
    size_singleton; [lia|].
  intros x Hx%elem_of_singleton [_ Hx']%elem_of_difference.
  apply Hx'. apply elem_of_union. right. by apply elem_of_singleton.
Qed.

Lemma bfs_edges_measure depth es acc :
  (∀ e, e ∈ es → out_target e ∈ adj_targets adj) →
  (length (foldl (bfs_edge depth) acc es).2
   + size (adj_targets adj ∖ (foldl (bfs_edge depth) acc es).1)
   = length acc.2 + size (adj_targets adj ∖ acc.1))%nat.
Proof.
  revert acc. induction es as [|e es IH]; intros acc Hes; [done|].
  cbn [foldl]. rewrite IH by (intros e' He'; apply Hes; by right).
  apply bfs_edge_measure, Hes. left.
Qed.

(** With one unit of fuel for every queue entry and every target not yet
    in the set the loop ends with an empty queue, and more fuel changes
    nothing. *)
Lemma bfs_loop_enough n m R Q :
  (length Q + size (adj_targets adj ∖ R) ≤ n)%nat →
  (length Q + size (adj_targets adj ∖ R) ≤ m)%nat →
  bfs_loop n adj maxDepth R Q = bfs_loop m adj maxDepth R Q
  ∧ (bfs_loop n adj maxDepth R Q).2 = [].
Proof.
  revert m R Q. induction n as [|n IH]; intros m R Q Hn Hm.
  - destruct Q as [|[x d] Q]; [|simpl in Hn; lia]. by destruct m.
  - destruct Q as [|[x d] Q]; [by destruct m|].
    destruct m as [|m]; [simpl in Hm; lia|]. simpl in Hn, Hm. simpl.
    destruct (js_ge d maxDepth); [apply IH; lia|].
    pose proof (bfs_edges_measure d (outgoing_of adj x) (R, Q)
                  (fun e He => adj_targets_edge adj x e He)) as Hmeasure.
    destruct (foldl (bfs_edge d) (R, Q) (outgoing_of adj x)) as [R' Q'].
    simpl in Hmeasure. apply IH; lia.
Qed.

(** The loop of [extractReachableSubgraph] runs to completion. *)
Lemma bfs_run_done sourceIds : (bfs_run adj sourceIds maxDepth).2 = [].
Proof.
  unfold bfs_run.
  assert (length ((fun id => (id, 0%Z)) <$> sourceIds)
          + size (adj_targets adj ∖ list_to_set sourceIds)
          ≤ length sourceIds + size (adj_targets adj))%nat as Hle.
  { rewrite length_fmap.
    pose proof (subseteq_size (adj_targets adj ∖ list_to_set sourceIds) (adj_targets adj)
                  ltac:(set_solver)). lia. }
  by destruct (bfs_loop_enough _ _ _ _ Hle Hle).
Qed.
End BfsTermination.

Section BfsCorrect.
Variable adj : AdjacencyMap.
Variable srcs : list string.
Variable maxDepth : JsNumber.

Lemma bfs_edge_frame pre x d acc ε :
  (x, d) ∈ pre → js_ge d maxDepth = false → ε ∈ outgoing_of adj x →
  bfs_frame adj srcs maxDepth pre acc.1 acc.2 d →
  bfs_frame adj srcs maxDepth pre (bfs_edge d acc ε).1 (bfs_edge d acc ε).2 d.
Proof.
  intros Hx Hd Hε. destruct acc as [R Q]. unfold bfs_edge.
  case_bool_decide as Hin; [done|]. cbn [fst snd].
  intros (HR & Hok & (Q1 & Q2 & -> & H1 & H2) & Hb & Hs).
  destruct (Hok x d) as (Hd0 & _ & s & Hsrc & Hhops);
    [apply elem_of_app; by left|].
  unfold bfs_frame. rewrite !(app_assoc pre (Q1 ++ Q2)). split_and!.
  - intros y. rewrite (fmap_app fst (pre ++ Q1 ++ Q2)), elem_of_app.
    cbn [fmap list_fmap fst]. rewrite list_elem_of_singleton.
    rewrite elem_of_union, elem_of_singleton, HR. tauto.
  - intros y e. rewrite elem_of_app, list_elem_of_singleton.
    intros [Hy|[= -> ->]]; [by apply Hok|].
    split_and!; [lia| |].
    + right. rewrite <- Hd. f_equal. lia.
    + exists s. split; [done|].
      replace (Z.to_nat (d + 1)) with (S (Z.to_nat d)) by lia.
      exists x. split; [done|]. unfold out_neighbor. by apply list_elem_of_fmap_2.
  - exists Q1, (Q2 ++ [(out_target ε, (d + 1)%Z)]). rewrite app_assoc.
    split_and!; [done|done|].
    intros y e [Hy|[= -> ->]%list_elem_of_singleton]%elem_of_app; [by eapply H2|done].
  - intros y e [Hy|[= -> ->]%list_elem_of_singleton]%elem_of_app; [by eapply Hb|lia].
  - intros s' Hs'. apply elem_of_app. left. by apply Hs.
Qed.

Lemma bfs_edge_keeps pre d acc ε (y : string * Z) :
  y ∈ pre ++ acc.2 → y ∈ pre ++ (bfs_edge d acc ε).2.
Proof.
  destruct acc as [R Q]. unfold bfs_edge. case_bool_decide; [done|].
  cbn [fst snd]. rewrite !elem_of_app. tauto.
Qed.

Lemma bfs_edge_entry pre d acc ε :
  bfs_frame adj srcs maxDepth pre acc.1 acc.2 d →
  ∃ e', (out_target ε, e') ∈ pre ++ (bfs_edge d acc ε).2 ∧ (e' ≤ d + 1)%Z.
Proof.
  destruct acc as [R Q]. unfold bfs_edge. cbn [fst snd].
  intros (HR & _ & _ & Hb & _). case_bool_decide as Hin; cbn [fst snd].
  - apply HR in Hin. apply list_elem_of_fmap in Hin as ([y e'] & Hy & Hin).
    simpl in Hy. subst y. exists e'. split; [done|]. by eapply Hb.
  - exists (d + 1)%Z. split; [|lia]. rewrite !elem_of_app, list_elem_of_singleton.
    by right; right.
Qed.

(** What expanding the node taken from the queue achieves. *)
Lemma bfs_edges_frame pre x d R Q :
  (x, d) ∈ pre → js_ge d maxDepth = false →
  bfs_frame adj srcs maxDepth pre R Q d →
  let acc := foldl (bfs_edge d) (R, Q) (outgoing_of adj x) in
  bfs_frame adj srcs maxDepth pre acc.1 acc.2 d
  ∧ (∀ y, y ∈ pre ++ Q → y ∈ pre ++ acc.2)
  ∧ (∀ n, out_neighbor adj x n → ∃ e', (n, e') ∈ pre ++ acc.2 ∧ (e' ≤ d + 1)%Z).
Proof.
  intros Hx Hd Hframe. cbn zeta. split_and!.
  - apply (foldl_inv (fun acc => bfs_frame adj srcs maxDepth pre acc.1 acc.2 d));
      [done|].
    intros acc ε Hε. by apply (bfs_edge_frame pre x).
  - intros y Hy.
    apply (foldl_inv (fun acc => y ∈ pre ++ acc.2)); [done|].
    intros acc ε _. apply bfs_edge_keeps.
  - intros n (ε & -> & Hε)%list_elem_of_fmap.
    apply (foldl_reaches_inv_in
             (fun acc => bfs_frame adj srcs maxDepth pre acc.1 acc.2 d)
             (fun acc => ∃ e', (out_target ε, e') ∈ pre ++ acc.2 ∧ (e' ≤ d + 1)%Z)
             _ _ ε); [done| |done| |].
    + intros acc ε' Hε' Hacc. by apply (bfs_edge_frame pre x).
    + intros acc Hacc. by apply bfs_edge_entry.
    + intros acc ε' _ (e' & He' & Hle). exists e'. split; [|done].
      by apply bfs_edge_keeps.
Qed.

Lemma bfs_frame_take taken R x e Q d :
  bfs_frame adj srcs maxDepth taken R ((x, e) :: Q) d →
  bfs_frame adj srcs maxDepth (taken ++ [(x, e)]) R Q e.
Proof.
  intros (HR & Hok & (Q1 & Q2 & HQ & H1 & H2) & Hb & Hs).
  unfold bfs_frame. rewrite <- !(app_assoc taken [(x, e)] Q).
  change ([(x, e)] ++ Q) with ((x, e) :: Q).
  split_and!; [done|done| | |done].
  - destruct Q1 as [|[x1 e1] Q1].
    + simpl in HQ. subst Q2. exists Q, []. rewrite app_nil_r.
      assert (e = (d + 1)%Z) as -> by (apply (H2 x); left).
      split_and!; [done| |by intros y e' ?%elem_of_nil].
      intros y e' Hy. apply (H2 y). by right.
    + simpl in HQ. injection HQ as Hx1 He1 HQ'. subst x1 e1 Q. exists Q1, Q2.
      assert (e = d) as -> by (apply (H1 x); left).
      split_and!; [done| |done]. intros y e' Hy. apply (H1 y). by right.
  - intros y e' Hy. specialize (Hb y e' Hy).
    assert (d ≤ e)%Z; [|lia].
    destruct Q1 as [|[x1 e1] Q1].
    + simpl in HQ. subst Q2. rewrite (H2 x e); [lia|left].
    + simpl in HQ. injection HQ as Hx1 He1 HQ'. subst x1 e1 Q.
      rewrite (H1 x e); [lia|left].
Qed.

(** One iteration of the loop keeps the invariant. *)
Lemma bfs_step_inv taken R x e Q :
  bfs_inv adj srcs maxDepth taken R ((x, e) :: Q) →
  let acc := if js_ge e maxDepth then (R, Q)
             else foldl (bfs_edge e) (R, Q) (outgoing_of adj x) in
  bfs_inv adj srcs maxDepth (taken ++ [(x, e)]) acc.1 acc.2.
Proof.
  intros (d & Hframe & Hexp). apply bfs_frame_take in Hframe. cbn zeta.
  assert ((x, e) ∈ taken ++ [(x, e)]) as Hx
    by (apply elem_of_app; right; left).
  destruct (js_ge e maxDepth) eqn:Hlt; cbn [fst snd].
  - exists e. split; [done|].
    intros y e' [Hy|[= -> ->]%list_elem_of_singleton]%elem_of_app Hd n Hn;
      [|by rewrite Hlt in Hd].
    destruct (Hexp y e' Hy Hd n Hn) as (e'' & Hin & Hle').
    exists e''. split; [|done]. by rewrite <- app_assoc.
  - destruct (bfs_edges_frame (taken ++ [(x, e)]) x e R Q Hx Hlt Hframe)
      as (Hframe' & Hkeep & Hnew).
    exists e. split; [done|].
    intros y e' [Hy|[= -> ->]%list_elem_of_singleton]%elem_of_app Hd n Hn.
    + destruct (Hexp y e' Hy Hd n Hn) as (e'' & Hin & Hle').
      exists e''. split; [|done]. apply Hkeep. by rewrite <- app_assoc.
    + by apply Hnew.
Qed.

Lemma bfs_loop_inv fuel taken R Q :
  bfs_inv adj srcs maxDepth taken R Q →
  ∃ taken', bfs_inv adj srcs maxDepth taken'
              (bfs_loop fuel adj maxDepth R Q).1 (bfs_loop fuel adj maxDepth R Q).2.
Proof.
  revert taken R Q. induction fuel as [|n IH]; intros taken R Q Hinv.
  - exists taken. by destruct Q as [|[x e] Q].
  - destruct Q as [|[x e] Q]; [by exists taken|].
    apply bfs_step_inv in Hinv. cbn zeta in Hinv. simpl.
    destruct (js_ge e maxDepth); [by apply (IH _ _ _ Hinv)|].
    destruct (foldl (bfs_edge e) (R, Q) (outgoing_of adj x)) as [R' Q'].
    by apply (IH _ _ _ Hinv).
Qed.

Lemma bfs_inv_init :
  bfs_inv adj srcs maxDepth [] (list_to_set srcs) ((fun id => (id, 0%Z)) <$> srcs).
Proof.
  exists 0%Z. split; [|by intros x e ?%elem_of_nil].
  unfold bfs_frame. rewrite !app_nil_l. split_and!.
  - intros x. rewrite elem_of_list_to_set. split.
    + intros Hx. apply list_elem_of_fmap. exists (x, 0%Z). split; [done|].
      by apply (list_elem_of_fmap_2 (fun id => (id, 0%Z))).
    + intros ([y e] & -> & (s & [= -> ->] & Hs)%list_elem_of_fmap)%list_elem_of_fmap.
      done.
  - intros x e (s & [= -> ->] & Hs)%list_elem_of_fmap.
    split_and!; [lia|by left|]. by exists s.
  - exists ((fun id => (id, 0%Z)) <$> srcs), []. rewrite app_nil_r.
    split_and!; [done| |by intros x e ?%elem_of_nil].
    by intros x e (s & [= -> ->] & Hs)%list_elem_of_fmap.
  - intros x e (s & [= -> ->] & Hs)%list_elem_of_fmap. lia.
  - intros s Hs. by apply (list_elem_of_fmap_2 (fun id => (id, 0%Z))).
Qed.

(** When the queue is empty the set holds exactly the nodes in range. *)
Lemma bfs_inv_final taken R x :
  bfs_inv adj srcs maxDepth taken R [] →
  x ∈ R ↔ within adj srcs maxDepth x.
Proof.
  intros (d & (HR & Hok & _ & _ & Hs) & Hexp). rewrite app_nil_r in *.
  rewrite HR. split.
  - intros ([y e] & -> & Hin)%list_elem_of_fmap. simpl.
    destruct (Hok _ _ Hin) as (He0 & Hle & s & Hsrc & Hhops).
    exists s, (Z.to_nat e). split_and!; [done|done|].
    destruct Hle as [->|Hlt]; [by left|right].
    rewrite <- Hlt. f_equal. lia.
  - intros (s & k & Hsrc & Hhops & Hk).
    assert (∃ e, (x, e) ∈ taken ∧ (e ≤ Z.of_nat k)%Z) as (e & Hin & _).
    { clear HR. revert x Hhops Hk. induction k as [|k IH]; intros x Hhops Hk.
      - simpl in Hhops. subst x. exists 0%Z. split; [by apply Hs|lia].
      - destruct Hhops as (m & Hm & Hn).
        destruct Hk as [?|Hk]; [lia|].
        destruct (IH m Hm) as (e & Hin & Hle).
        { destruct k; [by left|right].
          apply (js_ge_false_mono _ (Z.of_nat (S (S k)) - 1)); [lia|done]. }
        destruct (Hexp m e Hin) with (n := x) as (e' & Hin' & Hle'); [|done|].
        { apply (js_ge_false_mono _ (Z.of_nat (S k) - 1)); [lia|done]. }
        exists e'. split; [done|lia]. }
    by apply (list_elem_of_fmap_2 fst _ (x, e)).
Qed.

(** The set computed by [extractReachableSubgraph]. *)
Lemma bfs_run_within x :
  x ∈ (bfs_run adj srcs maxDepth).1 ↔ within adj srcs maxDepth x.
Proof.
  destruct (bfs_loop_inv (length srcs + size (adj_targets adj)) []
              (list_to_set srcs) ((fun id => (id, 0%Z)) <$> srcs)
              bfs_inv_init) as (taken & Hinv).
  fold (bfs_run adj srcs maxDepth) in Hinv.
  rewrite bfs_run_done in Hinv. by eapply bfs_inv_final.
Qed.
End BfsCorrect.

Lemma extractReachableSubgraph_is_Some dataset sourceIds maxDepth :
  index_safe dataset → is_Some (extractReachableSubgraph dataset sourceIds maxDepth).
Proof.
  intros [adj Hadj]%buildAdjacencyMap_is_Some. unfold extractReachableSubgraph.
  rewrite Hadj. destruct (_ =? _)%Z; by eexists.
Qed.

(** X21: [extractReachableSubgraph] keeps exactly the entities that are a
    source or lie [k] edges downstream of a source with [k - 1 >= maxDepth]
    false (for an integer [maxDepth]: [k <= maxDepth]), and exactly the
    relationships that join two such nodes; its loop ends with an empty
    queue. *)
Theorem extractReachableSubgraph_exact dataset adj sourceIds maxDepth result :
  buildAdjacencyMap dataset = Some adj →
  sourceIds ≠ [] →
  extractReachableSubgraph dataset sourceIds maxDepth = Some result →
  (∀ e, e ∈ entities result ↔
        e ∈ entities dataset ∧ within adj sourceIds maxDepth (ent_id e))
  ∧ (∀ r, r ∈ relationships result ↔
          r ∈ relationships dataset
          ∧ within adj sourceIds maxDepth (rel_source r)
          ∧ within adj sourceIds maxDepth (rel_target r))
  ∧ (∀ z x, maxDepth = js_int z →
       within adj sourceIds maxDepth x ↔
       ∃ (s : string) (k : nat),
         s ∈ sourceIds ∧ hops adj k s x ∧ (k = 0%nat ∨ (Z.of_nat k ≤ z)%Z))
  ∧ (bfs_run adj sourceIds maxDepth).2 = [].
Proof.
  intros Hadj Hne. unfold extractReachableSubgraph. rewrite Hadj.
  destruct sourceIds as [|s0 ss]; [done|].
  cbn [js_length length]. change (Z.of_nat (S _) =? 0)%Z with false. cbn iota.
  intros [= <-]. simpl. split_and!.
  - intros e. rewrite list_elem_of_filter, bfs_run_within. tauto.
  - intros r. rewrite list_elem_of_filter, !bfs_run_within. tauto.
  - intros z x ->. unfold within. setoid_rewrite js_ge_int_false.
    split; intros (s & k & Hs & Hhops & Hk); exists s, k;
      (split_and!; [done..|]); destruct Hk; [by left|right; lia|by left|right; lia].
  - apply bfs_run_done.
Qed.

Lemma extractReachableSubgraph_exact_witness :
  extractReachableSubgraph chain3 ["1"] (js_int 1)
  = Some (mkDataset (plain_entity <$> ["1"; "2"]) [plain_edge "1" "2"])
  ∧ (plain_entity "3" ∈ plain_entity <$> ["1"; "2"] ↔
     plain_entity "3" ∈ entities chain3
     ∧ within (index_of chain3) ["1"] (js_int 1) (ent_id (plain_entity "3"))).
Proof.
  split; [by vm_compute|].
  refine (proj1 (extractReachableSubgraph_exact chain3 (index_of chain3) ["1"] (js_int 1)
                   (mkDataset (plain_entity <$> ["1"; "2"]) [plain_edge "1" "2"])
                   chain3_index _ _) (plain_entity "3")).
  - discriminate.
  - by vm_compute.
Defined.

(** X22: [extractReachableSubgraph] returns the dataset itself when there
    is no source; it returns on every dataset closed under its
    relationships; and whenever it returns it has only removed entities and
    relationships, kept every source entity, and the result is closed under
    its relationships if the input is. *)
Theorem extractReachableSubgraph_sound dataset sourceIds maxDepth :
  (sourceIds = [] → extractReachableSubgraph dataset sourceIds maxDepth = Some dataset)
  ∧ (closed_dataset dataset →
     is_Some (extractReachableSubgraph dataset sourceIds maxDepth))
  ∧ ∀ result, extractReachableSubgraph dataset sourceIds maxDepth = Some result →
      sublist (entities result) (entities dataset)
      ∧ sublist (relationships result) (relationships dataset)
      ∧ (∀ e, e ∈ entities dataset → ent_id e ∈ sourceIds → e ∈ entities result)
      ∧ (closed_dataset dataset → closed_dataset result).
Proof.
  split_and!.
  - by intros ->.
  - intros Hclosed. by apply extractReachableSubgraph_is_Some, closed_dataset_safe.
  - unfold extractReachableSubgraph.
    destruct sourceIds as [|s0 ss]; [by intros result [= <-]; split_and!|].
    cbn [js_length length]. change (Z.of_nat (S _) =? 0)%Z with false. cbn iota.
    destruct (buildAdjacencyMap dataset) as [adj|]; [|done].
    intros result [= <-]. simpl. split_and!; [apply sublist_filter..| |].
    + intros e He Hid. apply list_elem_of_filter. split; [|done].
      apply bfs_run_within. exists (ent_id e), 0%nat. split_and!; [done|done|by left].
    + intros Hclosed r [[Hs Ht] Hr]%list_elem_of_filter. simpl.
      destruct (Hclosed r Hr) as [Hse Hte]. split; by apply kept_entity.
Qed.

Lemma extractReachableSubgraph_sound_witness :
  extractReachableSubgraph chain3 ["1"] (js_int 1)
  = Some (mkDataset (plain_entity <$> ["1"; "2"]) [plain_edge "1" "2"])
  ∧ closed_dataset (mkDataset (plain_entity <$> ["1"; "2"]) [plain_edge "1" "2"]).
Proof.
  split; [by vm_compute|].
  refine (proj2 (proj2 (proj2 (proj2 (proj2
            (extractReachableSubgraph_sound chain3 ["1"] (js_int 1)))
            (mkDataset (plain_entity <$> ["1"; "2"]) [plain_edge "1" "2"]) _)))
            chain3_closed).
  by vm_compute.
Defined.

(** X25: the two ways to cut a dataset down to what a single source reaches
    agree as soon as depth 0 is expanded: [extractReachableSubgraph] and the
    impact branch of [filterDataset] then return the same dataset.  With
    [maxDepth = 0] they differ: the first keeps the source alone, the
    second its direct neighbours as well. *)
Theorem reachable_is_impact dataset s maxDepth :
  js_ge 0 maxDepth = false →
  extractReachableSubgraph dataset [s] maxDepth = filterDataset dataset [s] [] maxDepth.
Proof.
  intros Hd. rewrite filterDataset_cases. unfold extractReachableSubgraph, analyzeImpact.
  cbn [js_length length]. change (Z.of_nat 1 =? 0)%Z with false. cbn iota.
  destruct (buildAdjacencyMap dataset) as [adj|] eqn:Hadj; [|done].
  assert (analyzeImpact dataset [s] maxDepth
          = Some (let st := foldl (impact_source adj maxDepth)
                              (mkImpact [] [] (foldl (fun v sourceId => v ∪ {[sourceId]}) ∅ [s]) [])
                              [s] in
                  mkImpactResult (st_direct st) (st_indirect st)
                    (mkImpactMetrics
                       (js_length (st_direct st) + js_length (st_indirect st))
                       (if (0 <? js_length (st_critical st))%Z
                        then js_max ((fun path => js_length path - 1)%Z <$> st_critical st)
                        else 0%Z)
                       (js_length (st_critical st))))) as Hr
    by (unfold analyzeImpact; by rewrite Hadj).
  cbn zeta in Hr.
  assert (∀ x, x ∈ (bfs_run adj [s] maxDepth).1
               ↔ x ∈ impactedNodeIds [s]
                       (mkImpactResult
                          (st_direct (foldl (impact_source adj maxDepth)
                             (mkImpact [] [] (foldl (fun v sourceId => v ∪ {[sourceId]}) ∅ [s]) [])
                             [s]))
                          (st_indirect (foldl (impact_source adj maxDepth)
                             (mkImpact [] [] (foldl (fun v sourceId => v ∪ {[sourceId]}) ∅ [s]) [])
                             [s]))
                          (mkImpactMetrics
                             (js_length (st_direct (foldl (impact_source adj maxDepth)
                                (mkImpact [] [] (foldl (fun v sourceId => v ∪ {[sourceId]}) ∅ [s]) [])
                                [s]))
                              + js_length (st_indirect (foldl (impact_source adj maxDepth)
                                (mkImpact [] [] (foldl (fun v sourceId => v ∪ {[sourceId]}) ∅ [s]) [])
                                [s])))
                             (if (0 <? js_length (st_critical (foldl (impact_source adj maxDepth)
                                (mkImpact [] [] (foldl (fun v sourceId => v ∪ {[sourceId]}) ∅ [s]) [])
                                [s])))%Z
                              then js_max ((fun path => js_length path - 1)%Z <$>
                                     st_critical (foldl (impact_source adj maxDepth)
                                       (mkImpact [] [] (foldl (fun v sourceId => v ∪ {[sourceId]}) ∅ [s]) [])
                                       [s]))
                              else 0%Z)
                             (js_length (st_critical (foldl (impact_source adj maxDepth)
                                (mkImpact [] [] (foldl (fun v sourceId => v ∪ {[sourceId]}) ∅ [s]) [])
                                [s])))))) as Hsame.
  { intros x. rewrite bfs_run_within, (impact_single_range _ _ _ _ _ _ Hadj Hr).
    unfold within, impact_range. split.
    - intros (s' & k & ->%list_elem_of_singleton & Hhops & Hk). exists k.
      split; [done|]. destruct Hk as [->|Hk]; [left; lia|by right].
    - intros (k & Hhops & Hk). exists s, k. split_and!; [left|done|].
      destruct Hk as [Hk|Hk]; [|by right].
      destruct k as [|[|k]]; [by left|by right|lia]. }
  f_equal. f_equal; apply filter_iff; intros x _; by rewrite ?Hsame.
Qed.

Lemma reachable_is_impact_witness :
  extractReachableSubgraph chain3 ["1"] (js_int 1)
  = filterDataset chain3 ["1"] [] (js_int 1).
Proof. apply (reachable_is_impact chain3 "1" (js_int 1)). reflexivity. Defined.

(** At depth 0 the two differ. *)
Lemma reachable_is_not_impact_at_zero :
  extractReachableSubgraph chain3 ["1"] (js_int 0) = Some (mkDataset [plain_entity "1"] [])
  ∧ filterDataset chain3 ["1"] [] (js_int 0)
    = Some (mkDataset (plain_entity <$> ["1"; "2"]) [plain_edge "1" "2"]).
Proof. split; by vm_compute. Qed.

(** ** buildDataset *)

Lemma foldl_try_ext {A B} (f g : A → B → Outcome A) l a :
  (∀ a x, x ∈ l → f a x = g a x) → foldl_try f a l = foldl_try g a l.
Proof.
  revert a. induction l as [|y l IH]; intros a Hext; simpl; [done|].
  rewrite <- (Hext a y) by left. destruct (f a y); [|done].
  apply IH. intros a' x Hx. apply Hext. by right.
Qed.

Lemma existsb_rel_id k rs :
  existsb (fun r => bool_decide (rel_id r = k)) rs = bool_decide (k ∈ rel_id <$> rs).
Proof.
  induction rs as [|r rs IH]; [done|].
  cbn [existsb]. rewrite IH, fmap_cons.
  destruct (decide (rel_id r = k)) as [Heq|Hne].
  - rewrite (bool_decide_eq_true_2 _ Heq). simpl. symmetry.
    apply bool_decide_eq_true. rewrite elem_of_cons. by left.
  - rewrite (bool_decide_eq_false_2 _ Hne). simpl.
    apply bool_decide_ext. rewrite elem_of_cons. naive_solver.
Qed.

Lemma missing_pair s t :
  js_falsy s || js_falsy t
  || bool_decide (s = "undefined") || bool_decide (t = "undefined")
  || bool_decide (s = "null") || bool_decide (t = "null")
  = id_missing s || id_missing t.
Proof.
  unfold id_missing.
  by destruct (js_falsy s), (js_falsy t), (bool_decide (s = "undefined")),
    (bool_decide (t = "undefined")), (bool_decide (s = "null")),
    (bool_decide (t = "null")).
Qed.

(** *** The steps of the two phases *)

(** What a step of the entity phase does when it returns ... *)
Lemma build_entity_Ok c st row st' :
  build_entity c st row = Ok st' →
  match entity_id_of c row with
  | None => st' = st
  | Some k =>
      if bool_decide (is_Some (entityMap st !! k)) then st' = st
      else ∃ e, entity_of c row = Some e ∧ ent_id e = k
                ∧ st' = mkBuild (b_entities st ++ [e]) (b_relationships st)
                          (<[k := true]> (entityMap st)) (typeColorMap st)
  end.
Proof.
  unfold build_entity, entity_id_of, entity_of.
  destruct (js_String _) as [id|]; [|done].
  destruct (id_missing id); [by intros [= <-]|].
  case_bool_decide; [by intros [= <-]|].
  destruct (read_label _ _ _) as [label|]; [|done].
  intros [= <-]. by eexists.
Qed.

(** ... and the state it leaves behind in any case. *)
Lemma build_entity_state c st row :
  outcome_state (build_entity c st row) = st
  ∨ ∃ e, entity_of c row = Some e ∧ ¬ is_Some (entityMap st !! ent_id e)
         ∧ outcome_state (build_entity c st row)
           = mkBuild (b_entities st ++ [e]) (b_relationships st)
               (<[ent_id e := true]> (entityMap st)) (typeColorMap st).
Proof.
  unfold build_entity, entity_of.
  destruct (js_String _) as [id|]; [|by left].
  destruct (id_missing id); [by left|].
  case_bool_decide; [by left|].
  destruct (read_label _ _ _) as [label|]; [|by left].
  right. by eexists.
Qed.

Lemma build_relationship_Ok rd known st row st' :
  (∀ k, is_Some (entityMap st !! k) ↔ k ∈ known) →
  build_relationship rd st row = Ok st' →
  match relationship_of rd known row with
  | None => st' = st
  | Some r =>
      if bool_decide (rel_id r ∈ rel_id <$> b_relationships st) then st' = st
      else st' = mkBuild (b_entities st) (b_relationships st ++ [r])
                   (entityMap st) (typeColorMap st)
  end.
Proof.
  intros Hmap. unfold build_relationship, relationship_of.
  destruct (read_endpoint _ _) as [s|]; [|done].
  destruct (read_endpoint _ _) as [t|]; [|done].
  rewrite missing_pair. destruct (id_missing s || id_missing t); [by intros [= <-]|].
  rewrite existsb_rel_id.
  destruct (decide (is_Some (entityMap st !! (rd_sourceClass rd +:+ ":" +:+ s))))
    as [Hs|Hs];
    [rewrite (bool_decide_eq_true_2 _ Hs)|rewrite (bool_decide_eq_false_2 _ Hs)];
    cbn [negb orb].
  2: { intros [= <-]. rewrite bool_decide_eq_false_2; [done|].
       intros (Hin & _). by apply Hs, Hmap. }
  destruct (decide (is_Some (entityMap st !! (rd_targetClass rd +:+ ":" +:+ t))))
    as [Ht|Ht];
    [rewrite (bool_decide_eq_true_2 _ Ht)|rewrite (bool_decide_eq_false_2 _ Ht)];
    cbn [negb orb].
  2: { intros [= <-]. rewrite bool_decide_eq_false_2; [done|].
       intros (_ & Hin & _). by apply Ht, Hmap. }
  case_bool_decide as Hloop.
  { intros [= <-]. rewrite bool_decide_eq_false_2; [done|]. by intros (_ & _ & ?). }
  apply Hmap in Hs, Ht.
  rewrite (bool_decide_eq_true_2 _ (conj Hs (conj Ht Hloop))).
  simpl. case_bool_decide; by intros [= <-].
Qed.

Lemma build_relationship_state rd st row :
  outcome_state (build_relationship rd st row) = st
  ∨ ∃ r, is_Some (entityMap st !! rel_source r)
         ∧ is_Some (entityMap st !! rel_target r)
         ∧ rel_source r ≠ rel_target r
         ∧ (rel_id r ∉ rel_id <$> b_relationships st)
         ∧ outcome_state (build_relationship rd st row)
           = mkBuild (b_entities st) (b_relationships st ++ [r])
               (entityMap st) (typeColorMap st).
Proof.
  unfold build_relationship.
  destruct (read_endpoint _ _) as [s|]; [|by left].
  destruct (read_endpoint _ _) as [t|]; [|by left].
  destruct (_ || _ || _ || _ || _ || _); [by left|].
  rewrite existsb_rel_id.
  case_bool_decide as Hs; cbn [negb orb]; [|by left].
  case_bool_decide as Ht; cbn [negb orb]; [|by left].
  case_bool_decide as Hloop; [by left|].
  case_bool_decide as Hin; [by left|].
  right. eexists (mkRelationship _ _ _ _ _). simpl.
  split_and!; [exact Hs|exact Ht|exact Hloop|exact Hin|reflexivity].
Qed.

(** *** The invariant of the builder state *)

Lemma build_entity_ok c st row :
  build_ok st → build_ok (outcome_state (build_entity c st row)).
Proof.
  intros Hok.
  destruct (build_entity_state c st row) as [->|(e & _ & Hin & ->)]; [done|].
  destruct Hok as (Hnd & Hmap & Hrnd & Hrel).
  unfold build_ok; simpl. rewrite fmap_app. simpl. split_and!.
  - apply NoDup_app. split_and!; [done| |apply NoDup_singleton].
    intros x Hx ->%list_elem_of_singleton. apply Hin. by apply Hmap.
  - intros k. rewrite lookup_insert_is_Some, elem_of_app, list_elem_of_singleton, Hmap.
    destruct (decide (ent_id e = k)); naive_solver.
  - done.
  - intros r Hr. destruct (Hrel r Hr) as (? & ? & ?).
    rewrite !elem_of_app. auto.
Qed.

Lemma build_class_ok raw st c :
  build_ok st → build_ok (outcome_state (build_class raw st c)).
Proof.
  intros Hok. unfold build_class. apply (foldl_try_inv build_ok); [done|].
  intros st' row _. apply build_entity_ok.
Qed.

Lemma build_relationship_ok rd st row :
  build_ok st → build_ok (outcome_state (build_relationship rd st row)).
Proof.
  intros Hok.
  destruct (build_relationship_state rd st row)
    as [->|(r & Hs & Ht & Hne & Hin & ->)]; [done|].
  destruct Hok as (Hnd & Hmap & Hrnd & Hrel).
  unfold build_ok; simpl. rewrite fmap_app. simpl. split_and!; [done..| |].
  - apply NoDup_app. split_and!; [done| |apply NoDup_singleton].
    by intros x Hx ->%list_elem_of_singleton.
  - intros r' [Hr'| ->%list_elem_of_singleton]%elem_of_app; [by apply Hrel|].
    rewrite <- !Hmap. done.
Qed.

Lemma build_relationships_ok raw st rd :
  build_ok st → build_ok (outcome_state (build_relationships raw st rd)).
Proof.
  intros Hok. unfold build_relationships. apply (foldl_try_inv build_ok); [done|].
  intros st' row _. apply build_relationship_ok.
Qed.

Lemma build_ok_init colors : build_ok (mkBuild [] [] ∅ colors).
Proof.
  unfold build_ok; simpl. split_and!; [constructor| |constructor|].
  - intros k. rewrite lookup_empty, elem_of_nil. split; [by intros [? ?]|done].
  - by intros r ?%elem_of_nil.
Qed.

Lemma buildDataset_state_ok colors raw mapping :
  build_ok (outcome_state (buildDataset_state colors raw mapping)).
Proof.
  unfold buildDataset_state.
  pose proof (foldl_try_inv build_ok (build_class raw) (map_classes mapping)
                (mkBuild [] [] ∅ colors) (build_ok_init colors)
                (fun st c _ => build_class_ok raw st c)) as H1.
  destruct (foldl_try (build_class raw) _ _) as [st1|st1]; [|done].
  apply (foldl_try_inv build_ok); [done|].
  intros st rd _. apply build_relationships_ok.
Qed.

(** The result of [buildDataset] in terms of the state its loops end in. *)
Lemma buildDataset_Some colors rawData mapping ds :
  (buildDataset colors rawData mapping).1 = Some ds →
  ∃ st, buildDataset_state colors rawData mapping = Ok st
        ∧ ds = mkDataset (b_entities st) (b_relationships st).
Proof.
  unfold buildDataset. destruct (buildDataset_state _ _ _) as [st|st]; [|done].
  simpl. intros [= <-]. by eexists.
Qed.

(** A built dataset is closed under its relationships. *)
Lemma buildDataset_joins colors rawData mapping ds r :
  (buildDataset colors rawData mapping).1 = Some ds →
  r ∈ relationships ds →
  rel_source r ∈ ent_id <$> entities ds
  ∧ rel_target r ∈ ent_id <$> entities ds.
Proof.
  intros (st & Hst & ->)%buildDataset_Some.
  pose proof (buildDataset_state_ok colors rawData mapping) as Hok.
  rewrite Hst in Hok. destruct Hok as (_ & _ & _ & Hrel). simpl.
  intros Hr. by destruct (Hrel r Hr) as (? & ? & _).
Qed.

(** C8: every relationship of a built dataset joins two distinct entities
    of that dataset. *)
Theorem buildDataset_integrity colors rawData mapping ds r :
  (buildDataset colors rawData mapping).1 = Some ds →
  r ∈ relationships ds →
  rel_source r ∈ ent_id <$> entities ds
  ∧ rel_target r ∈ ent_id <$> entities ds
  ∧ rel_source r ≠ rel_target r.
Proof.
  intros (st & Hst & ->)%buildDataset_Some.
  pose proof (buildDataset_state_ok colors rawData mapping) as Hok.
  rewrite Hst in Hok. destruct Hok as (_ & _ & _ & Hrel). simpl. apply Hrel.
Qed.

Lemma buildDataset_parent_table :
  (buildDataset typeColorMap0 rawP mappingP).1
  = Some (mkDataset [mkEntity "c:a" "c" "a" md_empty; mkEntity "c:b" "c" "b" md_empty]
                    [mkRelationship "p:a-b" "c:a" "c:b" "p" md_empty]).
Proof. by vm_compute. Qed.

Lemma buildDataset_integrity_witness :
  let ds := mkDataset [mkEntity "c:a" "c" "a" md_empty; mkEntity "c:b" "c" "b" md_empty]
                      [mkRelationship "p:a-b" "c:a" "c:b" "p" md_empty] in
  let r := mkRelationship "p:a-b" "c:a" "c:b" "p" md_empty in
  (buildDataset typeColorMap0 rawP mappingP).1 = Some ds
  ∧ r ∈ relationships ds
  ∧ rel_source r ∈ ent_id <$> entities ds
  ∧ rel_target r ∈ ent_id <$> entities ds
  ∧ rel_source r ≠ rel_target r.
Proof.
  cbn zeta. split; [exact buildDataset_parent_table|]. split; [left|].
  refine (buildDataset_integrity typeColorMap0 rawP mappingP _ _
            buildDataset_parent_table _).
  left.
Defined.

(** *** Determinism *)

Lemma same_data_refl st : same_data st st.
Proof. done. Qed.

Lemma build_entity_same c st st' row :
  same_data st st' → same_outcome (build_entity c st row) (build_entity c st' row).
Proof.
  intros Hsame. pose proof Hsame as (He & Hr & Hm).
  unfold build_entity. rewrite Hm.
  destruct (js_String _) as [id|]; simpl; [|done].
  destruct (id_missing id); simpl; [done|].
  case_bool_decide; simpl; [done|].
  destruct (read_label _ _ _); simpl; [|done].
  unfold same_data; simpl. by rewrite He, Hr.
Qed.

Lemma build_class_same raw c st st' :
  same_data st st' → same_outcome (build_class raw st c) (build_class raw st' c).
Proof.
  intros (He & Hr & Hm). unfold build_class.
  apply (foldl_try_rel same_data); [done|].
  intros a a' row. apply build_entity_same.
Qed.

Lemma build_relationship_same rd st st' row :
  same_data st st' →
  same_outcome (build_relationship rd st row) (build_relationship rd st' row).
Proof.
  intros Hsame. pose proof Hsame as (He & Hr & Hm).
  unfold build_relationship. rewrite Hm, Hr.
  destruct (read_endpoint _ _) as [s|]; simpl; [|done].
  destruct (read_endpoint _ _) as [t|]; simpl; [|done].
  destruct (_ || _ || _ || _ || _ || _); simpl; [done|].
  destruct (_ || _); simpl; [done|].
  case_bool_decide; simpl; [done|].
  destruct (existsb _ _); simpl; [done|].
  unfold same_data; simpl. by rewrite He.
Qed.

Lemma build_relationships_same raw rd st st' :
  same_data st st' →
  same_outcome (build_relationships raw st rd) (build_relationships raw st' rd).
Proof.
  intros Hsame. unfold build_relationships.
  apply (foldl_try_rel same_data); [done|].
  intros a a' row. apply build_relationship_same.
Qed.

Lemma buildDataset_state_same colors colors' raw mapping :
  same_outcome (buildDataset_state colors raw mapping)
               (buildDataset_state colors' raw mapping).
Proof.
  unfold buildDataset_state.
  pose proof (foldl_try_rel same_data (build_class raw) (build_class raw)
                (map_classes mapping) (mkBuild [] [] ∅ colors) (mkBuild [] [] ∅ colors')
                ltac:(done) (fun a a' c H => build_class_same raw c a a' H)) as H1.
  destruct (foldl_try (build_class raw) (mkBuild [] [] ∅ colors) _) as [st1|st1],
    (foldl_try (build_class raw) (mkBuild [] [] ∅ colors') _) as [st1'|st1'];
    try done.
  apply (foldl_try_rel same_data); [done|].
  intros a a' rd. apply build_relationships_same.
Qed.

Lemma buildDataset_deterministic colors colors' raw mapping :
  (buildDataset colors' raw mapping).1 = (buildDataset colors raw mapping).1.
Proof.
  unfold buildDataset.
  pose proof (buildDataset_state_same colors colors' raw mapping) as Hsame.
  destruct (buildDataset_state colors raw mapping) as [st|st],
    (buildDataset_state colors' raw mapping) as [st'|st']; try done.
  destruct Hsame as (-> & -> & _). done.
Qed.

(** *** Repeated rows *)

Lemma build_entity_entityMap_mono c st row st' k :
  build_entity c st row = Ok st' →
  is_Some (entityMap st !! k) → is_Some (entityMap st' !! k).
Proof.
  intros Hst Hk. apply build_entity_Ok in Hst.
  destruct (entity_id_of c row) as [k'|]; [|by subst].
  case_bool_decide; [by subst|]. destruct Hst as (e & _ & _ & ->). simpl.
  rewrite lookup_insert_is_Some. destruct (decide (k' = k)); auto.
Qed.

(** A later row with the id of an earlier one adds no entity. *)
Lemma build_entities_absorb c r r' st l1 l2 l3 :
  js_String (js_get r' (cls_sourceColumn c)) = js_String (js_get r (cls_sourceColumn c)) →
  foldl_try (build_entity c) st (l1 ++ r :: l2 ++ r' :: l3)
  = foldl_try (build_entity c) st (l1 ++ r :: l2 ++ l3).
Proof.
  intros Hid.
  apply (foldl_try_absorb (fun st =>
           ∃ id, js_String (js_get r (cls_sourceColumn c)) = Some id
                 ∧ (id_missing id = true
                    ∨ is_Some (entityMap st !! (cls_id c +:+ ":" +:+ id))))).
  - intros a a'. unfold build_entity.
    destruct (js_String (js_get r (cls_sourceColumn c))) as [id|]; [|done].
    intros Hok. exists id. split; [done|].
    destruct (id_missing id); [by left|]. right. revert Hok.
    case_bool_decide; [by intros [= <-]|].
    destruct (read_label _ _ _); [|done]. intros [= <-]. simpl.
    by rewrite lookup_insert_eq.
  - intros a x a' (id & Hsome & Hid') Hok. exists id. split; [done|].
    destruct Hid' as [?|Hin]; [by left|right].
    by apply (build_entity_entityMap_mono c a x a').
  - intros a (id & Hsome & Hid'). unfold build_entity. rewrite Hid, Hsome.
    destruct Hid' as [->|Hin]; [done|].
    destruct (id_missing id); [done|]. by rewrite bool_decide_eq_true_2.
Qed.

Lemma build_relationship_keeps rd st row :
  entityMap (outcome_state (build_relationship rd st row)) = entityMap st
  ∧ b_entities (outcome_state (build_relationship rd st row)) = b_entities st
  ∧ typeColorMap (outcome_state (build_relationship rd st row)) = typeColorMap st
  ∧ (∀ k, k ∈ rel_id <$> b_relationships st →
          k ∈ rel_id <$> b_relationships (outcome_state (build_relationship rd st row))).
Proof.
  destruct (build_relationship_state rd st row) as [->|(r & _ & _ & _ & _ & ->)];
    [done|].
  simpl. split_and!; [done..|].
  intros k Hk. rewrite fmap_app, elem_of_app. by left.
Qed.

(** A repeated row adds no relationship. *)
Lemma build_relationships_absorb rd r st l1 l2 l3 :
  foldl_try (build_relationship rd) st (l1 ++ r :: l2 ++ r :: l3)
  = foldl_try (build_relationship rd) st (l1 ++ r :: l2 ++ l3).
Proof.
  apply (foldl_try_absorb (fun st => build_relationship rd st r = Ok st)).
  - intros a a' Hok.
    pose proof (build_relationship_keeps rd a r) as (Hm & _ & _ & _).
    rewrite Hok in Hm. simpl in Hm.
    revert Hok. unfold build_relationship. rewrite Hm.
    destruct (read_endpoint r (rd_sourceColumn rd)) as [s|]; [|done].
    destruct (read_endpoint r (rd_targetColumn rd)) as [t|]; [|done].
    rewrite !missing_pair, !existsb_rel_id.
    destruct (id_missing s || id_missing t); [done|].
    destruct (negb _ || negb _); [done|].
    destruct (bool_decide (_ +:+ _ = _ +:+ _)); [done|].
    destruct (decide (rd_id rd +:+ ":" +:+ s +:+ "-" +:+ t ∈ rel_id <$> b_relationships a))
      as [Hin|Hin].
    + rewrite (bool_decide_eq_true_2 _ Hin). intros [= <-].
      by rewrite (bool_decide_eq_true_2 _ Hin).
    + rewrite (bool_decide_eq_false_2 _ Hin). intros [= <-]. simpl.
      rewrite bool_decide_eq_true_2; [done|].
      rewrite fmap_app, elem_of_app. right. left.
  - intros a x a' Hnop Hok.
    pose proof (build_relationship_keeps rd a x) as (Hm & _ & _ & Hrels).
    rewrite Hok in Hm, Hrels. simpl in Hm, Hrels.
    revert Hnop. unfold build_relationship. rewrite Hm.
    destruct (read_endpoint r (rd_sourceColumn rd)) as [s|]; [|done].
    destruct (read_endpoint r (rd_targetColumn rd)) as [t|]; [|done].
    rewrite !missing_pair, !existsb_rel_id.
    destruct (id_missing s || id_missing t); [done|].
    destruct (negb _ || negb _); [done|].
    destruct (bool_decide (_ +:+ _ = _ +:+ _)); [done|].
    destruct (decide (rd_id rd +:+ ":" +:+ s +:+ "-" +:+ t ∈ rel_id <$> b_relationships a))
      as [Hin|Hin].
    + intros _. by rewrite bool_decide_eq_true_2 by by apply Hrels.
    + rewrite (bool_decide_eq_false_2 _ Hin). intros [= Heq]. exfalso.
      apply (f_equal (fun st => length (b_relationships st))) in Heq.
      simpl in Heq. rewrite length_app in Heq. simpl in Heq. lia.
  - done.
Qed.

Lemma build_class_keeps raw st c :
  b_relationships (outcome_state (build_class raw st c)) = b_relationships st.
Proof.
  unfold build_class.
  apply (foldl_try_inv (fun st' => b_relationships st' = b_relationships st)); [done|].
  intros st' row _ <-.
  by destruct (build_entity_state c st' row) as [->|(e & _ & _ & ->)].
Qed.

Lemma build_relationships_keeps raw st rd :
  entityMap (outcome_state (build_relationships raw st rd)) = entityMap st
  ∧ b_entities (outcome_state (build_relationships raw st rd)) = b_entities st
  ∧ typeColorMap (outcome_state (build_relationships raw st rd)) = typeColorMap st.
Proof.
  unfold build_relationships.
  apply (foldl_try_inv (fun st' => entityMap st' = entityMap st
                                   ∧ b_entities st' = b_entities st
                                   ∧ typeColorMap st' = typeColorMap st)); [done|].
  intros st' row _ (<- & <- & <-).
  by destruct (build_relationship_keeps rd st' row) as (? & ? & ? & _).
Qed.

(** The entities are those of the first phase, whatever the second does. *)
Lemma buildDataset_state_entities colors raw mapping :
  b_entities (outcome_state (buildDataset_state colors raw mapping))
  = b_entities (outcome_state
                  (foldl_try (build_class raw) (mkBuild [] [] ∅ colors)
                             (map_classes mapping))).
Proof.
  unfold buildDataset_state.
  destruct (foldl_try (build_class raw) _ _) as [st1|st1]; [|done]. simpl.
  apply (foldl_try_inv (fun st => b_entities st = b_entities st1)); [done|].
  intros st rd _ <-. by destruct (build_relationships_keeps raw st rd) as (_ & ? & _).
Qed.

Lemma buildDataset_state_absorb colors cols l1 r l2 l3 mapping :
  buildDataset_state colors (mkRaw cols (l1 ++ r :: l2 ++ r :: l3)) mapping
  = buildDataset_state colors (mkRaw cols (l1 ++ r :: l2 ++ l3)) mapping.
Proof.
  unfold buildDataset_state.
  rewrite (foldl_try_ext (build_class (mkRaw cols (l1 ++ r :: l2 ++ r :: l3)))
             (build_class (mkRaw cols (l1 ++ r :: l2 ++ l3)))).
  2: { intros st c _. unfold build_class; simpl. by apply build_entities_absorb. }
  destruct (foldl_try _ _ _) as [st1|st1]; [|done].
  apply foldl_try_ext. intros st rd _. unfold build_relationships; simpl.
  apply build_relationships_absorb.
Qed.

(** *** First occurrence wins *)

Lemma first_with_app {A} (key : A → option string) (l l' : list A) x k :
  first_with key l x k → first_with key (l ++ l') x k.
Proof.
  intros (l1 & l2 & -> & Hk & Hfirst). exists l1, (l2 ++ l').
  by rewrite <- app_assoc.
Qed.

Lemma first_with_snoc {A} (key : A → option string) (l : list A) x k :
  (∀ y, y ∈ l → key y ≠ Some k) → key x = Some k → first_with key (l ++ [x]) x k.
Proof. intros Hfirst Hk. by exists l, []. Qed.

Lemma first_with_elem {A} (key : A → option string) (l : list A) x k :
  first_with key l x k → x ∈ l ∧ key x = Some k.
Proof.
  intros (l1 & l2 & -> & Hk & _). split; [|done].
  rewrite elem_of_app, elem_of_cons. auto.
Qed.

Lemma first_with_unique {A} (key : A → option string) (l : list A) x y k :
  first_with key l x k → first_with key l y k → x = y.
Proof.
  intros (l1 & l2 & -> & Hx & Hfx) (l1' & l2' & Heq & Hy & Hfy).
  revert l1' Heq Hfy. induction l1 as [|a l1 IH]; intros l1' Heq Hfy.
  - destruct l1' as [|a' l1']; simpl in Heq; [by injection Heq|].
    injection Heq as -> _. exfalso. apply (Hfy a'); [left|done].
  - destruct l1' as [|a' l1']; simpl in Heq.
    + injection Heq as -> _. exfalso. apply (Hfx y); [left|done].
    + injection Heq as -> Heq. apply (IH (fun z Hz => Hfx z ltac:(by right)) l1' Heq).
      intros z Hz. apply Hfy. by right.
Qed.

Lemma entity_of_id c row e : entity_of c row = Some e → entity_id_of c row = Some (ent_id e).
Proof.
  unfold entity_of, entity_id_of.
  destruct (js_String _) as [id|]; [|done].
  destruct (id_missing id); [done|].
  destruct (read_label _ _ _); [|done]. by intros [= <-].
Qed.

(** One step of the entity phase against the pairs processed. *)
Lemma build_entity_from pre c st row st' :
  build_ok st → entities_from pre (b_entities st) →
  build_entity c st row = Ok st' →
  entities_from (pre ++ [(c, row)]) (b_entities st').
Proof.
  intros (_ & Hmap & _ & _) [Hfrom Hall] Hst. apply build_entity_Ok in Hst.
  assert (entity_key (c, row) = entity_id_of c row) as Hkey by done.
  assert (∀ e, e ∈ b_entities st →
            ∃ c' row', first_with entity_key (pre ++ [(c, row)]) (c', row') (ent_id e)
                       ∧ entity_of c' row' = Some e) as Hold.
  { intros e He. destruct (Hfrom e He) as (c' & row' & Hf & Hof).
    exists c', row'. split; [by apply first_with_app|done]. }
  destruct (entity_id_of c row) as [k|] eqn:Hid.
  - case_bool_decide as Hhas.
    + subst st'. split; [exact Hold|].
      intros p k' [Hp| ->%list_elem_of_singleton]%elem_of_app Hk'; [by eapply Hall|].
      rewrite Hkey in Hk'. injection Hk' as <-. by apply Hmap.
    + destruct Hst as (e & Hof & <- & ->). simpl. split.
      * intros e' [He'| ->%list_elem_of_singleton]%elem_of_app; [by apply Hold|].
        exists c, row. split; [|done]. apply first_with_snoc; [|done].
        intros y Hy Hky. apply Hhas, Hmap. by eapply Hall.
      * intros p k' [Hp| ->%list_elem_of_singleton]%elem_of_app Hk';
          rewrite fmap_app, elem_of_app; [left; by eapply Hall|right].
        rewrite Hkey in Hk'. injection Hk' as <-. left.
  - subst st'. split; [exact Hold|].
    intros p k' [Hp| ->%list_elem_of_singleton]%elem_of_app Hk'; [by eapply Hall|].
    by rewrite Hkey in Hk'.
Qed.

Lemma build_class_from raw pre c st st' :
  build_ok st → entities_from pre (b_entities st) →
  build_class raw st c = Ok st' →
  build_ok st'
  ∧ entities_from (pre ++ ((fun row => (c, row)) <$> rows raw)) (b_entities st').
Proof.
  intros Hok Hfrom. unfold build_class.
  apply (foldl_try_prefix_inv
           (fun l1 a => build_ok a
                        ∧ entities_from (pre ++ ((fun row => (c, row)) <$> l1))
                            (b_entities a))).
  - rewrite app_nil_r. done.
  - intros l1 x a a' [Ha Hfa] Hstep. split.
    + pose proof (build_entity_ok c a x Ha) as Hok'. by rewrite Hstep in Hok'.
    + rewrite fmap_app, app_assoc. by apply (build_entity_from _ c a).
Qed.

Lemma build_classes_from colors raw cs st' :
  foldl_try (build_class raw) (mkBuild [] [] ∅ colors) cs = Ok st' →
  build_ok st'
  ∧ entities_from (c ← cs; (fun row => (c, row)) <$> rows raw) (b_entities st').
Proof.
  apply (foldl_try_prefix_inv
           (fun cs1 a => build_ok a
                         ∧ entities_from (c ← cs1; (fun row => (c, row)) <$> rows raw)
                             (b_entities a))).
  - split; [apply build_ok_init|]. split; [by intros e ?%elem_of_nil|].
    by intros p k ?%elem_of_nil.
  - intros cs1 c a a' [Ha Hfa] Hstep.
    rewrite bind_app. simpl. rewrite app_nil_r.
    by apply (build_class_from raw _ c a).
Qed.

Lemma relationship_of_sound rd known row r :
  relationship_of rd known row = Some r →
  rel_source r ∈ known ∧ rel_target r ∈ known ∧ rel_source r ≠ rel_target r.
Proof.
  unfold relationship_of.
  destruct (read_endpoint _ _) as [s|]; [|done].
  destruct (read_endpoint _ _) as [t|]; [|done].
  destruct (_ || _); [done|]. case_bool_decide as H; [|done].
  by intros [= <-].
Qed.

(** One step of the relationship phase against the pairs processed. *)
Lemma build_relationship_from known pre rd st row st' :
  (∀ k, is_Some (entityMap st !! k) ↔ k ∈ known) →
  relationships_from known pre (b_relationships st) →
  build_relationship rd st row = Ok st' →
  relationships_from known (pre ++ [(rd, row)]) (b_relationships st').
Proof.
  intros Hmap [Hfrom Hall] Hst. apply (build_relationship_Ok rd known) in Hst; [|done].
  assert (relationship_key known (rd, row) = rel_id <$> relationship_of rd known row)
    as Hkey by done.
  assert (∀ r, r ∈ b_relationships st →
            ∃ rd' row', first_with (relationship_key known) (pre ++ [(rd, row)])
                          (rd', row') (rel_id r)
                        ∧ relationship_of rd' known row' = Some r) as Hold.
  { intros r Hr. destruct (Hfrom r Hr) as (rd' & row' & Hf & Hof).
    exists rd', row'. split; [by apply first_with_app|done]. }
  destruct (relationship_of rd known row) as [r|] eqn:Hof.
  - case_bool_decide as Hhas.
    + subst st'. split; [done|].
      intros p k' [Hp| ->%list_elem_of_singleton]%elem_of_app Hk'; [by eapply Hall|].
      rewrite Hkey in Hk'. simpl in Hk'. by injection Hk' as <-.
    + subst st'. simpl. split.
      * intros r' [Hr'| ->%list_elem_of_singleton]%elem_of_app; [by apply Hold|].
        exists rd, row. split; [|done]. apply first_with_snoc.
        -- intros y Hy Hky. apply Hhas. by eapply Hall.
        -- by rewrite Hkey.
      * intros p k' [Hp| ->%list_elem_of_singleton]%elem_of_app Hk';
          rewrite fmap_app, elem_of_app; [left; by eapply Hall|right].
        rewrite Hkey in Hk'. simpl in Hk'. injection Hk' as <-. left.
  - subst st'. split; [done|].
    intros p k' [Hp| ->%list_elem_of_singleton]%elem_of_app Hk'; [by eapply Hall|].
    by rewrite Hkey in Hk'.
Qed.

Lemma build_relationships_from raw known pre rd st st' :
  (∀ k, is_Some (entityMap st !! k) ↔ k ∈ known) →
  relationships_from known pre (b_relationships st) →
  build_relationships raw st rd = Ok st' →
  entityMap st' = entityMap st ∧ b_entities st' = b_entities st
  ∧ relationships_from known (pre ++ ((fun row => (rd, row)) <$> rows raw))
      (b_relationships st').
Proof.
  intros Hmap Hfrom. unfold build_relationships.
  apply (foldl_try_prefix_inv
           (fun l1 a => entityMap a = entityMap st ∧ b_entities a = b_entities st
                        ∧ relationships_from known
                            (pre ++ ((fun row => (rd, row)) <$> l1))
                            (b_relationships a))).
  - rewrite app_nil_r. done.
  - intros l1 x a a' (Hm & He & Hfa) Hstep.
    pose proof (build_relationship_keeps rd a x) as (Hm' & He' & _).
    rewrite Hstep in Hm', He'. simpl in Hm', He'.
    split_and!; [congruence..|].
    rewrite fmap_app, app_assoc. apply (build_relationship_from _ _ rd a); [|done..].
    intros k. by rewrite Hm.
Qed.

Lemma build_definitions_from raw known rds st st' :
  (∀ k, is_Some (entityMap st !! k) ↔ k ∈ known) →
  b_relationships st = [] →
  foldl_try (build_relationships raw) st rds = Ok st' →
  entityMap st' = entityMap st ∧ b_entities st' = b_entities st
  ∧ relationships_from known (rd ← rds; (fun row => (rd, row)) <$> rows raw)
      (b_relationships st').
Proof.
  intros Hmap Hnil.
  apply (foldl_try_prefix_inv
           (fun rds1 a => entityMap a = entityMap st ∧ b_entities a = b_entities st
                          ∧ relationships_from known
                              (rd ← rds1; (fun row => (rd, row)) <$> rows raw)
                              (b_relationships a))).
  - split_and!; [done..|]. rewrite Hnil. split; [by intros e ?%elem_of_nil|].
    by intros p k ?%elem_of_nil.
  - intros rds1 rd a a' (Hm & He & Hfa) Hstep.
    rewrite bind_app. simpl. rewrite app_nil_r.
    destruct (build_relationships_from raw known
                (rd' ← rds1; (fun row => (rd', row)) <$> rows raw) rd a a')
      as (Hm' & He' & Hfa'); [intros k; by rewrite Hm|done..|].
    split_and!; [congruence..|done].
Qed.

(** Where the content of a built dataset comes from. *)
Lemma buildDataset_from colors rawData mapping ds :
  (buildDataset colors rawData mapping).1 = Some ds →
  entities_from (class_rows rawData mapping) (entities ds)
  ∧ relationships_from (ent_id <$> entities ds) (definition_rows rawData mapping)
      (relationships ds).
Proof.
  intros (st & Hst & ->)%buildDataset_Some. simpl.
  unfold buildDataset_state in Hst.
  destruct (foldl_try (build_class rawData) _ _) as [st1|st1] eqn:H1; [|done].
  destruct (build_classes_from _ _ _ _ H1) as [Hok1 Hfrom1].
  assert (b_relationships st1 = []) as Hnil.
  { pose proof (foldl_try_inv (fun a => b_relationships a = [])
                  (build_class rawData) (map_classes mapping)
                  (mkBuild [] [] ∅ colors) eq_refl) as Hinv.
    rewrite H1 in Hinv. apply Hinv. intros a c _ <-. apply build_class_keeps. }
  destruct (build_definitions_from rawData (ent_id <$> b_entities st1)
              (map_relationships mapping) st1 st) as (_ & He & Hfrom2);
    [by destruct Hok1 as (_ & ? & _)|done..|].
  rewrite He. split; done.
Qed.

(** C7: [buildDataset] is deterministic and deduplicating.  Its result is
    the same whatever the static colour table holds, so a second call with
    the same arguments gives it again, and a row repeated later in the
    input changes nothing.  When it returns a dataset, entity ids and
    relationship ids are pairwise distinct, and the first occurrence wins:
    for every id, the entity of the dataset is the one built from the
    first pair of a class and a row that yields this id, and every pair
    that yields an id is represented by an entity; the same holds of the
    relationships; and a later row that only repeats the ids of an earlier
    one leaves the entities as they are. *)
Theorem buildDataset_dedup colors rawData mapping :
  (∀ colors', (buildDataset colors' rawData mapping).1
              = (buildDataset colors rawData mapping).1)
  ∧ (buildDataset (buildDataset colors rawData mapping).2 rawData mapping).1
    = (buildDataset colors rawData mapping).1
  ∧ (∀ l1 r l2 l3, rows rawData = l1 ++ r :: l2 ++ l3 →
       (buildDataset colors (mkRaw (columns rawData) (l1 ++ r :: l2 ++ r :: l3))
          mapping).1
       = (buildDataset colors rawData mapping).1)
  ∧ ∀ ds, (buildDataset colors rawData mapping).1 = Some ds →
      NoDup (ent_id <$> entities ds)
      ∧ NoDup (rel_id <$> relationships ds)
      ∧ (∀ c row k,
           first_with entity_key (class_rows rawData mapping) (c, row) k →
           ∃ e, entity_of c row = Some e ∧ ent_id e = k ∧ e ∈ entities ds)
      ∧ (∀ e, e ∈ entities ds →
           ∃ c row, first_with entity_key (class_rows rawData mapping) (c, row) (ent_id e)
                    ∧ entity_of c row = Some e)
      ∧ (∀ rd row k,
           first_with (relationship_key (ent_id <$> entities ds))
             (definition_rows rawData mapping) (rd, row) k →
           ∃ r, relationship_of rd (ent_id <$> entities ds) row = Some r
                ∧ rel_id r = k ∧ r ∈ relationships ds)
      ∧ (∀ r, r ∈ relationships ds →
           ∃ rd row,
             first_with (relationship_key (ent_id <$> entities ds))
               (definition_rows rawData mapping) (rd, row) (rel_id r)
             ∧ relationship_of rd (ent_id <$> entities ds) row = Some r)
      ∧ (∀ l1 r r' l2 l3 ds',
           rows rawData = l1 ++ r :: l2 ++ l3 →
           same_ids (map_classes mapping) r r' →
           (buildDataset colors (mkRaw (columns rawData) (l1 ++ r :: l2 ++ r' :: l3))
              mapping).1 = Some ds' →
           entities ds' = entities ds).
Proof.
  split_and!.
  - intros colors'. apply buildDataset_deterministic.
  - apply buildDataset_deterministic.
  - intros l1 r l2 l3 Hrows. unfold buildDataset.
    rewrite buildDataset_state_absorb.
    by destruct rawData as [cols rws]; simpl in *; subst rws.
  - intros ds Hds.
    destruct (buildDataset_from _ _ _ _ Hds) as [[Hefrom Heall] [Hrfrom Hrall]].
    pose proof Hds as (st & Hst & ->)%buildDataset_Some.
    pose proof (buildDataset_state_ok colors rawData mapping) as Hok.
    rewrite Hst in Hok. destruct Hok as (Hnd & _ & Hrnd & _). simpl in *.
    split_and!; [done|done| |done| |done|].
    + intros c row k Hfirst.
      destruct (first_with_elem _ _ _ _ Hfirst) as [Hin Hkey].
      destruct (proj1 (list_elem_of_fmap _ _ _) (Heall _ _ Hin Hkey)) as (e & -> & He).
      destruct (Hefrom e He) as (c' & row' & Hfirst' & Hof).
      pose proof (first_with_unique _ _ _ _ _ Hfirst Hfirst') as [= <- <-].
      by exists e.
    + intros rd row k Hfirst.
      destruct (first_with_elem _ _ _ _ Hfirst) as [Hin Hkey].
      destruct (proj1 (list_elem_of_fmap _ _ _) (Hrall _ _ Hin Hkey)) as (r & -> & Hr).
      destruct (Hrfrom r Hr) as (rd' & row' & Hfirst' & Hof).
      pose proof (first_with_unique _ _ _ _ _ Hfirst Hfirst') as [= <- <-].
      by exists r.
    + intros l1 r r' l2 l3 ds' Hrows Hids (st' & Hst' & ->)%buildDataset_Some. simpl.
      pose proof (buildDataset_state_entities colors
                    (mkRaw (columns rawData) (l1 ++ r :: l2 ++ r' :: l3)) mapping) as He'.
      pose proof (buildDataset_state_entities colors rawData mapping) as He.
      rewrite Hst' in He'. rewrite Hst in He. simpl in He, He'. rewrite He, He'.
      do 2 f_equal. apply foldl_try_ext. intros a c Hc.
      unfold build_class; simpl. rewrite Hrows.
      apply build_entities_absorb. by apply Hids.
Qed.

(** Scenario D: two rows with the id e1 give the single entity class:e1,
    labelled by the first row. *)
Lemma scenario_D_first_wins :
  (buildDataset typeColorMap0 rawD mappingD).1
  = Some (mkDataset [mkEntity "class:e1" "class" "Alice" md_empty] []).
Proof. by vm_compute. Qed.

Lemma scenario_D_first_pair :
  first_with entity_key (class_rows rawD mappingD) (classD, rowD1) "class:e1".
Proof.
  exists [], [(classD, rowD2)]. split_and!; [done|by vm_compute|].
  by intros y ?%elem_of_nil.
Qed.

Lemma buildDataset_dedup_witness :
  (buildDataset typeColorMap0 rawD mappingD).1
  = Some (mkDataset [mkEntity "class:e1" "class" "Alice" md_empty] [])
  ∧ first_with entity_key (class_rows rawD mappingD) (classD, rowD1) "class:e1"
  ∧ ∃ e, entity_of classD rowD1 = Some e ∧ ent_id e = "class:e1"
         ∧ e ∈ [mkEntity "class:e1" "class" "Alice" md_empty].
Proof.
  split; [exact scenario_D_first_wins|]. split; [exact scenario_D_first_pair|].
  exact (proj1 (proj2 (proj2
           (proj2 (proj2 (proj2 (buildDataset_dedup typeColorMap0 rawD mappingD)))
              _ scenario_D_first_wins)))
           classD rowD1 "class:e1" scenario_D_first_pair).
Defined.

(** * Further properties of the services *)

(** ** The adjacency index *)

(** X1: [buildAdjacencyMap] returns exactly when no relationship it takes
    up has an end that is no entity id and still reads as a value of the
    map; when it returns, the map holds a record for exactly the ids of the
    entities, the outgoing list of an entity lists, in dataset order, the
    relationships that leave it and have two non-empty ends (their targets
    need not be entities), and the keys that are no entity ids and read as
    another value are the inherited ones. *)
Theorem adjacency_index_outgoing dataset :
  (is_Some (buildAdjacencyMap dataset) ↔ index_safe dataset)
  ∧ ∀ adj k, buildAdjacencyMap dataset = Some adj →
      (is_Some (adj_stored adj k) ↔ k ∈ ent_id <$> entities dataset)
      ∧ outgoing_of adj k =
        (if decide (k ∈ ent_id <$> entities dataset)
         then (fun r => mkOut (rel_target r) (rel_id r))
                <$> filter (adds_edge k) (relationships dataset)
         else [])
      ∧ (adj_get adj k = SlotOther ↔ shadowed dataset k)
      ∧ (adj_truthy adj k = true ↔
         k ∈ ent_id <$> entities dataset ∨ shadowed dataset k).
Proof.
  split; [apply buildAdjacencyMap_is_Some|].
  intros adj k Hadj. split_and!.
  - by apply index_stored.
  - by apply index_outgoing.
  - by apply index_other.
  - by apply index_truthy.
Qed.

(** X2: the outgoing and the incoming lists of the index describe the same
    edges: between two entities, [e] is listed as an edge to [b] under [a]
    exactly when it is listed as an edge from [a] under [b]. *)
Theorem adjacency_index_symmetric dataset adj a b e :
  buildAdjacencyMap dataset = Some adj →
  a ∈ ent_id <$> entities dataset →
  b ∈ ent_id <$> entities dataset →
  mkOut b e ∈ outgoing_of adj a ↔ mkIn a e ∈ incoming_of adj b.
Proof.
  intros Hadj Ha Hb.
  rewrite (index_outgoing _ _ Hadj), (index_incoming _ _ Hadj).
  rewrite !decide_True by done. rewrite !list_elem_of_fmap.
  unfold adds_edge, takes_edge. split.
  - intros (r & [= -> ->] & ((Hs & Ht & <-) & Hr)%list_elem_of_filter).
    exists r. split; [done|]. by apply list_elem_of_filter.
  - intros (r & [= -> ->] & ((Hs & Ht & <-) & Hr)%list_elem_of_filter).
    exists r. split; [done|]. by apply list_elem_of_filter.
Qed.

Lemma adjacency_index_symmetric_witness :
  mkOut "2" "1->2" ∈ outgoing_of (index_of chain3) "1"
  ↔ mkIn "1" "1->2" ∈ incoming_of (index_of chain3) "2".
Proof.
  apply (adjacency_index_symmetric chain3 (index_of chain3) "1" "2" "1->2" chain3_index);
    elem_of_concrete.
Defined.

(** ** The pipeline *)

(** X14: the pipeline of the application keeps its datasets well formed: a
    dataset built by [buildDataset] joins only entities it contains and
    names its relationships uniquely; on such a dataset the filters, by ids
    or by types, return, and their results are well formed in the same
    way. *)
Theorem built_then_filtered colors rawData mapping built sourceIds targets maxDepth :
  (buildDataset colors rawData mapping).1 = Some built →
  closed_dataset built ∧ unique_relationship_ids built
  ∧ (∃ result, filterDataset built sourceIds targets maxDepth = Some result
               ∧ closed_dataset result ∧ unique_relationship_ids result)
  ∧ (∃ result, filterByNodeTypes built sourceIds targets maxDepth = Some result
               ∧ closed_dataset result ∧ unique_relationship_ids result).
Proof.
  intros Hbuilt. pose proof Hbuilt as (st & Hst & ->)%buildDataset_Some.
  pose proof (buildDataset_state_ok colors rawData mapping) as Hok.
  rewrite Hst in Hok. destruct Hok as (_ & _ & Hrnd & Hrel).
  set (built := mkDataset (b_entities st) (b_relationships st)).
  assert (closed_dataset built) as Hclosed.
  { intros r Hr. destruct (Hrel r Hr) as (? & ? & _). done. }
  assert (unique_relationship_ids built) as Huniq by exact Hrnd.
  assert (∀ src tgt, ∃ result, filterDataset built src tgt maxDepth = Some result
                     ∧ closed_dataset result ∧ unique_relationship_ids result)
    as Hfilter.
  { intros src tgt.
    destruct (filterDataset_is_Some built src tgt maxDepth) as [result Hres];
      [by apply closed_dataset_safe|].
    exists result. split_and!; [done|by apply (filterDataset_closed _ _ _ _ _ Hres)|].
    eapply sublist_unique_ids; [|exact Huniq].
    by destruct (filterDataset_sublists _ _ _ _ _ Hres). }
  split_and!; [done|done|apply Hfilter|].
  unfold filterByNodeTypes. destruct (_ || _); [|apply Hfilter].
  by exists built.
Qed.

Lemma built_then_filtered_witness :
  let built := mkDataset [mkEntity "c:a" "c" "a" md_empty; mkEntity "c:b" "c" "b" md_empty]
                         [mkRelationship "p:a-b" "c:a" "c:b" "p" md_empty] in
  (buildDataset typeColorMap0 rawP mappingP).1 = Some built
  ∧ closed_dataset built ∧ unique_relationship_ids built
  ∧ (∃ result, filterDataset built ["c:a"] [] (js_int 5) = Some result
               ∧ closed_dataset result ∧ unique_relationship_ids result)
  ∧ (∃ result, filterByNodeTypes built ["c:a"] [] (js_int 5) = Some result
               ∧ closed_dataset result ∧ unique_relationship_ids result).
Proof.
  cbn zeta. split; [exact buildDataset_parent_table|].
  exact (built_then_filtered typeColorMap0 rawP mappingP _ ["c:a"] [] (js_int 5)
           buildDataset_parent_table).
Defined.

(** ** The builder: metadata *)





(** A listed column that the row only inherits is copied, and a listed
    [__proto__] is not: the row of Scenario D read at [toString] and at
    [__proto__]. *)
Lemma extract_metadata_inherited :
  extract_metadata rowD1 ["name"; "toString"; "__proto__"]
  = mkMeta (<["toString" := native_function "toString"]>
              (<["name" := JStr "Alice"]> ∅))
           (Some (JObj (Some "[object Object]"))).
Proof. by vm_compute. Qed.

(** ** The builder: where entities and relationships come from *)

Lemma elem_of_class_rows rawData mapping c row :
  (c, row) ∈ class_rows rawData mapping
  ↔ c ∈ map_classes mapping ∧ row ∈ rows rawData.
Proof.
  unfold class_rows. rewrite list_elem_of_bind. split.
  - intros (c' & (row' & [= -> ->] & Hrow)%list_elem_of_fmap & Hc). done.
  - intros [Hc Hrow]. exists c. split; [|done]. by apply list_elem_of_fmap_2.
Qed.

Lemma elem_of_definition_rows rawData mapping rd row :
  (rd, row) ∈ definition_rows rawData mapping
  ↔ rd ∈ map_relationships mapping ∧ row ∈ rows rawData.
Proof.
  unfold definition_rows. rewrite list_elem_of_bind. split.
  - intros (c' & (row' & [= -> ->] & Hrow)%list_elem_of_fmap & Hc). done.
  - intros [Hc Hrow]. exists rd. split; [|done]. by apply list_elem_of_fmap_2.
Qed.

(** X16: every entity of a built dataset comes from a class of the mapping
    and a row of the input whose source cell prints as a usable id: the
    entity id is the class id, a colon and that id, the type is the class
    id, the label is the printed label cell or the id, the metadata are
    those of the row.  Conversely every class and row with a usable id are
    represented by an entity with that id. *)
Theorem buildDataset_entities colors rawData mapping ds :
  (buildDataset colors rawData mapping).1 = Some ds →
  (∀ e, e ∈ entities ds →
     ∃ c row id, c ∈ map_classes mapping ∧ row ∈ rows rawData
       ∧ js_String (js_get row (cls_sourceColumn c)) = Some id
       ∧ id ≠ "" ∧ id ≠ "undefined" ∧ id ≠ "null"
       ∧ ent_id e = cls_id c +:+ ":" +:+ id
       ∧ ent_type e = cls_id c
       ∧ read_label row (cls_labelColumn c) id = Some (ent_label e)
       ∧ ent_metadata e = extract_metadata row (cls_metadataColumns c))
  ∧ (∀ c row id, c ∈ map_classes mapping → row ∈ rows rawData →
       js_String (js_get row (cls_sourceColumn c)) = Some id →
       id_missing id = false →
       cls_id c +:+ ":" +:+ id ∈ ent_id <$> entities ds).
Proof.
  intros Hds. destruct (buildDataset_from _ _ _ _ Hds) as [[Hfrom Hall] _]. split.
  - intros e He. destruct (Hfrom e He) as (c & row & Hfirst & Hof).
    destruct (first_with_elem _ _ _ _ Hfirst) as [[Hc Hrow]%elem_of_class_rows _].
    unfold entity_of in Hof.
    destruct (js_String (js_get row (cls_sourceColumn c))) as [id|] eqn:Hid; [|done].
    unfold id_missing, js_falsy in Hof.
    destruct (bool_decide (id = "")) eqn:H1; [done|].
    destruct (bool_decide (id = "undefined")) eqn:H2; [done|].
    destruct (bool_decide (id = "null")) eqn:H3; [done|].
    apply bool_decide_eq_false in H1, H2, H3. simpl in Hof.
    destruct (read_label row (cls_labelColumn c) id) as [label|] eqn:Hlabel; [|done].
    injection Hof as <-. exists c, row, id. simpl. by split_and!.
  - intros c row id Hc Hrow Hid Hmiss.
    apply (Hall (c, row)); [by apply elem_of_class_rows|].
    unfold entity_key, entity_id_of. simpl. by rewrite Hid, Hmiss.
Qed.

Lemma buildDataset_entities_witness :
  (buildDataset typeColorMap0 rawD mappingD).1
  = Some (mkDataset [mkEntity "class:e1" "class" "Alice" md_empty] [])
  ∧ "class" +:+ ":" +:+ "e1" ∈ ["class:e1"].
Proof.
  split; [exact scenario_D_first_wins|].
  refine (proj2 (buildDataset_entities typeColorMap0 rawD mappingD _ scenario_D_first_wins)
            classD rowD2 "e1" _ _ _ _).
  - left.
  - right. left.
  - by vm_compute.
  - by vm_compute.
Defined.

(** X17: every relationship of a built dataset is the one that a
    definition of the mapping yields for a row of the input: both cells
    print as usable ids, both full ids are ids of entities of the dataset,
    and they differ.  Conversely every definition and row that yield a
    relationship are represented by a relationship with its id. *)
Theorem buildDataset_relationships colors rawData mapping ds :
  (buildDataset colors rawData mapping).1 = Some ds →
  (∀ r, r ∈ relationships ds →
     ∃ rd row s t, rd ∈ map_relationships mapping ∧ row ∈ rows rawData
       ∧ read_endpoint row (rd_sourceColumn rd) = Some s
       ∧ read_endpoint row (rd_targetColumn rd) = Some t
       ∧ id_missing s = false ∧ id_missing t = false
       ∧ r = mkRelationship (rd_id rd +:+ ":" +:+ s +:+ "-" +:+ t)
               (rd_sourceClass rd +:+ ":" +:+ s) (rd_targetClass rd +:+ ":" +:+ t)
               (rd_id rd) (extract_metadata row (rd_metadataColumns rd))
       ∧ rel_source r ∈ ent_id <$> entities ds
       ∧ rel_target r ∈ ent_id <$> entities ds
       ∧ rel_source r ≠ rel_target r)
  ∧ (∀ rd row r, rd ∈ map_relationships mapping → row ∈ rows rawData →
       relationship_of rd (ent_id <$> entities ds) row = Some r →
       rel_id r ∈ rel_id <$> relationships ds).
Proof.
  intros Hds. destruct (buildDataset_from _ _ _ _ Hds) as [_ [Hfrom Hall]]. split.
  - intros r Hr. destruct (Hfrom r Hr) as (rd & row & Hfirst & Hof).
    destruct (first_with_elem _ _ _ _ Hfirst) as [[Hrd Hrow]%elem_of_definition_rows _].
    pose proof (relationship_of_sound _ _ _ _ Hof) as (Hs & Ht & Hne).
    unfold relationship_of in Hof.
    destruct (read_endpoint row (rd_sourceColumn rd)) as [s|] eqn:Hsrc; [|done].
    destruct (read_endpoint row (rd_targetColumn rd)) as [t|] eqn:Htgt; [|done].
    destruct (id_missing s) eqn:Hms; [done|].
    destruct (id_missing t) eqn:Hmt; [done|]. simpl in Hof.
    case_bool_decide; [|done]. injection Hof as <-.
    exists rd, row, s, t. by split_and!.
  - intros rd row r Hrd Hrow Hof.
    apply (Hall (rd, row)); [by apply elem_of_definition_rows|].
    unfold relationship_key. simpl. by rewrite Hof.
Qed.

Lemma buildDataset_relationships_witness :
  (buildDataset typeColorMap0 rawP mappingP).1
  = Some (mkDataset [mkEntity "c:a" "c" "a" md_empty; mkEntity "c:b" "c" "b" md_empty]
                    [mkRelationship "p:a-b" "c:a" "c:b" "p" md_empty])
  ∧ rel_id (mkRelationship "p:a-b" "c:a" "c:b" "p" md_empty) ∈ ["p:a-b"].
Proof.
  split; [exact buildDataset_parent_table|].
  refine (proj2 (buildDataset_relationships typeColorMap0 rawP mappingP _
                   buildDataset_parent_table)
            relP rowP1 (mkRelationship "p:a-b" "c:a" "c:b" "p" md_empty) _ _ _).
  - left.
  - left.
  - by vm_compute.
Defined.

(** ** The builder: empty input, colours *)

(** X18: without rows [buildDataset] returns the empty dataset; without
    classes no entity is built, so that the call returns the empty dataset
    if it returns: the relationship phase still prints the cells of every
    row. *)
Theorem buildDataset_empty colors rawData mapping :
  (rows rawData = [] →
   (buildDataset colors rawData mapping).1 = Some (mkDataset [] []))
  ∧ (map_classes mapping = [] →
     ∀ ds, (buildDataset colors rawData mapping).1 = Some ds → ds = mkDataset [] []).
Proof.
  split.
  - intros Hrows. unfold buildDataset, buildDataset_state.
    rewrite (foldl_try_ext (build_class rawData) (fun st c =>
               Ok (mkBuild (b_entities st) (b_relationships st) (entityMap st)
                     (color_set (typeColorMap st) (cls_id c) (cls_color c)))));
      [|intros st c _; unfold build_class; by rewrite Hrows].
    assert (∀ cs st, b_entities st = [] → b_relationships st = [] →
              ∃ st', foldl_try (fun st c =>
                       Ok (mkBuild (b_entities st) (b_relationships st) (entityMap st)
                             (color_set (typeColorMap st) (cls_id c) (cls_color c))))
                       st cs = Ok st'
                     ∧ b_entities st' = [] ∧ b_relationships st' = []) as H1.
    { intros cs. induction cs as [|c cs IH]; intros st He Hr; simpl; [by exists st|].
      by apply IH. }
    destruct (H1 (map_classes mapping) (mkBuild [] [] ∅ colors) eq_refl eq_refl)
      as (st1 & -> & He1 & Hr1).
    rewrite (foldl_try_ext (build_relationships rawData) (fun st rd => Ok st));
      [|intros st rd _; unfold build_relationships; by rewrite Hrows].
    assert (∀ rds st, foldl_try (fun (st : BuildState) (rd : RelationshipDefinition) =>
                                   Ok st) st rds = Ok st) as H2.
    { intros rds. induction rds as [|rd rds IH]; intros st; simpl; [done|apply IH]. }
    rewrite H2. simpl. by rewrite He1, Hr1.
  - intros Hclasses ds Hds.
    pose proof (buildDataset_joins colors rawData mapping ds) as Hint.
    destruct (buildDataset_from _ _ _ _ Hds) as [[Hfrom _] _].
    assert (entities ds = []) as He.
    { destruct (entities ds) as [|e es]; [done|]. exfalso.
      destruct (Hfrom e) as (c & row & Hfirst & _); [left|].
      destruct (first_with_elem _ _ _ _ Hfirst) as [[Hc _]%elem_of_class_rows _].
      rewrite Hclasses in Hc. by apply elem_of_nil in Hc. }
    destruct ds as [es rs]. simpl in *. subst es. f_equal.
    destruct rs as [|r rs]; [done|]. exfalso.
    destruct (Hint r Hds) as [Hs _]; [left|]. by apply elem_of_nil in Hs.
Qed.

(** Without classes the call need not return: the relationship phase
    throws on a cell that cannot be printed. *)
Lemma buildDataset_without_classes_throws :
  (buildDataset typeColorMap0 rawT (mkMapping [] [relP])).1 = None.
Proof. by vm_compute. Qed.

Lemma build_entity_colors c st row :
  typeColorMap (outcome_state (build_entity c st row)) = typeColorMap st.
Proof. by destruct (build_entity_state c st row) as [->|(e & _ & _ & ->)]. Qed.

Lemma build_class_colors raw st c :
  typeColorMap (outcome_state (build_class raw st c))
  = color_set (typeColorMap st) (cls_id c) (cls_color c).
Proof.
  unfold build_class.
  apply (foldl_try_inv (fun st' => typeColorMap st' = _)); [done|].
  intros st' row _ <-. apply build_entity_colors.
Qed.

Lemma color_set_lookup colors key color k :
  color_set colors key color !! k
  = if decide (key = k ∧ k ≠ "__proto__") then Some color else colors !! k.
Proof.
  unfold color_set. case_bool_decide as Hc.
  - subst key. rewrite decide_False; [done|]. by intros [<- ?].
  - destruct (decide (key = k)) as [->|Hne].
    + rewrite decide_True by done. by rewrite lookup_insert_eq.
    + rewrite decide_False by (intros [? _]; done). by rewrite lookup_insert_ne.
Qed.

Lemma build_classes_colors colors raw cs st k :
  foldl_try (build_class raw) (mkBuild [] [] ∅ colors) cs = Ok st →
  typeColorMap st !! k
  = if decide (k = "__proto__") then colors !! k
    else match last (filter (fun c => cls_id c = k) cs) with
         | Some c => Some (cls_color c)
         | None => colors !! k
         end.
Proof.
  apply (foldl_try_prefix_inv
           (fun cs1 st => typeColorMap st !! k
              = if decide (k = "__proto__") then colors !! k
                else match last (filter (fun c => cls_id c = k) cs1) with
                     | Some c => Some (cls_color c)
                     | None => colors !! k
                     end)).
  - simpl. by destruct (decide _).
  - intros cs1 c a a' Ha Hstep.
    pose proof (build_class_colors raw a c) as Hc. rewrite Hstep in Hc. simpl in Hc.
    rewrite Hc, color_set_lookup, Ha, filter_app, filter_cons, filter_nil.
    destruct (decide (k = "__proto__")) as [->|Hk].
    + rewrite decide_False; [done|]. by intros [_ ?].
    + destruct (decide (cls_id c = k)) as [Heq|Hne].
      * rewrite decide_True by done. by rewrite last_snoc.
      * rewrite decide_False by (intros [? _]; done). by rewrite app_nil_r.
Qed.

(** X19: the static colour table after [buildDataset].  When the call
    returns, the table holds for every class id of the mapping other than
    [__proto__] the colour of the last class definition with that id,
    overwriting what was there, and every other key is as it was; whether
    the call returns or throws, the key [__proto__] and the keys that are
    no class ids are as they were. *)
Theorem buildDataset_colors colors rawData mapping k :
  (∀ ds colors', buildDataset colors rawData mapping = (Some ds, colors') →
     colors' !! k
     = if decide (k = "__proto__") then colors !! k
       else match last (filter (fun c => cls_id c = k) (map_classes mapping)) with
            | Some c => Some (cls_color c)
            | None => colors !! k
            end)
  ∧ (k = "__proto__" ∨ (∀ c, c ∈ map_classes mapping → cls_id c ≠ k) →
     (buildDataset colors rawData mapping).2 !! k = colors !! k).
Proof.
  split.
  - intros ds colors'. unfold buildDataset, buildDataset_state.
    destruct (foldl_try (build_class rawData) _ _) as [st1|st1] eqn:H1;
      [|by intros [= ]].
    pose proof (foldl_try_inv (fun st => typeColorMap st = typeColorMap st1)
                  (build_relationships rawData) (map_relationships mapping) st1
                  eq_refl) as H2.
    destruct (foldl_try (build_relationships rawData) st1 _) as [st|st];
      [|by intros [= ]].
    intros [= _ <-]. simpl in H2. rewrite H2.
    + by apply (build_classes_colors colors rawData).
    + intros a rd _ <-. by destruct (build_relationships_keeps rawData a rd) as (_ & _ & ?).
  - intros Hk.
    assert (∀ st c, c ∈ map_classes mapping →
              typeColorMap (outcome_state (build_class rawData st c)) !! k
              = typeColorMap st !! k) as Hclass.
    { intros st c Hc. rewrite build_class_colors, color_set_lookup.
      rewrite decide_False; [done|]. intros [Heq Hne].
      destruct Hk as [->|Hk]; [done|]. by apply (Hk c). }
    unfold buildDataset, buildDataset_state.
    pose proof (foldl_try_inv (fun st => typeColorMap st !! k = colors !! k)
                  (build_class rawData) (map_classes mapping)
                  (mkBuild [] [] ∅ colors) eq_refl) as H1.
    destruct (foldl_try (build_class rawData) _ _) as [st1|st1]; simpl in H1.
    + pose proof (foldl_try_inv (fun st => typeColorMap st = typeColorMap st1)
                    (build_relationships rawData) (map_relationships mapping) st1
                    eq_refl) as H2.
      destruct (foldl_try (build_relationships rawData) st1 _) as [st|st];
        simpl in *; rewrite H2;
        try (apply H1; intros a c Hc <-; by apply Hclass);
        intros a rd _ <-; by destruct (build_relationships_keeps rawData a rd) as (_ & _ & ?).
    + simpl. apply H1. intros a c Hc <-. by apply Hclass.
Qed.

(** ** extractUniqueValues *)

Lemma unique_value_eq column acc row :
  unique_value column acc row =
  if decide (defined_cell row column) then
    match js_String (js_get row column) with
    | None => None
    | Some s => if bool_decide (s ∈ acc) then Some acc else Some (acc ++ [s])
    end
  else Some acc.
Proof.
  unfold unique_value, defined_cell.
  destruct (js_get row column);
    first [rewrite decide_False by (intros [? ?]; done); done
          |rewrite decide_True by (split; discriminate); done].
Qed.

Lemma unique_value_step column acc row acc' :
  unique_value column acc row = Some acc' → NoDup acc →
  NoDup acc'
  ∧ ∀ x, x ∈ acc' ↔ x ∈ acc ∨ (defined_cell row column
                               ∧ js_String (js_get row column) = Some x).
Proof.
  rewrite unique_value_eq. destruct (decide (defined_cell row column)) as [Hdef|Hdef].
  - destruct (js_String (js_get row column)) as [s|]; [|done].
    case_bool_decide as Hin; intros [= <-] Hnd.
    + split; [done|]. intros x. split; [by left|]. by intros [?|[_ [= <-]]].
    + split.
      * apply NoDup_app. split_and!; [done| |apply NoDup_singleton].
        by intros y Hy ->%list_elem_of_singleton.
      * intros x. rewrite elem_of_app, list_elem_of_singleton. split.
        -- intros [?| ->]; [by left|by right].
        -- intros [?|[_ [= <-]]]; [by left|by right].
  - intros [= <-] Hnd. split; [done|]. intros x. split; [by left|].
    by intros [?|[? _]].
Qed.

Lemma unique_values_fold column l acc vs :
  foldl_opt (unique_value column) acc l = Some vs →
  NoDup acc →
  NoDup vs
  ∧ ∀ x, x ∈ vs ↔ x ∈ acc ∨ ∃ row, row ∈ l ∧ defined_cell row column
                                   ∧ js_String (js_get row column) = Some x.
Proof.
  revert acc. induction l as [|row l IH]; intros acc; simpl.
  - intros [= <-] Hnd. split; [done|]. intros x. split; [by left|].
    intros [?|(row & ?%elem_of_nil & _)]; done.
  - destruct (unique_value column acc row) as [acc'|] eqn:Hstep; [|done].
    intros Hfold Hnd.
    destruct (unique_value_step _ _ _ _ Hstep Hnd) as [Hnd' Hacc'].
    destruct (IH acc' Hfold Hnd') as [Hnd'' Hvs]. split; [done|].
    intros x. rewrite Hvs, Hacc'. setoid_rewrite elem_of_cons. naive_solver.
Qed.

(** X20: [extractUniqueValues] returns exactly when every cell of the
    column that is neither [undefined] nor [null] can be printed; then it
    returns every printed value once: a string is returned exactly when
    some row has it as the text of such a cell, own or inherited. *)
Theorem extractUniqueValues_spec rawData column :
  (is_Some (extractUniqueValues rawData column) ↔
   ∀ row, row ∈ rows rawData → defined_cell row column →
          is_Some (js_String (js_get row column)))
  ∧ ∀ values, extractUniqueValues rawData column = Some values →
      NoDup values
      ∧ ∀ x, x ∈ values
             ↔ ∃ row, row ∈ rows rawData ∧ defined_cell row column
                      ∧ js_String (js_get row column) = Some x.
Proof.
  unfold extractUniqueValues. split.
  - generalize (@nil string). induction (rows rawData) as [|row l IH]; intros acc; simpl.
    + split; [by intros _ row ?%elem_of_nil|by eexists].
    + assert (is_Some (unique_value column acc row)
              ↔ (defined_cell row column → is_Some (js_String (js_get row column))))
        as Hstep.
      { rewrite unique_value_eq.
        destruct (decide (defined_cell row column)) as [Hdef|Hdef].
        - destruct (js_String (js_get row column)) as [s|].
          + case_bool_decide; split; by eauto.
          + split; [by intros [? ?]|]. intros H. by destruct (H Hdef) as [? ?].
        - split; [done|]. intros _. by eexists. }
      destruct (unique_value column acc row) as [acc'|] eqn:Hacc.
      * rewrite IH. split.
        -- intros Hall row' [->|Hin]%elem_of_cons; [intros Hd; by apply Hstep|by apply Hall].
        -- intros Hall row' Hin. apply Hall. by right.
      * split; [by intros [? ?]|]. intros Hall. exfalso.
        assert (is_Some (@None (list string))) as [? ?]; [|done].
        apply Hstep, Hall. left.
  - intros values Hvalues.
    destruct (unique_values_fold column (rows rawData) [] values Hvalues (NoDup_nil_2))
      as [Hnd Hmem].
    split; [done|]. intros x. rewrite Hmem, elem_of_nil. naive_solver.
Qed.

(** The values of a column of the parent table, and of the cell that cannot
    be printed. *)
Lemma extractUniqueValues_runs :
  extractUniqueValues rawP "parent" = Some ["b"]
  ∧ extractUniqueValues rawP "toString" = Some ["function toString() { [native code] }"]
  ∧ extractUniqueValues rawT "parent" = None.
Proof. split_and!; by vm_compute. Qed.

(** ** When the analyses return *)

(** X26: the analyses and the filters throw only through the index.
    [findPaths] and [analyzeImpact] return exactly when
    [buildAdjacencyMap] does, and so do [extractReachableSubgraph] and
    [filterDataset] when given a source; this is the case exactly when no
    relationship ends in an inherited name, in particular on every dataset
    closed under its relationships and on every dataset that
    [buildDataset] returns. *)
Theorem analysis_returns dataset sourceIds targetIds bound :
  (is_Some (findPaths dataset sourceIds targetIds bound) ↔ index_safe dataset)
  ∧ (is_Some (analyzeImpact dataset sourceIds bound) ↔ index_safe dataset)
  ∧ (sourceIds ≠ [] →
     is_Some (extractReachableSubgraph dataset sourceIds bound) ↔ index_safe dataset)
  ∧ (sourceIds ≠ [] →
     is_Some (filterDataset dataset sourceIds targetIds bound) ↔ index_safe dataset)
  ∧ (closed_dataset dataset → index_safe dataset)
  ∧ (∀ colors rawData mapping,
       (buildDataset colors rawData mapping).1 = Some dataset → index_safe dataset).
Proof.
  split_and!.
  - by rewrite findPaths_is_Some, buildAdjacencyMap_is_Some.
  - by rewrite analyzeImpact_is_Some, buildAdjacencyMap_is_Some.
  - intros Hne. rewrite <- buildAdjacencyMap_is_Some. unfold extractReachableSubgraph.
    destruct sourceIds as [|s0 ss]; [done|].
    assert ((js_length (s0 :: ss) =? 0)%Z = false) as ->
      by (apply Z.eqb_neq; unfold js_length; simpl length; lia).
    destruct (buildAdjacencyMap dataset); [split; by eauto|split; by intros [? ?]].
  - intros Hne. rewrite <- buildAdjacencyMap_is_Some, filterDataset_cases.
    destruct sourceIds as [|s0 ss]; [done|].
    destruct targetIds as [|t0 ts].
    + rewrite <- (analyzeImpact_is_Some dataset (s0 :: ss) bound).
      destruct (analyzeImpact dataset (s0 :: ss) bound); [split; by eauto|split; by intros [? ?]].
    + rewrite <- (findPaths_is_Some dataset (s0 :: ss) (t0 :: ts) bound).
      destruct (findPaths dataset (s0 :: ss) (t0 :: ts) bound); [split; by eauto|split; by intros [? ?]].
  - apply closed_dataset_safe.
  - intros colors rawData mapping Hds. apply closed_dataset_safe. intros r Hr.
    exact (buildDataset_joins colors rawData mapping dataset r Hds Hr).
Qed.
